(** * enyo.Collection: a shallow embedding and its checked properties

    The collection kind of the data layer keeps an array of slots
    ([records]), a cached [length], a filter overlay with an undo buffer
    ([_uRecords]) and talks to a store for notifications and for the record
    factory.  The JavaScript methods are embedded as state-passing functions
    over one [collection] record; a method that can throw returns a
    [result]. *)

From stdpp Require Import gmap strings list fin_maps sorting.

Open Scope Z_scope.

(** ** JavaScript values, objects and array slots *)

(** Attribute values of records and data hashes (primitives only). *)
Inductive value :=
  | VUndefined
  | VNull
  | VBool (b : bool)
  | VNum (n : Z)
  | VStr (s : string).

Global Instance value_eq_dec : EqDecision value.
Proof. solve_decision. Defined.

(** [a === b] on primitives. *)
Definition strict_eq (a b : value) : bool := bool_decide (a = b).

(** [v !== null && v !== undefined] *)
Definition defined (v : value) : bool :=
  match v with
  | VUndefined | VNull => false
  | _ => true
  end.

(** Truthiness of a primitive. *)
Definition truthy (v : value) : bool :=
  match v with
  | VUndefined | VNull => false
  | VBool b => b
  | VNum n => negb (n =? 0)
  | VStr s => negb (bool_decide (s = EmptyString))
  end.

(** Objects live in a heap and are named by their address; two slots
    holding the same address alias the same object. *)
Definition addr := nat.

(** One element of a JavaScript array of records: an absent (null or
    undefined, hence falsy) element, a reference to a plain data hash, or
    a reference to an instance of the collection's model kind. *)
Inductive entry :=
  | Absent
  | Raw (a : addr)
  | Rec (a : addr).

Global Instance entry_eq_dec : EqDecision entry.
Proof. solve_decision. Defined.

Definition present (e : entry) : bool :=
  match e with Absent => false | _ => true end.

(** [r instanceof enyo.Model] *)
Definition is_model (e : entry) : bool :=
  match e with Rec _ => true | _ => false end.

(** ** Array primitives *)

Definition len {A} (l : list A) : Z := Z.of_nat (List.length l).

(** [l[i]] for a numeric index; [None] is JavaScript's [undefined]. *)
Definition nth_z {A} (l : list A) (i : Z) : option A :=
  if i <? 0 then None else l !! Z.to_nat i.

(** [l.splice(start, del, items...)], returning the array after the call.
    A negative [start] counts from the end; both arguments are clamped the
    way Array.prototype.splice does. *)
Definition splice {A} (start del : Z) (items l : list A) : list A :=
  let n := len l in
  let from := if start <? 0 then Z.max (n + start) 0 else Z.min start n in
  let dc := Z.min (Z.max del 0) (n - from) in
  take (Z.to_nat from) l ++ items ++ drop (Z.to_nat (from + dc)) l.

(** Modelled from the spec: [enyo.indexOf(rec, array)], the identity search
    the collection consumes: the first index holding [e], or -1. *)
Fixpoint index_from (e : entry) (l : list entry) (i : Z) : Z :=
  match l with
  | [] => -1
  | x :: l' => if bool_decide (x = e) then i else index_from e l' (i + 1)
  end.

Definition enyo_indexOf (e : entry) (l : list entry) : Z := index_from e l 0.

(** The entries of an array that a loop of the shape
    [for (j = 0; (r = a[j]); ++j)] visits: those before the first falsy
    one. *)
Fixpoint visited (l : list entry) : list entry :=
  match l with
  | [] => []
  | Absent :: _ => []
  | e :: l' => e :: visited l'
  end.

(** ** Notifications, errors and the collection state *)

Inductive event :=
  | EvLength (old new : Z)            (* observers of "length" *)
  | EvAdd (indices : list Z)          (* "add", {records: indices} *)
  | EvRemove (d : gmap Z entry)       (* "remove", {records: d} *)
  | EvReset (rs : list entry).        (* "reset", {records: rs} *)

Inductive error :=
  | InvalidRecordState   (* the string thrown by add *)
  | TypeError.           (* a property read or call on null/undefined *)

(** Options of [fetch]. *)
Inductive strategy := StrategyAdd | StrategyMerge.

Record fetch_opts := FetchOpts {
  replace : bool;
  destroy : bool;
  strategy_of : strategy
}.

Module Collection.

Record collection := Make {
  records : list entry;
  length : Z;
  filtered : bool;
  filtering : bool;
  silenced : bool;
  _uRecords : option (list entry);
  _destroyAll : bool;
  instanceAllRecords : bool;
  (* this.model.prototype *)
  primaryKey : string;
  mergeKeys : option (list string);
  (* the store: object heap, allocation counter, destroyed instances,
     tasks scheduled with enyo.asyncMethod, delivered notifications *)
  heap : gmap addr (gmap string value);
  next : addr;
  dead : gset addr;
  pending : list fetch_opts;
  log : list event
}.

Definition set_records (l : list entry) (s : collection) : collection :=
  Make l (length s) (filtered s) (filtering s) (silenced s) (_uRecords s)
    (_destroyAll s) (instanceAllRecords s) (primaryKey s) (mergeKeys s)
    (heap s) (next s) (dead s) (pending s) (log s).

Definition set_length (n : Z) (s : collection) : collection :=
  Make (records s) n (filtered s) (filtering s) (silenced s) (_uRecords s)
    (_destroyAll s) (instanceAllRecords s) (primaryKey s) (mergeKeys s)
    (heap s) (next s) (dead s) (pending s) (log s).

Definition set_filtered (b : bool) (s : collection) : collection :=
  Make (records s) (length s) b (filtering s) (silenced s) (_uRecords s)
    (_destroyAll s) (instanceAllRecords s) (primaryKey s) (mergeKeys s)
    (heap s) (next s) (dead s) (pending s) (log s).

Definition set_filtering (b : bool) (s : collection) : collection :=
  Make (records s) (length s) (filtered s) b (silenced s) (_uRecords s)
    (_destroyAll s) (instanceAllRecords s) (primaryKey s) (mergeKeys s)
    (heap s) (next s) (dead s) (pending s) (log s).

Definition set_silenced (b : bool) (s : collection) : collection :=
  Make (records s) (length s) (filtered s) (filtering s) b (_uRecords s)
    (_destroyAll s) (instanceAllRecords s) (primaryKey s) (mergeKeys s)
    (heap s) (next s) (dead s) (pending s) (log s).

Definition set_uRecords (u : option (list entry)) (s : collection) : collection :=
  Make (records s) (length s) (filtered s) (filtering s) (silenced s) u
    (_destroyAll s) (instanceAllRecords s) (primaryKey s) (mergeKeys s)
    (heap s) (next s) (dead s) (pending s) (log s).

Definition set_destroyAll (b : bool) (s : collection) : collection :=
  Make (records s) (length s) (filtered s) (filtering s) (silenced s)
    (_uRecords s) b (instanceAllRecords s) (primaryKey s) (mergeKeys s)
    (heap s) (next s) (dead s) (pending s) (log s).

Definition set_heap (h : gmap addr (gmap string value)) (s : collection) : collection :=
  Make (records s) (length s) (filtered s) (filtering s) (silenced s)
    (_uRecords s) (_destroyAll s) (instanceAllRecords s) (primaryKey s)
    (mergeKeys s) h (next s) (dead s) (pending s) (log s).

Definition set_next (n : addr) (s : collection) : collection :=
  Make (records s) (length s) (filtered s) (filtering s) (silenced s)
    (_uRecords s) (_destroyAll s) (instanceAllRecords s) (primaryKey s)
    (mergeKeys s) (heap s) n (dead s) (pending s) (log s).

Definition set_dead (d : gset addr) (s : collection) : collection :=
  Make (records s) (length s) (filtered s) (filtering s) (silenced s)
    (_uRecords s) (_destroyAll s) (instanceAllRecords s) (primaryKey s)
    (mergeKeys s) (heap s) (next s) d (pending s) (log s).

Definition set_pending (p : list fetch_opts) (s : collection) : collection :=
  Make (records s) (length s) (filtered s) (filtering s) (silenced s)
    (_uRecords s) (_destroyAll s) (instanceAllRecords s) (primaryKey s)
    (mergeKeys s) (heap s) (next s) (dead s) p (log s).

Definition set_log (l : list event) (s : collection) : collection :=
  Make (records s) (length s) (filtered s) (filtering s) (silenced s)
    (_uRecords s) (_destroyAll s) (instanceAllRecords s) (primaryKey s)
    (mergeKeys s) (heap s) (next s) (dead s) (pending s) l.

Arguments set_records _ _ /.
Arguments set_length _ _ /.
Arguments set_filtered _ _ /.
Arguments set_filtering _ _ /.
Arguments set_silenced _ _ /.
Arguments set_uRecords _ _ /.
Arguments set_destroyAll _ _ /.
Arguments set_heap _ _ /.
Arguments set_next _ _ /.
Arguments set_dead _ _ /.
Arguments set_pending _ _ /.
Arguments set_log _ _ /.

(** A call either returns a value or throws; both leave a state behind. *)
Inductive result (A : Type) :=
  | Done (a : A) (s : collection)
  | Thrown (e : error) (s : collection).
Arguments Done {A} a s.
Arguments Thrown {A} e s.

Definition bind {A B} (m : result A) (k : A → collection → result B) : result B :=
  match m with
  | Done a s => k a s
  | Thrown e s => Thrown e s
  end.

Notation "'do' x , s <- m ; k" := (bind m (fun x s => k))
  (at level 10, x name, s name, m at level 100, k at level 200).

Definition state_of {A} (m : result A) : collection :=
  match m with Done _ s => s | Thrown _ s => s end.

(** [constructor(data)]: the collection over the array [data], with the
    kind's defaults.  The store is given by its heap and counter. *)
Definition create (data : list entry) (eager : bool) (pk : string)
    (mk : option (list string)) (h : gmap addr (gmap string value))
    (n : addr) : collection :=
  Make data (len data) false false false None false eager pk mk h n ∅ [] [].

(** ** Observer and event plumbing *)

(** [notifyObservers] and [triggerEvent] hand the notification to the
    store unless the collection is silenced. *)
Definition emit (e : event) (s : collection) : collection :=
  if silenced s then s else set_log (log s ++ [e]) s.

Definition notifyObservers_length (old new : Z) (s : collection) : collection :=
  emit (EvLength old new) s.

Definition triggerEvent (e : event) (s : collection) : collection := emit e s.

(** The end of every mutator:
    [if (l !== this.length) this.notifyObservers("length", l, this.length)]. *)
Definition notify_if_changed (l : Z) (s : collection) : collection :=
  if bool_decide (l = length s) then s
  else notifyObservers_length l (length s) s.

Arguments emit : simpl never.
Arguments notifyObservers_length : simpl never.
Arguments triggerEvent : simpl never.
Arguments notify_if_changed : simpl never.

(** ** reset *)

(** [reset(records)]: [None] is the call without argument.  Restoring
    from a null undo buffer leaves [this.records] null, rendered here as
    the empty array, and throws on reading its length. *)
Definition reset (arg : option (list entry)) (s : collection) : result unit :=
  match arg with
  | None =>
      if filtered s then
        match _uRecords s with
        | None => Thrown TypeError (set_records [] (set_uRecords None s))
        | Some rr =>
            let l := len (records s) in
            let s := set_uRecords None s in
            let s := set_records rr s in
            let s := set_length (len (records s)) s in
            let s := set_filtered false s in
            let s := notify_if_changed l s in
            Done tt (triggerEvent (EvReset (records s)) s)
        end
      else Done tt s
  | Some rs =>
      let s := if filtering s && negb (filtered s)
               then set_uRecords (Some (records s)) s else s in
      let l := len (records s) in
      let s := set_records rs s in
      let s := set_length (len (records s)) s in
      let s := notify_if_changed l s in
      Done tt (triggerEvent (EvReset (records s)) s)
  end.

Arguments reset : simpl never.

(** The guard every mutator starts with: [if (this.filtered) this.reset()]. *)
Definition unfilter (s : collection) : result unit :=
  if filtered s then reset None s else Done tt s.

(** ** remove *)

(** [k = 0; while (rr[k] < i) ++k]: the number of leading elements below
    [i] (the comparison with the undefined element past the end is false). *)
Fixpoint scan_below (rr : list Z) (i : Z) : Z :=
  match rr with
  | [] => 0
  | x :: rr' => if x <? i then 1 + scan_below rr' i else 0
  end.

(** The working variables of the first loop of [remove]. *)
Record plan := Plan {
  rr : list Z;          (* indices to remove *)
  d : gmap Z entry;     (* index -> record *)
  x : Z;                (* running maximum *)
  m : Z                 (* running minimum *)
}.

(** One iteration of the first loop, for the record [r]. *)
Definition place (recs : list entry) (p : plan) (r : entry) : plan :=
  let i := enyo_indexOf r recs in
  if -1 <? i then
    if i <=? m p then Plan (i :: rr p) (<[i := r]> (d p)) (x p) i
    else if x p <=? i then Plan (rr p ++ [i]) (<[i := r]> (d p)) i (m p)
    else Plan (splice (scan_below (rr p) i - 1) 0 [i] (rr p))
              (<[i := r]> (d p)) (x p) (m p)
  else p.

Definition remove_plan (recs rec : list entry) : plan :=
  foldl (place recs) (Plan [] ∅ 0 0) (visited rec).

(** The second loop: [j] runs from the last element of [rr] down, each
    step doing [this.records.splice(i, 1)]. *)
Definition remove_at (recs : list entry) (i : Z) : list entry :=
  splice i 1 [] recs.

Definition remove_indices (rr : list Z) (recs : list entry) : list entry :=
  foldl remove_at recs (rev rr).

Definition remove (rec : list entry) (s : collection) : result (gmap Z entry) :=
  do _, s <- unfilter s;
  let l := length s in
  let p := remove_plan (records s) rec in
  let s := set_records (remove_indices (rr p) (records s)) s in
  let s := set_length (len (records s)) s in
  let s := notify_if_changed l s in
  let s := match rr p with
           | [] => s
           | _ => triggerEvent (EvRemove (d p)) s
           end in
  Done (d p) s.

(** [removeAll()]: the argument is the array as it is before [remove]
    looks at the filtered flag. *)
Definition removeAll (s : collection) : result (gmap Z entry) :=
  remove (records s) s.

(** ** The record factory and lazy resolution *)

(** Property read [o[k]] on the object at [a]; a missing property (or
    object) reads as undefined.  Reading through a record's [get] gives the
    same attribute. *)
Definition prop (h : gmap addr (gmap string value)) (a : addr) (k : string) : value :=
  default VUndefined (h !! a ≫= (.!! k)).

Definition attrs_of (h : gmap addr (gmap string value)) (e : entry) : gmap string value :=
  match e with
  | Absent => ∅
  | Raw a | Rec a => default ∅ (h !! a)
  end.

(** [r.get ? r.get(k) : r[k]]: an instance is read through its [get], a
    data hash directly.  The data hashes considered carry no attribute
    named like a method that [merge] tests for ([get], [raw],
    [setObject]): on one that does, the test succeeds and the call of the
    attribute is a type error. *)
Definition get (h : gmap addr (gmap string value)) (e : entry) (k : string) : value :=
  match e with
  | Absent => VUndefined
  | Raw a | Rec a => prop h a k
  end.

(** Modelled from the spec: [store.createRecord(model, attrs, props)], the
    store's record factory: a new instance of the model kind, at a fresh
    address, carrying the given attributes. *)
Definition store_createRecord (attrs : gmap string value) (s : collection)
    : entry * collection :=
  let a := next s in
  (Rec a, set_next (S a) (set_heap (<[a := attrs]> (heap s)) s)).

(** [createRecord(attrs, props, false)]: with [false] as index the new
    record is not added to the collection. *)
Definition createRecord_detached (attrs : gmap string value) (s : collection)
    : entry * collection :=
  store_createRecord attrs s.

(** [at(i)] (named [at_] here, [at] being reserved). *)
Definition at_ (i : Z) (s : collection) : entry * collection :=
  match nth_z (records s) i with
  | Some (Raw a) =>
      let '(r, s) := createRecord_detached (attrs_of (heap s) (Raw a)) s in
      (r, set_records (<[Z.to_nat i := r]> (records s)) s)
  | Some e => (e, s)
  | None => (Absent, s)
  end.

(** [map(fn)]: [for (i = 0, l = this.length; i < l && (r = this.at(i)); ++i)].
    [n] counts the iterations that [i < l] still allows. *)
Fixpoint map_loop {B} (fn : entry → Z → B) (n : nat) (i : Z) (s : collection)
    : list B * collection :=
  match n with
  | O => ([], s)
  | S n' =>
      let '(r, s) := at_ i s in
      if present r then
        let '(fs, s) := map_loop fn n' (i + 1) s in (fn r i :: fs, s)
      else ([], s)
  end.

Definition map {B} (fn : entry → Z → B) (s : collection) : list B * collection :=
  map_loop fn (Z.to_nat (length s)) 0 s.

Fixpoint filter_loop (fn : entry → Z → bool) (n : nat) (i : Z) (s : collection)
    : list entry * collection :=
  match n with
  | O => ([], s)
  | S n' =>
      let '(r, s) := at_ i s in
      if present r then
        let '(fs, s) := filter_loop fn n' (i + 1) s in
        (if fn r i then r :: fs else fs, s)
      else ([], s)
  end.

Definition filter (fn : entry → Z → bool) (s : collection) : list entry * collection :=
  filter_loop fn (Z.to_nat (length s)) 0 s.

(** ** add *)

(** [i = (i !== null && !isNaN(i) && (i = Math.max(0, i)) &&
         (i = Math.min(len, i))) || len]; [None] stands for an index that
    is missing, null or not a number. *)
Definition normalize_index (i : option Z) (len0 : Z) : Z :=
  match i with
  | None => len0
  | Some i =>
      let i := Z.max 0 i in
      if i =? 0 then len0
      else let i := Z.min len0 i in
           if i =? 0 then len0 else i
  end.

(** The loop of [add] over the incoming array, from position [j]: it
    returns the array as the loop leaves it (eagerly created instances
    stored back) and the indices pushed on [add]. *)
Fixpoint add_scan (j i : Z) (batch : list entry) (s : collection)
    : result (list entry * list Z) :=
  match batch with
  | [] => Done ([], []) s
  | Absent :: _ => Done (batch, []) s
  | Rec a :: rest =>
      do p, s <- add_scan (j + 1) i rest s;
      Done (Rec a :: p.1, p.2) s
  | Raw a :: rest =>
      if instanceAllRecords s then
        let '(r, s) := createRecord_detached (attrs_of (heap s) (Raw a)) s in
        do p, s <- add_scan (j + 1) i rest s;
        Done (r :: p.1, (j + i) :: p.2) s
      else if truthy (prop (heap s) a "destroyed") then
        Thrown InvalidRecordState s
      else
        do p, s <- add_scan (j + 1) i rest s;
        Done (Raw a :: p.1, (j + i) :: p.2) s
  end.

Definition add (batch : list entry) (i : option Z) (s : collection)
    : result (list Z) :=
  do _, s <- unfilter s;
  let len0 := length s in
  let i := normalize_index i len0 in
  match batch with
  | [] => Done [] s
  | _ =>
      do p, s <- add_scan 0 i batch s;
      let s := set_records (splice i 0 p.1 (records s)) s in
      let s := set_length (len (records s)) s in
      let s := notify_if_changed len0 s in
      let s := match p.2 with
               | [] => s
               | _ => triggerEvent (EvAdd p.2) s
               end in
      Done p.2 s
  end.

(** [createRecord(attrs, props, i)] for an index other than [false]:
    [i = (!isNaN(i) && i >= 0 ? i : this.length)], then [this.add(r, i)]. *)
Definition createRecord (attrs : gmap string value) (i : option Z) (s : collection)
    : result entry :=
  let '(r, s) := store_createRecord attrs s in
  let i := match i with
           | Some i => if 0 <=? i then i else length s
           | None => length s
           end in
  do _, s <- add [r] (Some i) s;
  Done r s.

(** ** merge *)

(** The loop over the merge keys for one candidate [c]; it threads the
    variable [v], which the loop overwrites, and the flag [match]. *)
Fixpoint keys_loop (h : gmap addr (gmap string value)) (r c : entry)
    (ks : list string) (v : value) (matched : bool) : value * bool :=
  match ks with
  | [] => (v, matched)
  | k :: ks' =>
      if bool_decide (k = EmptyString) then (v, matched)
      else
        let v := get h r k in
        if strict_eq v (get h c k) then keys_loop h r c ks' v true
        else (v, false)
  end.

(** The body of the loop over the pool, for one candidate [c]: the test on
    the primary key, else the test on the merge keys.  It returns [v] as
    the body leaves it and whether [merged] was set. *)
Definition try_candidate (h : gmap addr (gmap string value)) (pk : string)
    (mk : option (list string)) (r c : entry) (v : value) : value * bool :=
  if defined v && strict_eq v (get h c pk) then (v, true)
  else
    match mk with
    | Some ks => keys_loop h r c ks v false
    | None => (v, false)
    end.

(** The loop over the pool [local] for the incoming item [r]: [seen] are
    the candidates already passed.  It returns the candidate merged with
    and the pool without it. *)
Fixpoint candidates_loop (h : gmap addr (gmap string value)) (pk : string)
    (mk : option (list string)) (r : entry) (v : value)
    (seen local : list entry) : option (entry * list entry) :=
  match local with
  | [] => None
  | Absent :: _ => None
  | c :: rest =>
      let '(v, merged) := try_candidate h pk mk r c v in
      if merged then Some (c, seen ++ rest)
      else candidates_loop h pk mk r v (seen ++ [c]) rest
  end.

(** Modelled from the spec: [c.setObject(...)] on an instance and
    [enyo.mixin(c, ...)] on a data hash both apply the incoming attributes
    to the object behind [c], the incoming values winning. *)
Definition apply_attrs (c r : entry) (h : gmap addr (gmap string value))
    : gmap addr (gmap string value) :=
  match c with
  | Absent => h
  | Raw a | Rec a => <[a := attrs_of h r ∪ attrs_of h c]> h
  end.

(** The outer loop of [merge]: the heap, the pool and the array [add]. *)
Fixpoint merge_loop (pk : string) (mk : option (list string))
    (batch : list entry) (h : gmap addr (gmap string value))
    (local toadd : list entry)
    : gmap addr (gmap string value) * list entry :=
  match batch with
  | [] => (h, toadd)
  | Absent :: _ => (h, toadd)
  | r :: rest =>
      let v := get h r pk in
      if bool_decide (is_Some mk) || defined v then
        match candidates_loop h pk mk r v [] local with
        | Some (c, local') =>
            merge_loop pk mk rest (apply_attrs c r h) local' toadd
        | None => merge_loop pk mk rest h local (toadd ++ [r])
        end
      else merge_loop pk mk rest h local (toadd ++ [r])
  end.

(** [merge(records)]; [None] is a falsy argument. *)
Definition merge (batch : option (list entry)) (s : collection) : result unit :=
  match batch with
  | None => Done tt s
  | Some batch =>
      let '(h, toadd) :=
        merge_loop (primaryKey s) (mergeKeys s) batch (heap s) (records s) [] in
      let s := set_heap h s in
      match toadd with
      | [] => Done tt s
      | _ => do _, s <- add toadd None s; Done tt s
      end
  end.

(** ** destroyAll *)

(** Modelled from the spec: [r.destroy()] marks an instance destroyed; a
    plain data hash has no such method, so the call throws. *)
Definition destroy_record (e : entry) (s : collection) : result unit :=
  match e with
  | Absent => Done tt s
  | Raw _ => Thrown TypeError s
  | Rec a => Done tt (set_dead ({[a]} ∪ dead s) s)
  end.

Fixpoint destroy_each (l : list entry) (s : collection) : result unit :=
  match l with
  | [] => Done tt s
  | e :: l' => do _, s <- destroy_record e s; destroy_each l' s
  end.

(** [for (var k in rr)]: the values of an index-keyed object, by ascending
    index. *)
Definition in_key_order (d : gmap Z entry) : list entry :=
  omap (λ k, d !! k) (merge_sort Z.le (map_to_list d).*1).

Definition destroyAll (s : collection) : result unit :=
  do rr, s <- removeAll s;
  let s := set_destroyAll true s in
  do _, s <- destroy_each (in_key_order rr) s;
  Done tt (set_destroyAll false s).

(** ** The filter overlay *)

Inductive filter_return :=
  | ReturnsFalsy
  | ReturnsTrue
  | ReturnsArray (l : list entry).

(** What the method of a filter does with the collection it is bound to:
    it reads records with [at(i)], also through [map] and [filter], and it
    may call [reset], with an array or without. *)
Inductive filter_call :=
  | Reads (i : Z)
  | Resets (arg : option (list entry)).

(** One invocation of a filter method that returns: its calls on the
    collection, in order, and the value it returns.  (A method that raises
    is a [Raising] member, further down.) *)
Record filter_run := FilterRun {
  calls : list filter_call;
  returned : filter_return
}.

Fixpoint run_calls (cs : list filter_call) (s : collection) : result unit :=
  match cs with
  | [] => Done tt s
  | Reads i :: cs' => run_calls cs' (at_ i s).2
  | Resets arg :: cs' => do _, s <- reset arg s; run_calls cs' s
  end.

Definition run_filter_method (r : filter_run) (s : collection) : result filter_return :=
  do _, s <- run_calls (calls r) s; Done (returned r) s.

Definition buffer_nonempty (s : collection) : bool :=
  match _uRecords s with
  | Some (_ :: _) => true
  | _ => false
  end.

(** [_filterContent()]; [fm] is [this[this.filters[this.activeFilter]]],
    [None] when the lookup finds no method. *)
Definition _filterContent (fm : option (collection → filter_run)) (s : collection)
    : result unit :=
  if negb (filtering s) && (negb (length s =? 0) || buffer_nonempty s) then
    match fm with
    | None => Done tt s
    | Some f =>
        let s := set_filtering true s in
        let s := set_silenced true s in
        do r, s <- run_filter_method (f s) s;
        let s := set_silenced false s in
        do _, s <- match r with
                   | ReturnsFalsy => Done tt s
                   | ReturnsTrue => reset None s
                   | ReturnsArray l => reset (Some l) s
                   end;
        let s := set_filtering false s in
        Done tt (if buffer_nonempty s then set_filtered true s else s)
    end
  else Done tt s.

(** A run of filter applications, one method after the other. *)
Fixpoint apply_filters (fs : list (collection → filter_run)) (s : collection)
    : result unit :=
  match fs with
  | [] => Done tt s
  | f :: fs' => do _, s <- _filterContent (Some f) s; apply_filters fs' s
  end.

(** ** fetch *)

(** [fetch(opts)]: the request is handed to [enyo.asyncMethod], which
    queues it for a later turn; the clearing runs in this one. *)
Definition fetch (o : fetch_opts) (s : collection) : result unit :=
  do _, s <- unfilter s;
  let s := set_pending (pending s ++ [o]) s in
  if replace o && negb (destroy o) then
    do _, s <- removeAll s; Done tt s
  else if destroy o then destroyAll s
  else Done tt s.


Definition fetchAndDestroy (o : fetch_opts) (s : collection) : result unit :=
  fetch (FetchOpts (replace o) true (strategy_of o)) s.

(** [didFetch(rec, opts, res)], run by the store in a later turn with the
    parsed result; [None] is a falsy result. *)
Definition didFetch (o : fetch_opts) (res : option (list entry)) (s : collection)
    : result unit :=
  match res with
  | None => Done tt s
  | Some rr =>
      match strategy_of o with
      | StrategyAdd => do _, s <- add rr None s; Done tt s
      | StrategyMerge => merge (Some rr) s
      end
  end.

(** ** Listeners and observers of the collection *)

(** [_recordDestroyed(rec)], the listener for the destroy event of the
    records the collection creates:
    [if (!this._destroyAll) { this.remove(rec); }]. *)
Definition _recordDestroyed (rec : entry) (s : collection) : result unit :=
  if _destroyAll s then Done tt s
  else do _, s <- remove [rec] s; Done tt s.

(** What the collection has under a property name, as far as a filter
    pass can tell: a method that returns, given by its run; a method that
    raises after the calls [g s] on the collection, its exception rendered
    as the error [e]; or a truthy value that is not a function, calling
    which is a type error. *)
Inductive member :=
  | Returning (f : collection → filter_run)
  | Raising (g : collection → list filter_call) (e : error)
  | NotCallable.

(** [_filterContent()] when the call [this[fn]()] raises: the call is not
    guarded, so the assignments [this.silenced = false] and
    [this.filtering = false] that follow it are not reached. *)
Definition raised_pass (g : collection → list filter_call) (e : error)
    (s : collection) : result unit :=
  if negb (filtering s) && (negb (length s =? 0) || buffer_nonempty s) then
    let s := set_filtering true s in
    let s := set_silenced true s in
    do _, s <- run_calls (g s) s;
    Thrown e s
  else Done tt s.

(** [_filterContent()] for whatever [this[fn]] is; [None] is a falsy
    value, such as a property that is not there. *)
Definition filter_pass (m : option member) (s : collection) : result unit :=
  match m with
  | None => _filterContent None s
  | Some (Returning f) => _filterContent (Some f) s
  | Some (Raising g e) => raised_pass g e s
  | Some NotCallable => raised_pass (λ _, []) TypeError s
  end.

(** The part of a collection that names its filters: [activeFilter]; the
    own properties of the [filters] object, from filter name to method
    name; the names of the properties this object inherits, which for a
    plain object are the functions of [Object.prototype] ("constructor",
    "toString" and so on); and what the collection has under a property
    name, where that is truthy. *)
Record filter_setup := FilterSetup {
  activeFilter : string;
  filters : gmap string string;
  inherited : gset string;
  members : gmap string member
}.

(** [this.filters[name]]: an own property, else an inherited one, else
    undefined. *)
Inductive filters_entry :=
  | OwnEntry (fn : string)
  | InheritedEntry
  | NoEntry.

Definition filters_at (k : filter_setup) (name : string) : filters_entry :=
  match filters k !! name with
  | Some fn => OwnEntry fn
  | None => if bool_decide (name ∈ inherited k) then InheritedEntry else NoEntry
  end.

(** The lookup of [_filterContent]:
    [var fn = this.filters[this.activeFilter]; if (fn && this[fn])].  An
    inherited entry is a function, which as a property name reads as its
    source text and names no property of the collection. *)
Definition active_member (k : filter_setup) : option member :=
  match filters_at k (activeFilter k) with
  | OwnEntry fn => if bool_decide (fn = EmptyString) then None else members k !! fn
  | InheritedEntry => None
  | NoEntry => None
  end.

(** [this.triggerEvent("filter")]: unless the collection is silenced the
    store runs the listeners of the event, of which the constructor
    registers one, [_filterContent]. *)
Definition trigger_filter (k : filter_setup) (s : collection) : result unit :=
  if silenced s then Done tt s else filter_pass (active_member k) s.

(** [_activeFilterChanged()], the observer of [activeFilter]:
    [if (fn && m && m[fn]) { this.triggerEvent("filter"); }
     else { this.reset(); }]. *)
Definition _activeFilterChanged (k : filter_setup) (s : collection) : result unit :=
  let named :=
    match filters_at k (activeFilter k) with
    | OwnEntry fn => negb (bool_decide (fn = EmptyString))
    | InheritedEntry => true
    | NoEntry => false
    end in
  if negb (bool_decide (activeFilter k = EmptyString)) && named
  then trigger_filter k s
  else reset None s.

(** ** Filter properties and kind inheritance *)

(** The blank, character 32. *)
Definition blank : Ascii.ascii := Eval cbv in Ascii.ascii_of_nat 32.

(** [s.split(" ")] and [l.join(" ")]. *)
Fixpoint split_blank (s : string) : list string :=
  match s with
  | EmptyString => [EmptyString]
  | String c s' =>
      if Ascii.eqb c blank then EmptyString :: split_blank s'
      else match split_blank s' with
           | h :: t => String c h :: t
           | [] => [String c EmptyString]
           end
  end.

Definition join_blank (l : list string) : string := String.concat " " l.

(** The loop of the constructor over [filterProps]:
    [if (this.filterProps.length)
       for (j = 0, ps = this.filterProps.split(" "); (fp = ps[j]); ++j)
         this.addObserver(fp, fn)]; the result lists the properties that
    get the observer. *)
Fixpoint until_empty (ps : list string) : list string :=
  match ps with
  | [] => []
  | p :: ps' => if bool_decide (p = EmptyString) then [] else p :: until_empty ps'
  end.

Definition observed_props (filterProps : string) : list string :=
  if bool_decide (filterProps = EmptyString) then []
  else until_empty (split_blank filterProps).

(** What [enyo.Collection.concat] reads and writes: [filters] and
    [filterProps] of the prototype, and of the properties of the kind
    being declared, where [filterProps] is a string or an array of names
    and [None] is a property that is not there, or was deleted. *)
Inductive prop_names :=
  | NamesString (s : string)
  | NamesArray (l : list string).

Record proto := Proto {
  p_filters : option (gmap string string);
  p_filterProps : string
}.

Record kind_props := KindProps {
  k_filters : option (gmap string string);
  k_filterProps : option prop_names
}.

Definition names_truthy (n : prop_names) : bool :=
  match n with
  | NamesString s => negb (bool_decide (s = EmptyString))
  | NamesArray _ => true
  end.

Definition names_string (n : prop_names) : string :=
  match n with
  | NamesString s => s
  | NamesArray l => join_blank l
  end.

(** [enyo.Collection.concat(ctor, props)]; [mixin a b] stands for
    [enyo.mixin(enyo.clone(a), b)]. *)
Definition concat
    (mixin : gmap string string → gmap string string → gmap string string)
    (p : proto) (props : kind_props) : proto * kind_props :=
  let '(p, props) :=
    match k_filters props, p_filters p with
    | Some fs, Some pfs =>
        (Proto (Some (mixin pfs fs)) (p_filterProps p),
         KindProps None (k_filterProps props))
    | _, _ => (p, props)
    end in
  match k_filterProps props with
  | Some names =>
      if names_truthy names then
        let props := KindProps (k_filters props)
                       (Some (NamesString (names_string names))) in
        if negb (bool_decide (p_filterProps p = EmptyString)) then
          (Proto (p_filters p)
             (p_filterProps p +:+ " " +:+ names_string names),
           KindProps (k_filters props) None)
        else (p, props)
      else (p, props)
  | None => (p, props)
  end.

End Collection.

(** * Properties *)

Import Collection.

(** ** Vocabulary *)

(** The (old, new) pairs of the length notifications among [evs]. *)
Definition length_notifications (evs : list event) : list (Z * Z) :=
  omap (λ e, match e with EvLength o n => Some (o, n) | _ => None end) evs.

(** The index sets of the add notifications among [evs]. *)
Definition add_notifications (evs : list event) : list (list Z) :=
  omap (λ e, match e with EvAdd l => Some l | _ => None end) evs.

(** The arrays of the reset notifications among [evs]. *)
Definition reset_notifications (evs : list event) : list (list entry) :=
  omap (λ e, match e with EvReset l => Some l | _ => None end) evs.

(** [tracks a ns b]: the notifications [ns] report exactly the changes of
    a value that starts at [a] and ends at [b]: each one starts where the
    previous one ended and reports a real change. *)
Fixpoint tracks (a : Z) (ns : list (Z * Z)) (b : Z) : Prop :=
  match ns with
  | [] => a = b
  | (o, n) :: ns' => o = a ∧ o ≠ n ∧ tracks n ns' b
  end.

(** What a call that takes [s] to [s'] owes to the cached length. *)
Definition length_contract (s s' : collection) : Prop :=
  length s' = len (records s') ∧
  ∃ evs, log s' = log s ++ evs ∧
         tracks (length s) (length_notifications evs) (length s').

(** [notified_once s s']: the call sent one length notification, from the
    old to the new value, if the cached length changed, and none if not. *)
Definition notified_once (s s' : collection) : Prop :=
  ∃ evs, log s' = log s ++ evs ∧
         length_notifications evs =
           if bool_decide (length s = length s') then []
           else [(length s, length s')].

(** The state between two public calls: the cached length is current, no
    filter method is running, and a filtered collection has its undo
    buffer. *)
Definition at_boundary (s : collection) : Prop :=
  length s = len (records s) ∧ silenced s = false ∧ filtering s = false ∧
  (filtered s = true → is_Some (_uRecords s)).

(** [same_view s s']: [s'] differs from [s] at most in the store's heap and
    allocation counter. *)
Definition same_view (s s' : collection) : Prop :=
  records s' = records s ∧ length s' = length s ∧
  filtered s' = filtered s ∧ filtering s' = filtering s ∧
  silenced s' = silenced s ∧ _uRecords s' = _uRecords s ∧
  instanceAllRecords s' = instanceAllRecords s ∧ log s' = log s ∧
  pending s' = pending s ∧ dead s' = dead s.

(** Positions, counted from [j], of the data hashes in [l]. *)
Fixpoint raw_positions (j : Z) (l : list entry) : list Z :=
  match l with
  | [] => []
  | Raw _ :: l' => j :: raw_positions (j + 1) l'
  | _ :: l' => raw_positions (j + 1) l'
  end.

(** The insertion indices [add] reports for [batch] inserted at [i]: those
    of the data hashes its loop visits. *)
Definition reported_indices (i : Z) (batch : list entry) : list Z :=
  (λ j, j + i) <$> raw_positions 0 (visited batch).

(** [materialized b x]: [x] is the entry [b] itself or an instance made
    from the data hash [b]: what [add] stores for an incoming entry and
    what [at] leaves in the slot it reads. *)
Definition materialized (b x : entry) : Prop :=
  x = b ∨ ∃ a a', b = Raw a ∧ x = Rec a'.

(** The object an array element refers to. *)
Definition address (e : entry) : option addr :=
  match e with
  | Absent => None
  | Raw a | Rec a => Some a
  end.

(** Every listed merge key has the same value on [r] and [c]. *)
Definition all_keys_equal (h : gmap addr (gmap string value)) (r c : entry)
    (ks : list string) : bool :=
  forallb (λ k, strict_eq (get h r k) (get h c k)) ks.

(** The primary key of [r] is defined and equal to that of [c]. *)
Definition primary_key_equal (h : gmap addr (gmap string value)) (pk : string)
    (r c : entry) : bool :=
  defined (get h r pk) && strict_eq (get h r pk) (get h c pk).


(** [key_equal h pk mk r c]: the incoming item [r] and the slot [c] are
    equal by key: same primary key value, same value for every declared
    merge key, and at least one key to go by (a defined primary key, or
    declared merge keys starting with a proper name). *)
Definition key_equal (h : gmap addr (gmap string value)) (pk : string)
    (mk : option (list string)) (r c : entry) : Prop :=
  present c = true ∧
  get h r pk = get h c pk ∧
  (∀ ks, mk = Some ks → all_keys_equal h r c ks = true) ∧
  (defined (get h r pk) = true ∨
   ∃ k ks, mk = Some (k :: ks) ∧ k ≠ EmptyString).

(** [overlay base s]: between two filter passes, [base] is the unfiltered
    dataset: it is either the visible array, with no undo buffer, or the
    content of the undo buffer of a filtered collection. *)
Definition overlay (base : list entry) (s : collection) : Prop :=
  filtering s = false ∧ silenced s = false ∧ length s = len (records s) ∧
  ((filtered s = false ∧ _uRecords s = None ∧ records s = base) ∨
   (filtered s = true ∧ _uRecords s = Some base ∧ base ≠ [])).

(** How often a run of a filter method resets the collection to an array:
    through its own calls and through the array it returns. *)
Fixpoint own_array_resets (cs : list filter_call) : nat :=
  match cs with
  | [] => 0
  | Resets (Some _) :: cs' => S (own_array_resets cs')
  | _ :: cs' => own_array_resets cs'
  end.

Definition array_resets (r : filter_run) : nat :=
  (own_array_resets (calls r) +
   match returned r with ReturnsArray _ => 1 | _ => 0 end)%nat.

(** [in_pass base s]: inside a filter pass, [base] is the unfiltered
    dataset: the visible array while no snapshot exists, the content of
    the undo buffer from then on. *)
Definition in_pass (base : list entry) (s : collection) : Prop :=
  filtering s = true ∧ length s = len (records s) ∧ base ≠ [] ∧
  match _uRecords s with
  | Some u => u = base
  | None => filtered s = false ∧ records s = base
  end.

(** The array resets a pass can still take without touching its snapshot:
    none once a pass that began unfiltered has taken one. *)
Definition room (s : collection) : nat :=
  match filtered s, _uRecords s with
  | false, Some _ => 0
  | _, _ => 1
  end.

(** [sound s]: the cached length is current and a filtered collection has
    its undo buffer. *)
Definition sound (s : collection) : Prop :=
  length s = len (records s) ∧ (filtered s = true → is_Some (_uRecords s)).

(** [stuck s]: the state a filter method that raised leaves behind: sound,
    but silenced and marked as filtering. *)
Definition stuck (s : collection) : Prop :=
  sound s ∧ silenced s = true ∧ filtering s = true.

(** [keeps_flags s s']: [s'] is sound, silenced and filtering as [s] is,
    and no notification went out if [s] is silenced. *)
Definition keeps_flags (s s' : collection) : Prop :=
  sound s' ∧ silenced s' = silenced s ∧ filtering s' = filtering s ∧
  (silenced s = true → log s' = log s).

(** A member that raises when it is called as a filter method. *)
Definition raises (m : option member) : bool :=
  match m with
  | Some (Raising _ _) | Some NotCallable => true
  | _ => false
  end.

(** The test at the head of [_filterContent]. *)
Definition pass_runs (s : collection) : bool :=
  negb (filtering s) && (negb (length s =? 0) || buffer_nonempty s).

(** One public operation, or one event the collection listens to: the
    mutators and readers, a filter pass with whatever the active filter
    leads to, a change of the active filter or of a filter property, the
    destruction of a record, and a change of the attributes of records
    in the store (by the application, or by a [merge] that stops half
    way). *)
Inductive step : collection → collection → Prop :=
  | step_add batch i s : step s (state_of (add batch i s))
  | step_remove rec s : step s (state_of (remove rec s))
  | step_removeAll s : step s (state_of (removeAll s))
  | step_destroyAll s : step s (state_of (destroyAll s))
  | step_reset arg s : step s (state_of (reset arg s))
  | step_merge batch s : step s (state_of (merge batch s))
  | step_at i s : step s (at_ i s).2
  | step_map (fn : entry → Z → unit) s : step s (map fn s).2
  | step_filter fn s : step s (filter fn s).2
  | step_createRecord attrs i s : step s (state_of (createRecord attrs i s))
  | step_pass m s : step s (state_of (filter_pass m s))
  | step_trigger_filter k s : step s (state_of (trigger_filter k s))
  | step_activeFilterChanged k s : step s (state_of (_activeFilterChanged k s))
  | step_recordDestroyed rec s : step s (state_of (_recordDestroyed rec s))
  | step_fetch o s : step s (state_of (fetch o s))
  | step_didFetch o res s : step s (state_of (didFetch o res s))
  | step_store h s : step s (set_heap h s).

(** The states a constructed collection goes through. *)
Inductive reachable : collection → Prop :=
  | reachable_create data eager pk mk h n :
      reachable (create data eager pk mk h n)
  | reachable_step s s' : reachable s → step s s' → reachable s'.

(** The indices at which [remove] finds the records of a batch in the
    array [recs], in the order of the batch. *)
Definition found_indices (recs rec : list entry) : list Z :=
  List.filter (λ i, -1 <? i) ((λ r, enyo_indexOf r recs) <$> visited rec).

(** [ascending_from b l]: [l] is strictly ascending and above [b]. *)
Fixpoint ascending_from (b : Z) (l : list Z) : bool :=
  match l with
  | [] => true
  | i :: l' => (b <? i) && ascending_from i l'
  end.

Definition ascending (l : list Z) : bool := ascending_from (-1) l.

(** [l] without the elements at the positions [idxs], the first element
    of [l] counting as position [j]. *)
Fixpoint without_from (j : Z) (idxs : list Z) (l : list entry) : list entry :=
  match l with
  | [] => []
  | e :: l' =>
      if bool_decide (j ∈ idxs) then without_from (j + 1) idxs l'
      else e :: without_from (j + 1) idxs l'
  end.

Definition without (idxs : list Z) (l : list entry) : list entry :=
  without_from 0 idxs l.

(** A property name that survives [join(" ")] and [split(" ")]: not
    empty and without a blank. *)
Fixpoint blankless (s : string) : bool :=
  match s with
  | EmptyString => true
  | String c s' => negb (Ascii.eqb c blank) && blankless s'
  end.

Definition proper_name (s : string) : bool :=
  negb (bool_decide (s = EmptyString)) && blankless s.

(** ** Example inputs *)

Definition recA := Raw 1%nat.
Definition recB := Raw 2%nat.
Definition recC := Raw 3%nat.
Definition recD := Raw 4%nat.

(** The collection [A, B, C, D] of the removal scenario. *)
Definition abcd : collection :=
  create [recA; recB; recC; recD] false "id" None ∅ 10%nat.

(** The collection [A]. *)
Definition only_a : collection := create [recA] false "id" None ∅ 10%nat.

(** A collection with an absent slot between two records. *)
Definition holey : collection :=
  create [recA; Absent; recB] false "id" None ∅ 10%nat.

(** A collection of two instances. *)
Definition instances : collection :=
  create [Rec 5%nat; Rec 6%nat] false "id" None ∅ 10%nat.

(** A data hash marked destroyed, for an eager and for a lazy collection. *)
Definition destroyed_hash : gmap addr (gmap string value) :=
  {[ 7%nat := {[ "destroyed" := VBool true ]} ]}.

Definition eager_empty : collection :=
  create [] true "id" None destroyed_hash 10%nat.

Definition lazy_empty : collection :=
  create [] false "id" None destroyed_hash 10%nat.



(** Two records with the merge key "n" declared, an incoming hash that has
    the primary key of the second one, and an incoming hash that shares no
    key with either but carries, under "n", the primary key value of the
    second one. *)
Definition paired_heap : gmap addr (gmap string value) :=
  {[ 1%nat := {[ "id" := VNum 1; "n" := VStr "a" ]};
     2%nat := {[ "id" := VNum 2; "n" := VStr "b" ]};
     23%nat := {[ "id" := VNum 2; "n" := VStr "z" ]};
     24%nat := {[ "id" := VNum 5; "n" := VNum 2 ]} ]}.

Definition paired : collection :=
  create [recA; recB] false "id" (Some ["n"]) paired_heap 30%nat.

(** The collection of the merge scenario, with two data hashes equal by
    key to its records. *)
Definition two_heap : gmap addr (gmap string value) :=
  {[ 1%nat := {[ "id" := VNum 1; "v" := VStr "a" ]};
     2%nat := {[ "id" := VNum 2; "v" := VStr "b" ]};
     21%nat := {[ "id" := VNum 1; "v" := VStr "z" ]};
     22%nat := {[ "id" := VNum 2 ]} ]}.

Definition two : collection :=
  create [recA; recB] false "id" None two_heap 30%nat.

(** A filter method that keeps B. *)
Definition keep_b : collection → filter_run :=
  λ _, FilterRun [] (ReturnsArray [recB]).

(** A filter method that narrows in two steps: [this.reset([C])] and then
    [return [B]]. *)
Definition narrow_twice : collection → filter_run :=
  λ _, FilterRun [Resets (Some [recC])] (ReturnsArray [recB]).

(** A filter method that looks at the whole dataset again, reads the
    first two records and keeps the second one, doing the reset itself. *)
Definition keep_second : collection → filter_run :=
  λ s, FilterRun [Resets None; Reads 0; Reads 1;
                  Resets (Some [Rec (S (next s))])] ReturnsTrue.

(** An instance followed by two data hashes. *)
Definition mixed : collection :=
  create [Rec 5%nat; recA; recB] false "id" None ∅ 10%nat.

(** The collection [A, B, C, D] under the filter that keeps B. *)
Definition abcd_filtered : collection := state_of (apply_filters [keep_b] abcd).

(** No active filter. *)
Definition no_filter : filter_setup :=
  FilterSetup EmptyString ∅ {["constructor"; "toString"]} ∅.

(** The active filter is "constructor", a name that the [filters] object
    has only by inheritance. *)
Definition inherited_name : filter_setup :=
  FilterSetup "constructor" ∅ {["constructor"; "toString"]} ∅.

(** The active filter "big" names the property "length" of the
    collection, a number. *)
Definition length_as_filter : filter_setup :=
  FilterSetup "big" {["big" := "length"]} {["constructor"; "toString"]}
    {["length" := NotCallable]}.

(** ** Facts about the vocabulary *)

Lemma tracks_app a ns1 b ns2 c :
  tracks a ns1 b → tracks b ns2 c → tracks a (ns1 ++ ns2) c.
Proof.
  revert a. induction ns1 as [|[o n] ns1 IH]; simpl; intros a H1 H2.
  - by subst.
  - destruct H1 as (-> & Hne & H1). eauto.
Qed.

Lemma length_notifications_app e1 e2 :
  length_notifications (e1 ++ e2) = length_notifications e1 ++ length_notifications e2.
Proof. apply omap_app. Qed.

Lemma length_contract_refl s : length s = len (records s) → length_contract s s.
Proof.
  intros H. split; [done|]. exists []. by rewrite app_nil_r.
Qed.

Lemma length_contract_trans s1 s2 s3 :
  length_contract s1 s2 → length_contract s2 s3 → length_contract s1 s3.
Proof.
  intros (_ & e1 & L1 & T1) (H & e2 & L2 & T2). split; [done|].
  exists (e1 ++ e2). split.
  - by rewrite L2, L1, app_assoc.
  - rewrite length_notifications_app. by eapply tracks_app.
Qed.

Lemma notified_once_contract s s' :
  length s' = len (records s') → notified_once s s' → length_contract s s'.
Proof.
  intros Hl (evs & Hlog & Hn). split; [done|]. exists evs. split; [done|].
  rewrite Hn. by case_bool_decide.
Qed.

Lemma same_view_refl s : same_view s s.
Proof. by repeat split. Qed.

Lemma same_view_trans s1 s2 s3 : same_view s1 s2 → same_view s2 s3 → same_view s1 s3.
Proof.
  unfold same_view. intros H1 H2.
  destruct_and!. repeat split; congruence.
Qed.

Lemma store_createRecord_view attrs s : same_view s (store_createRecord attrs s).2.
Proof. by repeat split. Qed.

Lemma add_scan_view batch : ∀ j i s, same_view s (state_of (add_scan j i batch s)).
Proof.
  induction batch as [|e batch IH]; intros j i s; simpl.
  - apply same_view_refl.
  - destruct e as [|a|a]; simpl; [apply same_view_refl| |].
    + destruct (instanceAllRecords s) eqn:He; [|destruct (truthy _)]; simpl;
        [|apply same_view_refl|].
      all: match goal with
           | |- context [add_scan ?j' ?i' ?b ?s1] =>
               pose proof (IH j' i' s1) as H; destruct (add_scan j' i' b s1)
           end; simpl in *; try done.
      all: (eapply same_view_trans; [|exact H]); by repeat split.
    + pose proof (IH (j + 1) i s) as H.
      by destruct (add_scan _ _ _ _).
Qed.

(** ** Notifications as log updates *)

Lemma emit_eq e s :
  emit e s = set_log (log s ++ (if silenced s then [] else [e])) s.
Proof.
  unfold emit. destruct (silenced s) eqn:Hs; [|done].
  destruct s; simpl. by rewrite app_nil_r.
Qed.

Lemma trigger_eq e s :
  triggerEvent e s = set_log (log s ++ (if silenced s then [] else [e])) s.
Proof. apply emit_eq. Qed.

Lemma notify_eq l s :
  notify_if_changed l s =
  set_log (log s ++ (if bool_decide (l = length s) then []
                     else if silenced s then []
                     else [EvLength l (length s)])) s.
Proof.
  unfold notify_if_changed, notifyObservers_length.
  case_bool_decide; [|apply emit_eq].
  destruct s; simpl. by rewrite app_nil_r.
Qed.

(** Turns the notifications of the goal into log updates and computes the
    fields; [Hs] says that the collection is not silenced. *)
Ltac loud Hs :=
  rewrite ?notify_eq, ?trigger_eq; simpl; rewrite ?Hs; simpl.

(** ** reset and the guard of the mutators *)

(** Gives the events a goal [log s' = log s ++ ?evs ∧ _] asks for. *)
Ltac events :=
  first [ eexists; split; [rewrite <- ?app_assoc; reflexivity|]
        | exists []; split; [by rewrite app_nil_r|] ];
  simpl.

(** The four ways [reset] goes, with the state it leaves. *)
Lemma reset_array_snapshot rs s :
  filtering s = true → filtered s = false →
  reset (Some rs) s =
  Done tt (set_log (log s ++ (if bool_decide (len (records s) = len rs) then []
                              else if silenced s then []
                              else [EvLength (len (records s)) (len rs)])
                          ++ (if silenced s then [] else [EvReset rs]))
            (set_length (len rs)
               (set_records rs (set_uRecords (Some (records s)) s)))).
Proof.
  intros Hg Hf. unfold reset. rewrite Hg, Hf. simpl.
  rewrite notify_eq, trigger_eq. simpl. by rewrite app_assoc.
Qed.

Lemma reset_array_plain rs s :
  filtering s && negb (filtered s) = false →
  reset (Some rs) s =
  Done tt (set_log (log s ++ (if bool_decide (len (records s) = len rs) then []
                              else if silenced s then []
                              else [EvLength (len (records s)) (len rs)])
                          ++ (if silenced s then [] else [EvReset rs]))
            (set_length (len rs) (set_records rs s))).
Proof.
  intros Hg. unfold reset. rewrite Hg.
  rewrite notify_eq, trigger_eq. simpl. by rewrite app_assoc.
Qed.

Lemma reset_restore u s :
  filtered s = true → _uRecords s = Some u →
  reset None s =
  Done tt (set_log (log s ++ (if bool_decide (len (records s) = len u) then []
                              else if silenced s then []
                              else [EvLength (len (records s)) (len u)])
                          ++ (if silenced s then [] else [EvReset u]))
            (set_filtered false
               (set_length (len u) (set_records u (set_uRecords None s))))).
Proof.
  intros Hf Hu. unfold reset. rewrite Hf, Hu.
  rewrite notify_eq, trigger_eq. simpl. by rewrite app_assoc.
Qed.

Lemma reset_idle s : filtered s = false → reset None s = Done tt s.
Proof. intros Hf. unfold reset. by rewrite Hf. Qed.

Lemma reset_contract arg s :
  at_boundary s →
  ∃ s', reset arg s = Done tt s' ∧ at_boundary s' ∧ notified_once s s' ∧
        heap s' = heap s ∧ instanceAllRecords s' = instanceAllRecords s ∧
        pending s' = pending s ∧ dead s' = dead s ∧
        (arg = None → filtered s' = false) ∧
        ∃ evs, log s' = log s ++ evs ∧ add_notifications evs = [].
Proof.
  intros (Hl & Hs & Hf & Hu). destruct arg as [rs|].
  - rewrite reset_array_plain by (by rewrite Hf).
    eexists. split; [reflexivity|].
    unfold at_boundary, notified_once. simpl. rewrite ?Hs, ?Hf, <- ?Hl.
    case_bool_decide as Hc; repeat split; try done; events; done.
  - destruct (filtered s) eqn:Hfl.
    + destruct (Hu eq_refl) as [u Hbuf]. rewrite (reset_restore u) by done.
      eexists. split; [reflexivity|].
      unfold at_boundary, notified_once. simpl. rewrite ?Hs, ?Hf, <- ?Hl.
      case_bool_decide as Hc; repeat split; try done; events; done.
    + rewrite reset_idle by done.
      exists s. unfold notified_once. rewrite bool_decide_eq_true_2 by done.
      repeat split; try done; try events; try done.
      by rewrite Hfl.
Qed.

Lemma unfilter_contract s :
  at_boundary s →
  ∃ s', unfilter s = Done tt s' ∧ at_boundary s' ∧ notified_once s s' ∧
        filtered s' = false ∧
        heap s' = heap s ∧ instanceAllRecords s' = instanceAllRecords s ∧
        pending s' = pending s ∧ dead s' = dead s ∧
        ∃ evs, log s' = log s ++ evs ∧ add_notifications evs = [].
Proof.
  intros Hb. unfold unfilter. destruct (filtered s) eqn:Hfl.
  - destruct (reset_contract None s Hb)
      as (s' & Hr & Hb' & Hn & Hh & Hi & Hp & Hd & Hf & He).
    exists s'. split; [done|]. split; [done|]. split; [done|].
    split; [by apply Hf|]. done.
  - exists s. destruct Hb as (? & ? & ? & ?).
    unfold notified_once. rewrite bool_decide_eq_true_2 by done.
    repeat split; try done; events; done.
Qed.

(** ** The loop of add *)

Lemma normalize_index_range i n : 0 ≤ n → 0 ≤ normalize_index i n ≤ n.
Proof.
  intros Hn. unfold normalize_index. destruct i as [i|]; [|lia].
  repeat case_match; lia.
Qed.

Lemma normalize_index_inside i n : 1 ≤ i ≤ n → normalize_index (Some i) n = i.
Proof. intros Hi. unfold normalize_index. repeat case_match; lia. Qed.

Lemma normalize_index_low i n : i ≤ 0 → normalize_index (Some i) n = n.
Proof. intros Hi. unfold normalize_index. repeat case_match; lia. Qed.

Lemma add_scan_indices batch : ∀ j i s p s',
  add_scan j i batch s = Done p s' →
  p.2 = (λ k, k + i) <$> raw_positions j (visited batch).
Proof.
  induction batch as [|e batch IH]; intros j i s p s' H; simpl in H.
  - by inversion H.
  - destruct e as [|a|a]; simpl in *.
    + by inversion H.
    + destruct (instanceAllRecords s); [|destruct (truthy _); [done|]].
      all: match type of H with
           | context [add_scan ?j' ?i' ?b ?s1] =>
               destruct (add_scan j' i' b s1) as [q s2|] eqn:E; [|done]
           end; apply IH in E; simpl in H; inversion H; subst; simpl;
           by rewrite E.
    + destruct (add_scan _ _ _ _) as [q s2|] eqn:E; [|done].
      apply IH in E. simpl in H. by inversion H; subst.
Qed.

Lemma add_scan_throws pre : ∀ a post j i s,
  instanceAllRecords s = false →
  Forall (λ e, present e = true) pre →
  truthy (prop (heap s) a "destroyed") = true →
  add_scan j i (pre ++ Raw a :: post) s = Thrown InvalidRecordState s.
Proof.
  induction pre as [|e pre IH]; intros a post j i s He Hp Hd; simpl.
  - by rewrite He, Hd.
  - inversion Hp as [|? ? Hpe Hp']; subst.
    destruct e as [|b|b]; [done| |].
    + rewrite He. destruct (truthy (prop (heap s) b "destroyed")); [done|].
      by rewrite (IH a post (j + 1) i s).
    + by rewrite (IH a post (j + 1) i s).
Qed.

Lemma add_scan_error batch : ∀ j i s e s',
  add_scan j i batch s = Thrown e s' → e = InvalidRecordState.
Proof.
  induction batch as [|x batch IH]; intros j i s e s' H; simpl in H; [done|].
  destruct x as [|a|a]; [done| |].
  - destruct (instanceAllRecords s); [|destruct (truthy _); [by inversion H|]].
    all: match type of H with
         | context [add_scan ?j' ?i' ?b ?s1] =>
             destruct (add_scan j' i' b s1) as [q s2|] eqn:E; [done|]
         end; apply IH in E; simpl in H; by inversion H; subst.
  - destruct (add_scan _ _ _ _) as [q s2|] eqn:E; [done|].
    apply IH in E. simpl in H. by inversion H; subst.
Qed.

(** The shape of every run of [add] from a state between public calls. *)
Lemma add_spec batch i s :
  at_boundary s →
  ∃ s1, unfilter s = Done tt s1 ∧
    match add batch i s with
    | Thrown e s' => e = InvalidRecordState ∧ same_view s1 s'
    | Done idx s' =>
        idx = reported_indices (normalize_index i (length s1)) batch ∧
        at_boundary s' ∧ notified_once s1 s' ∧
        ∃ evs, log s' = log s1 ++ evs ∧
               add_notifications evs = match idx with [] => [] | _ => [idx] end
    end.
Proof.
  intros Hb.
  destruct (unfilter_contract s Hb) as (s1 & Hu & Hb1 & _ & Hf1 & _).
  exists s1. split; [done|]. unfold add. rewrite Hu. simpl.
  destruct Hb1 as (Hl1 & Hs1 & Hg1 & Hbuf1).
  destruct batch as [|e batch].
  - unfold notified_once. rewrite bool_decide_eq_true_2 by done.
    repeat split; try done; events; done.
  - set (i0 := normalize_index i (length s1)).
    pose proof (add_scan_view (e :: batch) 0 i0 s1) as Hv.
    pose proof (add_scan_indices (e :: batch) 0 i0 s1) as Hi.
    pose proof (add_scan_error (e :: batch) 0 i0 s1) as He.
    destruct (add_scan 0 i0 (e :: batch) s1) as [p s2|err s2]; simpl in *.
    + destruct Hv as (Hr & Hl & Hfl & Hfg & Hsi & Hub & _ & Hlog & _).
      rewrite <- Hsi in Hs1. specialize (Hi p s2 eq_refl).
      assert (p.2 = reported_indices i0 (e :: batch)) as Hidx by done.
      clear Hi.
      destruct (p.2) as [|k ks] eqn:Hp2; loud Hs1.
      all: unfold at_boundary, notified_once; simpl.
      all: rewrite ?Hfg, ?Hfl, ?Hub, ?Hlog, ?Hl.
      all: split; [done|]; split; [repeat split; first [exact Hbuf1|done]|];
        split.
      all: case_bool_decide; events; done.
    + split; [by eapply He|done].
Qed.

Lemma unfilter_store s s1 :
  unfilter s = Done tt s1 →
  heap s1 = heap s ∧ instanceAllRecords s1 = instanceAllRecords s.
Proof.
  unfold unfilter, reset. destruct (filtered s); [|by inversion 1].
  destruct (_uRecords s) as [u|]; [|done].
  intros H. inversion H; subst; clear H.
  by rewrite notify_eq, trigger_eq.
Qed.

Lemma add_scan_entries batch : ∀ j i s p s',
  add_scan j i batch s = Done p s' →
  Forall2 materialized batch p.1 ∧
  (instanceAllRecords s = false → p.1 = batch).
Proof.
  induction batch as [|e batch IH]; intros j i s p s' H; simpl in H.
  - inversion H. by split; [constructor|].
  - destruct e as [|a|a]; simpl in *.
    + inversion H. split; [|done]. simpl.
      apply Forall2_same_length_lookup_2; [done|].
      intros k x y Hx Hy. left. congruence.
    + destruct (instanceAllRecords s) eqn:He;
        [|destruct (truthy (prop (heap s) a "destroyed")); [done|]].
      * destruct (add_scan _ _ _ _) as [q s2|] eqn:E; [|done].
        apply IH in E as [E _]. simpl in H. inversion H; subst. simpl.
        split; [|done]. constructor; [|done]. right. by eexists _, _.
      * destruct (add_scan _ _ _ _) as [q s2|] eqn:E; [|done].
        apply IH in E as [E1 E2]. simpl in H. inversion H; subst. simpl.
        split; [constructor; [by left|done]|]. intros _. by rewrite E2.
    + destruct (add_scan _ _ _ _) as [q s2|] eqn:E; [|done].
      apply IH in E as [E1 E2]. simpl in H. inversion H; subst. simpl.
      split; [constructor; [by left|done]|]. intros Hi. by rewrite E2.
Qed.

Lemma splice_insert {A} (i : Z) (items l : list A) :
  0 ≤ i ≤ len l →
  splice i 0 items l = take (Z.to_nat i) l ++ items ++ drop (Z.to_nat i) l.
Proof.
  intros Hi. unfold splice.
  replace (i <? 0) with false by lia.
  rewrite Z.min_l by lia. simpl. rewrite Z.max_id.
  rewrite Z.min_l by lia. by rewrite Z.add_0_r.
Qed.

(** ** The run of remove *)

Lemma remove_spec rec s :
  at_boundary s →
  ∃ s1, unfilter s = Done tt s1 ∧
    let p := remove_plan (records s1) rec in
    ∃ s', remove rec s = Done (d p) s' ∧
      records s' = remove_indices (rr p) (records s1) ∧
      at_boundary s' ∧ notified_once s1 s' ∧
      heap s' = heap s1 ∧ pending s' = pending s1 ∧ dead s' = dead s1 ∧
      _destroyAll s' = _destroyAll s1.
Proof.
  intros Hb.
  destruct (unfilter_contract s Hb) as (s1 & Hu & Hb1 & _ & Hf1 & _).
  exists s1. split; [done|]. simpl. unfold remove. rewrite Hu. simpl.
  eexists. split; [reflexivity|].
  destruct Hb1 as (Hl1 & Hs1 & Hg1 & Hbuf1).
  set (p := remove_plan (records s1) rec).
  destruct (rr p) as [|k ks] eqn:Hrr; loud Hs1.
  all: unfold at_boundary, notified_once; simpl.
  all: split; [done|]; split; [done|]; split; [|done].
  all: case_bool_decide; events; done.
Qed.

(** ** The insertion index, the cached length and the reported indices *)

(** C2. The index normalisation of [add] turns the index 0 into the
    length: on the collection [A], [add([B], 0)] appends B and reports
    index 1; the batch is not put in front. *)
Theorem add_at_index_zero_appends :
  (∀ n, normalize_index (Some 0) n = n) ∧
  ∃ s', add [recB] (Some 0) only_a = Done [1] s' ∧
        records s' = [recA; recB].
Proof.
  split; [intros n; by apply normalize_index_low|].
  eexists. split; reflexivity.
Qed.

(** The same happens when [createRecord] is asked to insert at index 0. *)
Lemma createRecord_at_zero_appends :
  ∃ s', createRecord ∅ (Some 0) only_a = Done (Rec 10%nat) s' ∧
        records s' = [recA; Rec 10%nat].
Proof. eexists. split; reflexivity. Qed.

(** What [add] leaves behind, whether it returns or throws. *)
Lemma add_outcome batch i s :
  at_boundary s →
  ∃ s1, unfilter s = Done tt s1 ∧
        at_boundary (state_of (add batch i s)) ∧
        notified_once s1 (state_of (add batch i s)).
Proof.
  intros Hb.
  destruct (unfilter_contract s Hb) as (s1 & Hu & Hb1 & _).
  destruct (add_spec batch i s Hb) as (s1' & Hu' & H).
  rewrite Hu in Hu'. inversion Hu'; subst s1'. clear Hu'.
  exists s1. split; [done|].
  destruct (add batch i s) as [idx s'|e s']; simpl.
  - by destruct H as (_ & Hb' & Hn' & _).
  - destruct H as (_ & Hr & Hl & Hfl & Hfg & Hsi & Hub & _ & Hlog & _).
    destruct Hb1 as (Hl1 & Hs1 & Hg1 & Hbuf1). split.
    + repeat split; try congruence. by rewrite Hfl, Hub.
    + exists []. rewrite app_nil_r. split; [done|].
      by rewrite bool_decide_eq_true_2.
Qed.

Lemma unfilter_unfiltered s s1 :
  filtered s = false → unfilter s = Done tt s1 → s1 = s.
Proof. unfold unfilter. intros ->. by inversion 1. Qed.

(** C5. Between public calls, [add], [remove] and [reset] each leave the
    cached length equal to the length of the records array, also when
    [add] throws, and their length notifications report exactly the
    changes of that value.  A call on an unfiltered collection, and every
    [reset], sends one notification carrying the old and the new value if
    the value changed and none if it did not; [add] and [remove] on a
    filtered collection first restore the unfiltered records and then
    change them, and each of the two steps is notified in that way. *)
Theorem length_follows_records (s : collection) :
  at_boundary s →
  (∀ batch i, let s' := state_of (add batch i s) in
     at_boundary s' ∧ length_contract s s' ∧
     (filtered s = false → notified_once s s')) ∧
  (∀ rec, let s' := state_of (remove rec s) in
     at_boundary s' ∧ length_contract s s' ∧
     (filtered s = false → notified_once s s')) ∧
  (∀ arg, let s' := state_of (reset arg s) in
     at_boundary s' ∧ length_contract s s' ∧ notified_once s s').
Proof.
  intros Hb.
  destruct (unfilter_contract s Hb) as (s1 & Hu & Hb1 & Hn1 & _).
  assert (length_contract s s1) as Hc1.
  { apply notified_once_contract; [apply Hb1|done]. }
  split; [|split].
  - intros batch i.
    destruct (add_outcome batch i s Hb) as (s1' & Hu' & Hb' & Hn').
    rewrite Hu in Hu'. inversion Hu'; subst s1'. clear Hu'.
    simpl. split; [done|]. split.
    + eapply length_contract_trans; [done|].
      apply notified_once_contract; [apply Hb'|done].
    + intros Hf. by rewrite (unfilter_unfiltered s s1 Hf Hu) in Hn'.
  - intros rec.
    destruct (remove_spec rec s Hb) as (s1' & Hu' & s' & Hr & _ & Hb' & Hn' & _).
    rewrite Hu in Hu'. inversion Hu'; subst s1'. clear Hu'.
    rewrite Hr. simpl. split; [done|]. split.
    + eapply length_contract_trans; [done|].
      apply notified_once_contract; [apply Hb'|done].
    + intros Hf. by rewrite (unfilter_unfiltered s s1 Hf Hu) in Hn'.
  - intros arg.
    destruct (reset_contract arg s Hb) as (s' & Hr & Hb' & Hn' & _).
    rewrite Hr. simpl. split; [done|]. split; [|done].
    apply notified_once_contract; [apply Hb'|done].
Qed.

Lemma length_follows_records_witness :
  at_boundary abcd ∧
  (∀ batch i, let s' := state_of (add batch i abcd) in
     at_boundary s' ∧ length_contract abcd s' ∧
     (filtered abcd = false → notified_once abcd s')) ∧
  (∀ rec, let s' := state_of (remove rec abcd) in
     at_boundary s' ∧ length_contract abcd s' ∧
     (filtered abcd = false → notified_once abcd s')) ∧
  (∀ arg, let s' := state_of (reset arg abcd) in
     at_boundary s' ∧ length_contract abcd s' ∧ notified_once abcd s').
Proof.
  assert (at_boundary abcd) as H.
  { split; [reflexivity|]. split; [reflexivity|]. split; [reflexivity|].
    simpl. discriminate. }
  split; [exact H|]. exact (length_follows_records abcd H).
Defined.

(** C6 as stated fails: a collection that instantiates all records takes
    a data hash marked destroyed without throwing. *)
Lemma add_eager_takes_destroyed_hash :
  truthy (prop (heap eager_empty) 7%nat "destroyed") = true ∧
  ∃ idx s', add [Raw 7%nat] None eager_empty = Done idx s'.
Proof. split; [reflexivity|]. eexists _, _. reflexivity. Qed.

(** C6, amended. On a collection that does not instantiate all records,
    [add] throws as soon as its loop reaches a data hash marked destroyed,
    that is, when no absent entry precedes the hash in the batch; the
    throw leaves the collection as it is after the unfiltering guard:
    nothing is inserted and nothing is notified. *)
Theorem add_rejects_destroyed_hash (s s1 : collection) (pre post : list entry)
    (a : addr) (i : option Z) :
  instanceAllRecords s = false →
  unfilter s = Done tt s1 →
  Forall (λ e, present e = true) pre →
  truthy (prop (heap s) a "destroyed") = true →
  add (pre ++ Raw a :: post) i s = Thrown InvalidRecordState s1.
Proof.
  intros He Hu Hp Hd. destruct (unfilter_store s s1 Hu) as (Hh & Hi).
  unfold add. rewrite Hu. simpl.
  rewrite add_scan_throws; try done; try congruence.
  by destruct pre.
Qed.

Lemma add_rejects_destroyed_hash_witness :
  add ([Raw 3%nat] ++ Raw 7%nat :: [Raw 4%nat]) (Some 0) lazy_empty
  = Thrown InvalidRecordState lazy_empty.
Proof.
  apply (add_rejects_destroyed_hash lazy_empty lazy_empty [Raw 3%nat]
           [Raw 4%nat] 7%nat (Some 0)).
  - reflexivity.
  - reflexivity.
  - repeat constructor.
  - reflexivity.
Defined.

(** C8 as stated fails: a batch that starts with an absent entry inserts
    its data hash but reports no index and sends no add notification. *)
Lemma add_after_absent_entry_is_silent :
  ∃ s', add [Absent; recA] None lazy_empty = Done [] s' ∧
        records s' = [Absent; recA] ∧
        add_notifications (log s') = [].
Proof. eexists. repeat split. Qed.

(** C8, amended. Between public calls, an [add] that returns inserts the
    whole batch at the normalised index and reports, as its return value
    and in one add notification (sent iff the set is not empty), the
    insertion indices of the entries that are not instances among those
    its loop visits, that is, those before the first absent entry of the
    batch; instances and every entry from the first absent one on are
    inserted without being reported. *)
Theorem add_reports_visited_hashes (s s1 s' : collection) (batch : list entry)
    (i : option Z) (idx : list Z) :
  at_boundary s →
  unfilter s = Done tt s1 →
  add batch i s = Done idx s' →
  let i0 := normalize_index i (length s1) in
  idx = reported_indices i0 batch ∧
  (∃ evs, log s' = log s ++ evs ∧
          add_notifications evs = match idx with [] => [] | _ => [idx] end) ∧
  ∃ inserted, Forall2 materialized batch inserted ∧
    (instanceAllRecords s = false → inserted = batch) ∧
    records s' = take (Z.to_nat i0) (records s1) ++ inserted
                 ++ drop (Z.to_nat i0) (records s1).
Proof.
  intros Hb Hu Ha i0.
  destruct (unfilter_store s s1 Hu) as (_ & Hia).
  destruct (add_spec batch i s Hb) as (s1' & Hu' & H).
  rewrite Hu in Hu'. inversion Hu'; subst s1'. clear Hu'.
  destruct (unfilter_contract s Hb) as (s1' & Hu' & Hb1 & _ & _ & _ & _ & _ & _ & evs0 & Hl0 & Hn0).
  rewrite Hu in Hu'. inversion Hu'; subst s1'. clear Hu'.
  pose proof Ha as Ha'. rewrite Ha in H.
  destruct H as (Hidx & _ & _ & evs & Hlog & Hn).
  split; [done|]. split.
  - exists (evs0 ++ evs). split; [by rewrite Hlog, Hl0, app_assoc|].
    unfold add_notifications in *. by rewrite omap_app, Hn0, Hn.
  - unfold add in Ha'. rewrite Hu in Ha'. simpl in Ha'.
    destruct batch as [|e batch].
    + inversion Ha'; subst. exists []. split; [constructor|].
      split; [done|]. simpl. by rewrite take_drop.
    + fold i0 in Ha'.
      pose proof (add_scan_view (e :: batch) 0 i0 s1) as Hv.
      destruct (add_scan 0 i0 (e :: batch) s1) as [p s2|] eqn:E; [|done].
      simpl in Ha', Hv. apply add_scan_entries in E as [E1 E2].
      exists p.1. split; [done|]. split; [by rewrite <- Hia|].
      destruct Hv as (Hr & _). destruct Hb1 as (Hl1 & Hs1 & _).
      assert (0 ≤ i0 ≤ len (records s1)) as Hrange.
      { rewrite <- Hl1. apply normalize_index_range. rewrite Hl1. unfold len. lia. }
      inversion Ha'; subst idx s'; clear Ha'.
      assert (records s2 = records s1) as Hr' by done.
      destruct (p.2); rewrite ?notify_eq, ?trigger_eq; simpl;
        by rewrite Hr', splice_insert.
Qed.

Lemma add_reports_visited_hashes_witness :
  at_boundary only_a ∧
  let batch := [recB; Rec 5%nat; Absent; recC] in
  let s' := state_of (add batch (Some 1) only_a) in
  let i0 := normalize_index (Some 1) (length only_a) in
  [1] = reported_indices i0 batch ∧
  (∃ evs, log s' = log only_a ++ evs ∧ add_notifications evs = [[1]]) ∧
  ∃ inserted, Forall2 materialized batch inserted ∧
    (instanceAllRecords only_a = false → inserted = batch) ∧
    records s' = take (Z.to_nat i0) (records only_a) ++ inserted
                 ++ drop (Z.to_nat i0) (records only_a).
Proof.
  assert (at_boundary only_a) as H.
  { split; [reflexivity|]. split; [reflexivity|]. split; [reflexivity|].
    simpl. discriminate. }
  split; [exact H|].
  exact (add_reports_visited_hashes only_a only_a _
           [recB; Rec 5%nat; Absent; recC] (Some 1) [1] H eq_refl eq_refl).
Defined.

(** ** remove: the index plan *)

Lemma index_from_found e l : ∀ i k,
  index_from e l i = k → -1 < k → 0 ≤ i →
  i ≤ k ∧ l !! Z.to_nat (k - i) = Some e.
Proof.
  induction l as [|y l IH]; intros i k Hk Hpos Hi; simpl in Hk; [lia|].
  case_bool_decide as Hy.
  - subst. split; [lia|]. by rewrite Z.sub_diag.
  - destruct (IH (i + 1) k Hk Hpos) as (Hle & Hl); [lia|].
    split; [lia|]. replace (Z.to_nat (k - i)) with (S (Z.to_nat (k - (i + 1)))) by lia.
    done.
Qed.

Lemma place_d recs p r :
  d (place recs p r) =
  if bool_decide (-1 < enyo_indexOf r recs)
  then <[enyo_indexOf r recs := r]> (d p) else d p.
Proof.
  unfold place. cbv zeta. case_bool_decide as Hi.
  - rewrite (proj2 (Z.ltb_lt (-1) (enyo_indexOf r recs))) by done.
    by destruct (enyo_indexOf r recs <=? m p), (x p <=? enyo_indexOf r recs).
  - by rewrite (proj2 (Z.ltb_ge (-1) (enyo_indexOf r recs))) by lia.
Qed.

Lemma plan_keys recs l : ∀ p i,
  is_Some (d (foldl (place recs) p l) !! i) ↔
  is_Some (d p !! i) ∨ ∃ r, r ∈ l ∧ enyo_indexOf r recs = i ∧ -1 < i.
Proof.
  induction l as [|r l IH]; intros p i; simpl.
  - split; [by left|]. intros [H|(r & Hr & _)]; [done|]. by apply elem_of_nil in Hr.
  - rewrite IH, place_d. split.
    + intros [H|(r' & Hr' & Hi)].
      * case_bool_decide as Hpos; [|by left].
        rewrite lookup_insert in H. case_decide as Hk; [|by left].
        right. exists r. split; [by left|]. split; [done|lia].
      * right. exists r'. split; [by right|done].
    + intros [H|(r' & Hr' & Hi & Hpos)].
      * left. case_bool_decide; [|done]. rewrite lookup_insert.
        by case_decide.
      * apply elem_of_cons in Hr' as [->|Hr'].
        -- left. rewrite bool_decide_eq_true_2 by lia.
           rewrite lookup_insert. case_decide; [by eexists|done].
        -- right. by exists r'.
Qed.

(** The map [remove] returns has a key for exactly the indices at which
    the records of the batch are found, and holds at each the record
    found there. *)
Lemma remove_plan_keys recs rec i :
  is_Some (d (remove_plan recs rec) !! i) ↔
  ∃ r, r ∈ visited rec ∧ enyo_indexOf r recs = i ∧ -1 < i.
Proof.
  unfold remove_plan. rewrite plan_keys. simpl. rewrite lookup_empty.
  split; [|by right]. intros [[? H]|H]; done.
Qed.

Lemma plan_values recs l : ∀ p,
  (∀ i r, d p !! i = Some r → nth_z recs i = Some r) →
  ∀ i r, d (foldl (place recs) p l) !! i = Some r → nth_z recs i = Some r.
Proof.
  induction l as [|e l IH]; intros p Hp; [done|]. simpl. apply IH.
  intros i r. rewrite place_d. case_bool_decide as Hpos; [|by apply Hp].
  rewrite lookup_insert. case_decide as Hi; [|by apply Hp].
  intros [= <-]. subst i.
  destruct (index_from_found e recs 0 (enyo_indexOf e recs) eq_refl Hpos)
    as (Hle & Hl); [done|].
  unfold nth_z. rewrite (proj2 (Z.ltb_ge _ _)) by lia.
  by rewrite Z.sub_0_r in Hl.
Qed.

Lemma remove_plan_values recs rec i r :
  d (remove_plan recs rec) !! i = Some r → nth_z recs i = Some r.
Proof. apply plan_values. intros j e. simpl. by rewrite lookup_empty. Qed.

(** The scenario of the specification: [remove([B, D])] on [A, B, C, D]. *)
Lemma remove_scenario :
  rr (remove_plan (records abcd) [recB; recD]) = [1; 3] ∧
  ∃ s', remove [recB; recD] abcd = Done {[1 := recB; 3 := recD]} s' ∧
        records s' = [recA; recC] ∧ length s' = 2.
Proof. split; [reflexivity|]. eexists. repeat split. Qed.

(** C1. The positional insertion of [remove] misplaces an index that
    falls between the current minimum and maximum: on [A, B, C, D],
    [remove([B, D, C])] builds the index list [2, 1, 3], which is not
    ascending; removing in reverse then deletes D and B and misses C, so
    the returned map has the three keys 1, 2, 3 while the sequence is
    left as [A, C] with length 2, not 4 - 3. *)
Theorem remove_misplaces_middle_index :
  rr (remove_plan (records abcd) [recB; recD; recC]) = [2; 1; 3] ∧
  ∃ s', remove [recB; recD; recC] abcd
          = Done {[1 := recB; 2 := recC; 3 := recD]} s' ∧
        records s' = [recA; recC] ∧
        length s' = 2 ∧
        length s' ≠ length abcd - 3.
Proof.
  split; [reflexivity|].
  eexists. split; [reflexivity|]. split; [reflexivity|].
  split; [reflexivity|]. by vm_compute.
Qed.

(** A record named twice in the batch puts its index twice on the list,
    and the second removal at that index takes the next record along. *)
Lemma remove_repeated_record :
  rr (remove_plan (records abcd) [recA; recA]) = [0; 0] ∧
  ∃ s', remove [recA; recA] abcd = Done {[0 := recA]} s' ∧
        records s' = [recC; recD].
Proof. split; [reflexivity|]. eexists. repeat split. Qed.

(** ** remove on whole arrays *)



Lemma index_from_first e pre post : ∀ i,
  e ∉ pre → index_from e (pre ++ e :: post) i = i + len pre.
Proof.
  induction pre as [|y pre IH]; intros i Hn; simpl.
  - rewrite bool_decide_eq_true_2 by done. unfold len. simpl. lia.
  - apply not_elem_of_cons in Hn as [Hy Hn].
    rewrite bool_decide_eq_false_2 by done. rewrite IH by done.
    unfold len. simpl. lia.
Qed.

Lemma visited_all l : Forall (λ e, present e = true) l → visited l = l.
Proof.
  induction 1 as [|e l He _ IH]; [done|]. simpl.
  destruct e; [done| |]; by rewrite IH.
Qed.

Lemma nth_z_snoc {A} (l : list A) (e : A) (i : Z) :
  nth_z (l ++ [e]) i = if bool_decide (i = len l) then Some e else nth_z l i.
Proof.
  unfold nth_z, len. destruct (i <? 0) eqn:Hi.
  - case_bool_decide; [lia|done].
  - case_bool_decide as Hc.
    + subst i. rewrite Nat2Z.id. by rewrite lookup_app_r, Nat.sub_diag.
    + destruct (decide (Z.to_nat i < List.length l)%nat).
      * by rewrite lookup_app_l.
      * rewrite !lookup_ge_None_2; [done|lia|].
        rewrite length_app. simpl. lia.
Qed.

Lemma remove_plan_prefix recs :
  NoDup recs → ∀ k, (k ≤ List.length recs)%nat →
  let p := foldl (place recs) (Plan [] ∅ 0 0) (take k recs) in
  rr p = seqZ 0 (Z.of_nat k) ∧ x p = Z.max 0 (Z.of_nat k - 1) ∧ m p = 0 ∧
  ∀ i, d p !! i = nth_z (take k recs) i.
Proof.
  intros Hnd k. induction k as [|k IH]; intros Hk.
  - simpl. repeat split; try done. intros i. rewrite lookup_empty.
    unfold nth_z. by destruct (i <? 0).
  - destruct (lookup_lt_is_Some_2 recs k) as [e He]; [lia|].
    rewrite (take_S_r _ _ _ He), foldl_snoc.
    destruct IH as (Hrr & Hx & Hm & Hd); [lia|].
    set (p := foldl (place recs) (Plan [] ∅ 0 0) (take k recs)) in *.
    assert (enyo_indexOf e recs = Z.of_nat k) as Hi.
    { unfold enyo_indexOf.
      rewrite <- (take_drop_middle recs k e He) at 1.
      rewrite index_from_first.
      - unfold len. rewrite length_take. lia.
      - rewrite <- (take_drop_middle recs k e He) in Hnd.
        apply NoDup_app in Hnd as (_ & Hnd & _).
        intros Hin. apply (Hnd e Hin). by left. }
    assert (len (take k recs) = Z.of_nat k) as Hlen.
    { unfold len. rewrite length_take. lia. }
    unfold place. rewrite Hi.
    replace (-1 <? Z.of_nat k) with true by lia.
    rewrite Hm, Hx. destruct k as [|k].
    + simpl. repeat split; try done.
      intros i. rewrite lookup_insert, lookup_empty. unfold nth_z.
      case_decide as Hc; [by subst i|].
      destruct (i <? 0) eqn:Hneg; [done|].
      destruct (Z.to_nat i) as [|j] eqn:Hj; [lia|done].
    + rewrite (proj2 (Z.leb_gt _ _)) by lia.
      rewrite (proj2 (Z.leb_le _ _)) by lia.
      simpl. rewrite Hrr. repeat split.
      * by rewrite <- seqZ_S.
      * lia.
      * intros i. rewrite lookup_insert, nth_z_snoc, Hlen, Hd.
        case_decide; case_bool_decide; try done; lia.
Qed.

Lemma remove_plan_all recs :
  NoDup recs → Forall (λ e, present e = true) recs →
  let p := remove_plan recs recs in
  rr p = seqZ 0 (len recs) ∧ ∀ i, d p !! i = nth_z recs i.
Proof.
  intros Hnd Hp. unfold remove_plan. rewrite visited_all by done.
  destruct (remove_plan_prefix recs Hnd (List.length recs)) as (Hrr & _ & _ & Hd);
    [done|].
  rewrite firstn_all in *. by split.
Qed.

Lemma remove_indices_all recs : remove_indices (seqZ 0 (len recs)) recs = [].
Proof.
  induction recs as [|e recs IH] using rev_ind; [done|].
  unfold remove_indices, len. rewrite length_app. simpl.
  rewrite Nat.add_1_r, seqZ_S, rev_unit. simpl.
  rewrite Z.add_0_l.
  replace (remove_at (recs ++ [e]) (Z.of_nat (List.length recs))) with recs; [exact IH|].
  unfold remove_at, splice, len. rewrite length_app. simpl.
  rewrite (proj2 (Z.ltb_ge _ _)) by lia.
  rewrite Z.min_l by lia. rewrite Z.min_r by lia.
  rewrite Nat2Z.id, take_app_length.
  rewrite drop_ge; [by rewrite app_nil_r|].
  rewrite length_app. simpl. lia.
Qed.

Lemma removeAll_clears s :
  at_boundary s → filtered s = false →
  NoDup (records s) → Forall (λ e, present e = true) (records s) →
  ∃ dm s', removeAll s = Done dm s' ∧
    records s' = [] ∧ at_boundary s' ∧
    (∀ i, dm !! i = nth_z (records s) i) ∧
    heap s' = heap s ∧ pending s' = pending s ∧ dead s' = dead s.
Proof.
  intros Hb Hf Hnd Hp. unfold removeAll.
  destruct (remove_spec (records s) s Hb) as (s1 & Hu & s' & Hr & Hrec & Hb' & _ & Hh & Hpe & Hde & _).
  unfold unfilter in Hu. rewrite Hf in Hu. inversion Hu; subst s1.
  destruct (remove_plan_all (records s) Hnd Hp) as (Hrr & Hd).
  eexists _, s'. split; [exact Hr|].
  rewrite Hrec, Hrr, remove_indices_all.
  split; [done|]. split; [exact Hb'|]. by repeat split.
Qed.

(** ** Destroying what was removed *)

Lemma destroy_each_instances l : ∀ s,
  Forall (λ e, is_model e = true) l →
  destroy_each l s =
  Done tt (set_dead (list_to_set (omap address l) ∪ dead s) s).
Proof.
  induction l as [|e l IH]; intros s Hl; simpl.
  - rewrite union_empty_l_L. by destruct s.
  - inversion Hl as [|? ? He Hl']; subst. destruct e as [|a|a]; [done|done|].
    simpl. rewrite IH by done. simpl. f_equal. f_equal.
    rewrite (assoc_L (∪)). f_equal. apply (comm_L (∪)).
Qed.

Lemma in_key_order_elements (dm : gmap Z entry) (recs : list entry) :
  (∀ i, dm !! i = nth_z recs i) → ∀ e, e ∈ in_key_order dm ↔ e ∈ recs.
Proof.
  intros Hd e. unfold in_key_order. rewrite list_elem_of_omap. split.
  - intros (k & _ & Hk). rewrite Hd in Hk. unfold nth_z in Hk.
    destruct (k <? 0); [done|]. by eapply list_elem_of_lookup_2.
  - intros He. apply list_elem_of_lookup_1 in He as [i Hi].
    exists (Z.of_nat i).
    assert (dm !! Z.of_nat i = Some e) as Hk.
    { rewrite Hd. unfold nth_z. rewrite (proj2 (Z.ltb_ge _ _)) by lia.
      by rewrite Nat2Z.id. }
    split; [|done]. rewrite merge_sort_Permutation.
    apply list_elem_of_fmap. exists (Z.of_nat i, e). split; [done|].
    by apply elem_of_map_to_list.
Qed.

(** ** The clearing of fetch *)

(** With an absent slot in the array, the clearing of [fetch] with the
    replace option stops at that slot and leaves the records behind it in
    the collection. *)
Lemma fetch_replace_stops_at_absent_slot :
  ∃ s', fetch (FetchOpts true false StrategyAdd) holey = Done tt s' ∧
        records s' = [Absent; recB] ∧ length s' = 2.
Proof. eexists. repeat split. Qed.

(** X24. Between public calls, on a collection whose slots (once any
    filter is undone) hold pairwise distinct objects and no absent entry,
    [fetch] queues the request for a later turn and clears in the
    caller's turn: with replace and without destroy it removes every
    record and destroys none; with destroy, the records being instances,
    it removes every record and marks each destroyed; with neither option
    the slots stay as they are. *)
Theorem fetch_clears_in_the_callers_turn (o : fetch_opts) (s s1 : collection) :
  at_boundary s →
  unfilter s = Done tt s1 →
  NoDup (records s1) →
  Forall (λ e, present e = true) (records s1) →
  (destroy o = true → Forall (λ e, is_model e = true) (records s1)) →
  ∃ s', fetch o s = Done tt s' ∧
    pending s' = pending s ++ [o] ∧
    records s' = (if replace o || destroy o then [] else records s1) ∧
    length s' = len (records s') ∧
    dead s' = (if destroy o
               then list_to_set (omap address (records s1)) ∪ dead s
               else dead s).
Proof.
  intros Hb Hu Hnd Hp Hm.
  destruct (unfilter_contract s Hb)
    as (s1' & Hu' & Hb1 & _ & Hf1 & _ & _ & Hpe1 & Hde1 & _).
  rewrite Hu in Hu'. inversion Hu'; subst s1'. clear Hu'.
  unfold fetch. rewrite Hu. unfold bind at 1. cbv zeta.
  set (s2 := set_pending (pending s1 ++ [o]) s1).
  assert (at_boundary s2) as Hb2 by exact Hb1.
  destruct (removeAll_clears s2 Hb2 Hf1 Hnd Hp)
    as (dm & s3 & Hr & Hrec & Hb3 & Hd & _ & Hpe3 & Hde3).
  assert (length s3 = 0) as Hlen3.
  { destruct Hb3 as (Hl3 & _). by rewrite Hl3, Hrec. }
  destruct (replace o) eqn:Hro; destruct (destroy o) eqn:Hdo;
    cbn [andb negb orb].
  - (* both: destroy wins *)
    unfold destroyAll. rewrite Hr. simpl.
    rewrite destroy_each_instances.
    + eexists. split; [reflexivity|]. simpl.
      rewrite Hpe3, Hrec, Hde3, Hlen3. simpl. rewrite Hpe1, Hde1.
      repeat split; try done. f_equal. apply set_eq. intros a.
      rewrite !elem_of_list_to_set, !list_elem_of_omap.
      split; intros (e & He & Ha); exists e; (split; [|done]);
        by apply (in_key_order_elements dm (records s1) Hd).
    + apply Forall_forall. intros e He.
      apply (in_key_order_elements dm (records s1) Hd) in He.
      specialize (Hm eq_refl). by eapply Forall_forall in Hm.
  - (* replace only *)
    rewrite Hr. simpl. eexists. split; [reflexivity|].
    rewrite Hpe3, Hrec, Hde3, Hlen3. simpl. by rewrite Hpe1, Hde1.
  - (* destroy only *)
    unfold destroyAll. rewrite Hr. simpl.
    rewrite destroy_each_instances.
    + eexists. split; [reflexivity|]. simpl.
      rewrite Hpe3, Hrec, Hde3, Hlen3. simpl. rewrite Hpe1, Hde1.
      repeat split; try done. f_equal. apply set_eq. intros a.
      rewrite !elem_of_list_to_set, !list_elem_of_omap.
      split; intros (e & He & Ha); exists e; (split; [|done]);
        by apply (in_key_order_elements dm (records s1) Hd).
    + apply Forall_forall. intros e He.
      apply (in_key_order_elements dm (records s1) Hd) in He.
      specialize (Hm eq_refl). by eapply Forall_forall in Hm.
  - (* neither *)
    exists s2. repeat split; simpl; try done.
    + by rewrite Hpe1.
    + apply Hb1.
Qed.

Lemma fetch_clears_in_the_callers_turn_witness :
  at_boundary instances ∧
  ∃ s', fetch (FetchOpts false true StrategyAdd) instances = Done tt s' ∧
    pending s' = pending instances ++ [FetchOpts false true StrategyAdd] ∧
    records s' = [] ∧
    length s' = len (records s') ∧
    dead s' = list_to_set (omap address (records instances)) ∪ dead instances.
Proof.
  assert (at_boundary instances) as H.
  { split; [reflexivity|]. split; [reflexivity|]. split; [reflexivity|].
    simpl. discriminate. }
  split; [exact H|].
  apply (fetch_clears_in_the_callers_turn (FetchOpts false true StrategyAdd)
           instances instances H eq_refl).
  - apply (bool_decide_unpack _). vm_compute. exact I.
  - repeat constructor.
  - intros _. repeat constructor.
Defined.

(** C9. The clearing with the destroy option fails on records that were
    never read: on the collection over the one data hash A, which
    instantiates lazily, [fetch] with destroy queues the request, takes A
    out of the collection (one length and one remove notification) and
    then throws a type error out of the caller's turn, calling [destroy]
    on the data hash.  Nothing is destroyed and the [_destroyAll] flag
    stays set, so that the listener for destroyed records ignores a record
    that is destroyed later on. *)
Theorem fetch_destroy_on_data_hash_throws :
  at_boundary only_a ∧ instanceAllRecords only_a = false ∧
  ∃ s', fetch (FetchOpts false true StrategyAdd) only_a = Thrown TypeError s' ∧
        pending s' = [FetchOpts false true StrategyAdd] ∧
        records s' = [] ∧ length s' = 0 ∧ dead s' = ∅ ∧
        log s' = [EvLength 1 0; EvRemove {[0 := recA]}] ∧
        _destroyAll s' = true ∧
        ∀ r, _recordDestroyed r s' = Done tt s'.
Proof.
  split; [by repeat split|]. split; [reflexivity|].
  eexists. split; [reflexivity|]. by repeat split.
Qed.

(** ** The matching rule of merge *)


Lemma keys_loop_stays h r c ks : ∀ v,
  all_keys_equal h r c ks = true → (keys_loop h r c ks v true).2 = true.
Proof.
  induction ks as [|k ks IH]; intros v H; [done|].
  simpl in *. apply andb_true_iff in H as [H1 H2].
  case_bool_decide; [done|]. rewrite H1. by apply IH.
Qed.




(** The primary key test reads the variable [v], which the merge key loop
    has overwritten by the time the second candidate is looked at: with
    the merge key "n" declared, an incoming hash with the primary key of
    the second record is not matched, and one that has no key in common
    with the second record is merged into it. *)
Lemma merge_later_candidates_see_a_merge_key_value :
  primary_key_equal paired_heap "id" (Raw 23%nat) recB = true ∧
  candidates_loop paired_heap "id" (Some ["n"]) (Raw 23%nat)
    (get paired_heap (Raw 23%nat) "id") [] [recA; recB] = None ∧
  (∃ s', merge (Some [Raw 23%nat]) paired = Done tt s' ∧
         records s' = [recA; recB; Raw 23%nat]) ∧
  primary_key_equal paired_heap "id" (Raw 24%nat) recB = false ∧
  all_keys_equal paired_heap (Raw 24%nat) recB ["n"] = false ∧
  candidates_loop paired_heap "id" (Some ["n"]) (Raw 24%nat)
    (get paired_heap (Raw 24%nat) "id") [] [recA; recB] = Some (recB, [recA]).
Proof.
  split; [reflexivity|]. split; [reflexivity|].
  split; [eexists; split; reflexivity|].
  split; [reflexivity|]. split; reflexivity.
Qed.





Lemma get_attrs_of h e k : get h e k = default VUndefined (attrs_of h e !! k).
Proof.
  destruct e as [|a|a]; simpl; [by rewrite lookup_empty| |];
    unfold prop; destruct (h !! a); simpl; by rewrite ?lookup_empty.
Qed.

(** Applying the attributes of [r] to [c] changes no attribute on which
    the two already agree. *)
Lemma apply_attrs_agree h r c e k :
  get h r k = get h c k → get (apply_attrs c r h) e k = get h e k.
Proof.
  intros Hk. rewrite (get_attrs_of h r), (get_attrs_of h c) in Hk.
  assert (∀ a, address c = Some a →
            prop (<[a := attrs_of h r ∪ attrs_of h c]> h) a k = get h c k) as Hsame.
  { intros a Ha. unfold prop. rewrite lookup_insert_eq. simpl.
    rewrite (get_attrs_of h c), lookup_union.
    destruct (attrs_of h r !! k) as [v|] eqn:Er; simpl in *.
    - rewrite <- Hk. by destruct (attrs_of h c !! k).
    - by destruct (attrs_of h c !! k). }
  assert (∀ a b, a ≠ b →
            prop (<[a := attrs_of h r ∪ attrs_of h c]> h) b k = prop h b k) as Hother.
  { intros a b Hab. unfold prop. by rewrite lookup_insert_ne. }
  destruct c as [|a|a]; [done| |]; destruct e as [|b|b]; try done;
    cbn [apply_attrs get].
  all: destruct (decide (a = b)) as [->|Hab];
    [by rewrite (Hsame b eq_refl)|by apply Hother].
Qed.

Lemma key_equal_guard h pk mk r c :
  key_equal h pk mk r c →
  bool_decide (is_Some mk) || defined (get h r pk) = true.
Proof.
  intros (_ & _ & _ & [Hd|(k & ks & -> & _)]).
  - rewrite Hd. apply orb_true_r.
  - rewrite bool_decide_eq_true_2; [done|by eexists].
Qed.

Lemma key_equal_try h pk mk r c :
  key_equal h pk mk r c → (try_candidate h pk mk r c (get h r pk)).2 = true.
Proof.
  intros (_ & Hpk & Hall & Huse). unfold try_candidate.
  destruct (defined (get h r pk)) eqn:Hd; simpl.
  - rewrite Hpk. unfold strict_eq. by rewrite bool_decide_eq_true_2.
  - destruct Huse as [?|(k & ks & -> & Hk)]; [done|].
    specialize (Hall _ eq_refl). simpl in *.
    apply andb_true_iff in Hall as [H1 H2].
    rewrite bool_decide_eq_false_2 by done. rewrite H1.
    by apply keys_loop_stays.
Qed.

Lemma key_equal_stable h pk mk r c r' c' :
  key_equal h pk mk r c → key_equal h pk mk r' c' →
  key_equal (apply_attrs c r h) pk mk r' c'.
Proof.
  intros (_ & Hpk & Hall & _) (Hp' & Hpk' & Hall' & Huse').
  assert (∀ e, get (apply_attrs c r h) e pk = get h e pk) as Epk.
  { intros e. by apply apply_attrs_agree. }
  assert (∀ ks k e, mk = Some ks → k ∈ ks →
            get (apply_attrs c r h) e k = get h e k) as Ek.
  { intros ks k e Hmk Hin. apply apply_attrs_agree.
    specialize (Hall _ Hmk). unfold all_keys_equal in Hall.
    rewrite forallb_forall in Hall. apply list_elem_of_In in Hin.
    specialize (Hall _ Hin). unfold strict_eq in Hall.
    by apply bool_decide_eq_true_1 in Hall. }
  split; [done|]. split; [by rewrite !Epk|]. split.
  - intros ks Hmk. specialize (Hall' _ Hmk). unfold all_keys_equal in *.
    rewrite forallb_forall in *. intros k Hin.
    rewrite !(Ek ks k) by (done || by apply list_elem_of_In).
    by apply Hall'.
  - by rewrite Epk.
Qed.

Lemma merge_loop_matching pk mk batch : ∀ local h toadd,
  Forall2 (λ r c, present r = true → key_equal h pk mk r c) batch local →
  (merge_loop pk mk batch h local toadd).2 = toadd.
Proof.
  induction batch as [|r batch IH]; intros local h toadd HF; [done|].
  inversion HF as [|? c ? cs Hrc HF']; subst. simpl.
  destruct r as [|a|a]; [done| |].
  all: specialize (Hrc eq_refl); rewrite (key_equal_guard _ _ _ _ _ Hrc).
  all: pose proof (key_equal_try _ _ _ _ _ Hrc) as Ht.
  all: destruct Hrc as (Hc & Hrest); destruct c as [|b|b]; [done| |].
  all: destruct (try_candidate _ _ _ _ _ _) as [v' [|]]; [|done].
  all: apply IH; eapply Forall2_impl; [exact HF'|].
  all: intros r' c' H Hp; eapply key_equal_stable; [by split|by apply H].
Qed.

(** C7. Merging a batch that is equal by key, slot by slot, to the current
    contents of the collection matches every item: nothing is appended,
    the slots and the length stay as they are and no notification, so no
    add event, goes out. *)
Theorem merge_of_current_contents_adds_nothing (s : collection)
    (batch : list entry) :
  Forall2 (λ r c, present r = true →
                  key_equal (heap s) (primaryKey s) (mergeKeys s) r c)
          batch (records s) →
  ∃ s', merge (Some batch) s = Done tt s' ∧
        length s' = length s ∧ records s' = records s ∧ log s' = log s.
Proof.
  intros HF. unfold merge.
  pose proof (merge_loop_matching _ _ _ _ _ [] HF) as H.
  destruct (merge_loop _ _ _ _ _ _) as [h toadd]. simpl in H. subst toadd.
  by eexists.
Qed.

Lemma merge_of_current_contents_adds_nothing_witness :
  Forall2 (λ r c, present r = true →
                  key_equal (heap two) (primaryKey two) (mergeKeys two) r c)
          [Raw 21%nat; Raw 22%nat] (records two) ∧
  ∃ s', merge (Some [Raw 21%nat; Raw 22%nat]) two = Done tt s' ∧
        length s' = length two ∧ records s' = records two ∧ log s' = log two.
Proof.
  assert (Forall2 (λ r c, present r = true →
                    key_equal (heap two) (primaryKey two) (mergeKeys two) r c)
            [Raw 21%nat; Raw 22%nat] (records two)) as H.
  { change (records two) with [recA; recB].
    apply List.Forall2_cons; [|apply List.Forall2_cons; [|apply List.Forall2_nil]];
      intros _; (split; [reflexivity|]); (split; [reflexivity|]);
      (split; [intros ks Hks; discriminate Hks|left; reflexivity]). }
  split; [exact H|].
  exact (merge_of_current_contents_adds_nothing two [Raw 21%nat; Raw 22%nat] H).
Defined.

(** The merge scenario of the specification: the record with id 1 takes
    the incoming value, nothing is appended. *)
Lemma merge_scenario :
  ∃ s', merge (Some [Raw 21%nat]) two = Done tt s' ∧
        length s' = 2 ∧ prop (heap s') 1%nat "v" = VStr "z".
Proof. eexists. repeat split. Qed.

(** ** Filter passes and the undo buffer *)

Lemma materialized_refl l : Forall2 materialized l l.
Proof. induction l; constructor; [by left|done]. Qed.

Lemma materialized_trans l1 l2 l3 :
  Forall2 materialized l1 l2 → Forall2 materialized l2 l3 →
  Forall2 materialized l1 l3.
Proof.
  intros H. revert l3.
  induction H as [|x y l k Hxy _ IH]; intros l3 H3;
    inversion H3 as [|? z ? k' Hyz Hk]; subst; constructor; [|by apply IH].
  destruct Hxy as [->|(a & a' & -> & ->)]; [done|].
  destruct Hyz as [->|(b & b' & Hb & _)]; [|done].
  right. by exists a, a'.
Qed.

Lemma materialized_insert l : ∀ (n : nat) a a',
  l !! n = Some (Raw a) → Forall2 materialized l (<[n := Rec a']> l).
Proof.
  induction l as [|x l IH]; intros [|n] a a' H; simpl in *; try done.
  - inversion H; subst. constructor; [|apply materialized_refl].
    right. by exists a, a'.
  - constructor; [by left|]. by eapply IH.
Qed.

(** [at] resolves in place: it touches neither the flags, the cached
    length, the undo buffer nor the log. *)
Lemma at_in_place i s :
  Forall2 materialized (records s) (records (at_ i s).2) ∧
  length (at_ i s).2 = length s ∧ filtered (at_ i s).2 = filtered s ∧
  filtering (at_ i s).2 = filtering s ∧ silenced (at_ i s).2 = silenced s ∧
  _uRecords (at_ i s).2 = _uRecords s ∧ log (at_ i s).2 = log s.
Proof.
  unfold at_, nth_z. destruct (i <? 0); simpl.
  { split; [apply materialized_refl|done]. }
  destruct (records s !! Z.to_nat i) as [[|a|a]|] eqn:Hn; simpl.
  all: try (split; [apply materialized_refl|done]).
  split; [|done]. by eapply materialized_insert.
Qed.

Lemma materialized_len l k : Forall2 materialized l k → len k = len l.
Proof. intros H. unfold len. by rewrite (Forall2_length _ _ _ H). Qed.

(** The calls of a filter method that resets to an array no more often
    than there is room keep the unfiltered dataset, up to the resolution
    of the hashes it reads; [k] is the room the caller asks to be left. *)
Lemma run_calls_in_pass cs : ∀ s base (k : nat),
  in_pass base s → (own_array_resets cs + k ≤ room s)%nat →
  ∃ s' base', run_calls cs s = Done tt s' ∧
    Forall2 materialized base base' ∧ in_pass base' s' ∧ (k ≤ room s')%nat.
Proof.
  induction cs as [|[i|[l|]] cs IH]; intros s base k Hp Hk;
    cbn [run_calls own_array_resets] in Hk |- *.
  - exists s, base. split; [done|]. split; [apply materialized_refl|].
    split; [done|lia].
  - destruct (at_in_place i s) as (Hm & Hl & Hf & Hg & _ & Hu & _).
    destruct Hp as (Hg0 & Hl0 & Hne & Hc).
    pose proof (materialized_len _ _ Hm) as Hlen.
    destruct (_uRecords s) as [u|] eqn:Eu.
    + destruct (IH (at_ i s).2 base k) as (s' & base' & Hrun & Hb & Hp' & Hk').
      { unfold in_pass. rewrite Hg, Hl, Hu, Hlen. by repeat split. }
      { unfold room in *. rewrite Hf, Hu. rewrite ?Eu in Hk. exact Hk. }
      by exists s', base'.
    + destruct Hc as (Hf0 & Hr). subst base.
      destruct (IH (at_ i s).2 (records (at_ i s).2) k)
        as (s' & base' & Hrun & Hb & Hp' & Hk').
      { unfold in_pass. rewrite Hg, Hl, Hu, Hf, Hlen. repeat split; try done.
        intros E. rewrite E in Hm. inversion Hm as [E'|]. by rewrite <- E' in Hne. }
      { unfold room in *. rewrite Hf, Hu. rewrite ?Eu in Hk. exact Hk. }
      exists s', base'. split; [done|]. split; [|done].
      by eapply materialized_trans.
  - destruct Hp as (Hg0 & Hl0 & Hne & Hc). unfold room in Hk.
    destruct (_uRecords s) as [u|] eqn:Eu.
    + destruct (filtered s) eqn:Ef; [|lia]. subst u.
      rewrite reset_array_plain by (by rewrite Ef, andb_false_r). simpl.
      apply IH.
      * unfold in_pass. simpl. by rewrite Eu.
      * unfold room. simpl. rewrite Ef. lia.
    + destruct Hc as (Ef & Hr).
      rewrite reset_array_snapshot by done. simpl.
      destruct (IH (set_log (log s ++ (if bool_decide (len (records s) = len l) then []
                              else if silenced s then []
                              else [EvLength (len (records s)) (len l)])
                          ++ (if silenced s then [] else [EvReset l]))
            (set_length (len l)
               (set_records l (set_uRecords (Some (records s)) s)))) base k)
        as (s' & base' & Hrun & Hb & Hp' & Hk').
      * unfold in_pass. simpl. by rewrite Hr.
      * unfold room. simpl. rewrite Ef in Hk |- *. simpl in Hk. lia.
      * by exists s', base'.
  - destruct Hp as (Hg0 & Hl0 & Hne & Hc). unfold room in Hk.
    destruct (filtered s) eqn:Ef.
    + destruct (_uRecords s) as [u|] eqn:Eu; [subst u|by destruct Hc].
      rewrite (reset_restore base) by done. simpl.
      apply IH.
      * unfold in_pass. simpl. by repeat split.
      * unfold room. simpl. lia.
    + rewrite reset_idle by done. simpl. apply IH.
      * unfold in_pass. by rewrite Ef.
      * unfold room. by rewrite Ef.
Qed.

Lemma reset_flags arg s :
  silenced (state_of (reset arg s)) = silenced s ∧
  filtering (state_of (reset arg s)) = filtering s.
Proof.
  unfold reset. destruct arg as [rs|].
  - rewrite notify_eq, trigger_eq. by destruct (_ && _).
  - destruct (filtered s); [|done]. destruct (_uRecords s); [|done].
    by rewrite notify_eq, trigger_eq.
Qed.

(** Runs the resets of a filter pass on a state whose flags are known. *)
Ltac run_resets :=
  repeat first
    [ rewrite reset_array_snapshot by done
    | rewrite reset_array_plain by done
    | erewrite reset_restore by reflexivity
    | rewrite reset_idle by done ];
  simpl.

Opaque reset.

(** One filter pass whose method resets to an array at most once: the
    unfiltered dataset stays the one the overlay keeps. *)
Lemma filterContent_overlay base f s :
  overlay base s → (∀ s0, array_resets (f s0) ≤ 1)%nat →
  ∃ s' base', _filterContent (Some f) s = Done tt s' ∧
    Forall2 materialized base base' ∧ overlay base' s'.
Proof.
  intros Ho Hf. pose proof Ho as (Hg & Hs & Hl & Hc).
  unfold _filterContent. rewrite Hg. cbn [negb andb].
  destruct (negb (length s =? 0) || buffer_nonempty s) eqn:G.
  2:{ exists s, base. split; [done|]. split; [apply materialized_refl|done]. }
  cbv zeta. set (s0 := set_silenced true (set_filtering true s)).
  specialize (Hf s0). unfold array_resets in Hf.
  destruct (run_calls_in_pass (calls (f s0)) s0 base
              (match returned (f s0) with ReturnsArray _ => 1 | _ => 0 end))
    as (s1 & base1 & Hrun & Hm & Hp & Hk).
  { unfold in_pass, s0. simpl. split; [done|]. split; [done|].
    destruct Hc as [(Ef & Eu & Er)|(Ef & Eu & Hne)]; rewrite Eu; [|done].
    split; [|done]. intros E. subst base. unfold buffer_nonempty in G.
    rewrite Eu, Hl, E in G. done. }
  { replace (room s0) with 1%nat; [exact Hf|].
    unfold room, s0. simpl.
    destruct Hc as [(Ef & Eu & Er)|(Ef & Eu & Hne)]; by rewrite Ef, ?Eu. }
  unfold run_filter_method. rewrite Hrun. simpl.
  clear Hrun Hf. destruct s1 as [rec1 n1 fl1 fg1 si1 ub1 da1 ia1 pk1 mk1 h1 nx1 dd1 pe1 lg1].
  destruct Hp as (Hg1 & Hl1 & Hne1 & Hc1). unfold room in Hk. simpl in Hg1, Hl1, Hc1, Hk. subst fg1 n1.
  destruct (returned (f s0)) as [| |l]; simpl in Hk;
    destruct fl1; destruct ub1 as [u|]; simpl in Hc1; try lia;
    try (destruct Hc1 as (Hfl1 & Hrec1); try done); subst;
    try (destruct base1 as [|e base1]; [done|]);
    simpl; run_resets.
  all: eexists _, _; (split; [reflexivity|]); (split; [exact Hm|]).
  all: unfold overlay; simpl; repeat split; try done; try (by left); try (by right).
Qed.

Transparent reset.

Lemma apply_filters_overlay fs : ∀ base s,
  overlay base s →
  (∀ f s0, f ∈ fs → (array_resets (f s0) ≤ 1)%nat) →
  ∃ s' base', apply_filters fs s = Done tt s' ∧
    Forall2 materialized base base' ∧ overlay base' s'.
Proof.
  induction fs as [|f fs IH]; intros base s Ho Hfs; simpl.
  - exists s, base. split; [done|]. split; [apply materialized_refl|done].
  - destruct (filterContent_overlay base f s Ho) as (s1 & base1 & -> & Hm1 & Ho1).
    { intros s0. apply Hfs. by left. }
    simpl. destruct (IH base1 s1 Ho1) as (s2 & base2 & Hrun & Hm2 & Ho2).
    { intros g s0 Hg. apply Hfs. by right. }
    exists s2, base2. split; [done|]. split; [|done].
    by eapply materialized_trans.
Qed.

(** What [reset()] does to a filtered collection between public calls. *)
Lemma reset_undoes_overlay base s :
  overlay base s → filtered s = true →
  _uRecords s = Some base ∧
  ∃ s', reset None s = Done tt s' ∧
    records s' = base ∧ _uRecords s' = None ∧ filtered s' = false ∧
    length s' = len (records s') ∧
    ∃ evs, log s' = log s ++ evs ∧ reset_notifications evs = [base].
Proof.
  intros (Hg & Hs & Hl & [(Hf & _)|(_ & Hu & Hne)]) Hfs; [congruence|].
  split; [done|]. rewrite (reset_restore base) by done.
  eexists. split; [reflexivity|]. simpl. rewrite Hs.
  repeat split; try done.
  case_bool_decide; events; done.
Qed.

(** X22. Filter methods that reset the collection to an array at most once
    per pass, by the array they return or by a call of their own, keep the
    unfiltered dataset: after any run of them that leaves the collection
    filtered, the undo buffer holds the records as they were before the
    first pass, with the hashes the methods read resolved to instances,
    and [reset()] restores exactly them, clears the buffer, sets
    [filtered] to false, recomputes the length and sends one reset
    notification. *)
Lemma single_reset_filters_keep_dataset (s0 : collection)
    (fs : list (collection → filter_run)) :
  at_boundary s0 → filtered s0 = false → _uRecords s0 = None →
  (∀ f s, f ∈ fs → (array_resets (f s) ≤ 1)%nat) →
  ∃ s, apply_filters fs s0 = Done tt s ∧
    (filtered s = true →
     ∃ u, _uRecords s = Some u ∧ Forall2 materialized (records s0) u ∧
       ∃ s', reset None s = Done tt s' ∧
         records s' = u ∧ _uRecords s' = None ∧
         filtered s' = false ∧ length s' = len (records s') ∧
         ∃ evs, log s' = log s ++ evs ∧ reset_notifications evs = [u]).
Proof.
  intros (Hl & Hs & Hg & _) Hf Hu Hfs.
  destruct (apply_filters_overlay fs (records s0) s0) as (s & u & Hrun & Hm & Ho);
    [|done|].
  { repeat split; try done. by left. }
  exists s. split; [done|]. intros Hfl. exists u.
  destruct (reset_undoes_overlay u s Ho Hfl) as (Hbuf & Hreset).
  by repeat split.
Qed.

(** The filter scenario of the specification: a filter that returns [[B]]
    leaves one visible record, and [reset()] brings the dataset back. *)
Lemma filter_scenario :
  ∃ s, apply_filters [keep_b] abcd = Done tt s ∧
       filtered s = true ∧ length s = 1 ∧ records s = [recB] ∧
       ∃ s', reset None s = Done tt s' ∧
             records s' = records abcd ∧ filtered s' = false.
Proof.
  exists (state_of (apply_filters [keep_b] abcd)).
  split; [by vm_compute|]. do 3 (split; [by vm_compute|]).
  exists (state_of (reset None (state_of (apply_filters [keep_b] abcd)))).
  by vm_compute.
Qed.

(** A filter method that reads what it keeps: the buffer holds the
    dataset with the two records it read resolved. *)
Lemma reading_filter_scenario :
  ∃ s, apply_filters [keep_second] abcd = Done tt s ∧
       filtered s = true ∧ records s = [Rec (S (next abcd))] ∧
       _uRecords s = Some [Rec (next abcd); Rec (S (next abcd)); recC; recD].
Proof.
  exists (state_of (apply_filters [keep_second] abcd)).
  split; by vm_compute.
Qed.

(** C4. A filter method that calls [this.reset([C])] and then returns
    [[B]], run on the unfiltered collection [[A; B; C; D]], leaves the
    collection filtered with [[C]] in the undo buffer: the second reset of
    the pass took its snapshot over the first one. [reset()] then
    restores [[C]] and not the dataset from before the filter. *)
Theorem reset_restores_last_snapshot_of_pass :
  ∃ s, apply_filters [narrow_twice] abcd = Done tt s ∧
       filtered s = true ∧ records s = [recB] ∧ _uRecords s = Some [recC] ∧
       ∃ s', reset None s = Done tt s' ∧
             records s' = [recC] ∧ records s' ≠ records abcd ∧
             filtered s' = false ∧ _uRecords s' = None.
Proof.
  exists (state_of (apply_filters [narrow_twice] abcd)).
  split; [by vm_compute|]. do 3 (split; [by vm_compute|]).
  exists (state_of (reset None (state_of (apply_filters [narrow_twice] abcd)))).
  by vm_compute.
Qed.

(** ** Lazy resolution and iteration *)

Lemma nth_z_nat {A} (l : list A) (p : nat) : nth_z l (Z.of_nat p) = l !! p.
Proof.
  unfold nth_z. rewrite (proj2 (Z.ltb_ge _ _)) by lia. by rewrite Nat2Z.id.
Qed.

(** What one call of [at] does to the slot it reads. *)
Lemma at_spec (p : nat) (s : collection) :
  let r := (at_ (Z.of_nat p) s).1 in
  let s' := (at_ (Z.of_nat p) s).2 in
  length s' = length s ∧
  take p (records s') = take p (records s) ∧
  drop (S p) (records s') = drop (S p) (records s) ∧
  match records s !! p with
  | None | Some Absent => r = Absent ∧ s' = s
  | Some (Rec a) => r = Rec a ∧ s' = s
  | Some (Raw a) => r = Rec (next s) ∧ records s' !! p = Some r
  end.
Proof.
  unfold at_. rewrite nth_z_nat.
  destruct (records s !! p) as [[|a|a]|] eqn:Hp; simpl; try done.
  rewrite Nat2Z.id. repeat split.
  - by rewrite take_insert_ge.
  - by rewrite drop_insert_lt by lia.
  - apply list_lookup_insert_eq. by eapply lookup_lt_Some.
Qed.

Lemma at_present (p : nat) (s : collection) :
  present (at_ (Z.of_nat p) s).1 = true →
  ∃ e, records s !! p = Some e ∧ present e = true ∧
       records (at_ (Z.of_nat p) s).2 !! p = Some (at_ (Z.of_nat p) s).1.
Proof.
  pose proof (at_spec p s) as (_ & _ & _ & H). intros Hr.
  destruct (records s !! p) as [[|a|a]|] eqn:Hp.
  - destruct H as [E _]. by rewrite E in Hr.
  - exists (Raw a). by destruct H.
  - exists (Rec a). destruct H as [E ->]. by rewrite E.
  - destruct H as [E _]. by rewrite E in Hr.
Qed.

Lemma at_absent (p : nat) (s : collection) :
  present (at_ (Z.of_nat p) s).1 = false →
  (at_ (Z.of_nat p) s).2 = s ∧ visited (drop p (records s)) = [].
Proof.
  pose proof (at_spec p s) as (_ & _ & _ & H). intros Hr.
  destruct (records s !! p) as [[|a|a]|] eqn:Hp.
  - destruct H as [_ ->]. split; [done|].
    by rewrite (drop_S _ _ _ Hp).
  - destruct H as [E _]. by rewrite E in Hr.
  - destruct H as [E _]. by rewrite E in Hr.
  - destruct H as [_ ->]. split; [done|].
    rewrite drop_ge; [done|]. by apply lookup_ge_None.
Qed.

Lemma visited_take_absent n l : visited l = [] → visited (take n l) = [].
Proof. destruct l as [|[|a|a] l], n; simpl; done. Qed.

Lemma map_loop_spec {B} (fn : entry → Z → B) (n : nat) : ∀ (p : nat) (s : collection),
  let fs := (map_loop fn n (Z.of_nat p) s).1 in
  let s' := (map_loop fn n (Z.of_nat p) s).2 in
  let k := List.length (visited (take n (drop p (records s)))) in
  List.length fs = k ∧
  length s' = length s ∧
  take p (records s') = take p (records s) ∧
  fs = imap (λ j r, fn r (Z.of_nat (p + j))) (take k (drop p (records s'))).
Proof.
  induction n as [|n IH]; intros p s; simpl.
  { by repeat split. }
  destruct (at_ (Z.of_nat p) s) as [r s1] eqn:Hat.
  destruct (present r) eqn:Hr.
  - pose proof (at_spec p s) as (Hl1 & Ht1 & Hd1 & _).
    destruct (at_present p s) as (e & He & Hpe & Hs1); [by rewrite Hat|].
    rewrite Hat in Hl1, Ht1, Hd1, Hs1. simpl in Hl1, Ht1, Hd1, Hs1.
    replace (Z.of_nat p + 1) with (Z.of_nat (S p)) by lia.
    specialize (IH (S p) s1).
    destruct (map_loop fn n (Z.of_nat (S p)) s1) as [fs s'] eqn:Hm.
    simpl in IH. destruct IH as (Hlen & Hl & Ht & Hfs). simpl.
    rewrite (drop_S _ _ _ He). rewrite Hd1 in Hlen.
    assert (records s' !! p = Some r) as Hp'.
    { rewrite <- Hs1. rewrite <- (lookup_take_lt _ (S p)) by lia.
      rewrite Ht. by rewrite lookup_take_lt by lia. }
    assert (visited (take (S n) (e :: drop (S p) (records s)))
            = e :: visited (take n (drop (S p) (records s)))) as Hv.
    { by destruct e. }
    rewrite Hv. simpl.
    repeat split.
    + by rewrite Hlen.
    + congruence.
    + rewrite <- Ht1.
      assert (take p (take (S p) (records s')) = take p (take (S p) (records s1)))
        as Hpp by (by rewrite Ht).
      rewrite !take_take in Hpp. by rewrite Nat.min_l in Hpp by lia.
    + rewrite (drop_S _ _ _ Hp'). simpl. rewrite Nat.add_0_r. f_equal.
      rewrite Hd1 in Hfs. etrans; [exact Hfs|].
      apply imap_ext. intros j x _. simpl. do 2 f_equal. lia.
  - destruct (at_absent p s) as (Hs1 & Hv); [by rewrite Hat|].
    rewrite Hat in Hs1. simpl in Hs1. subst s1. simpl.
    assert (visited (take (S n) (drop p (records s))) = []) as Hv'.
    { by apply visited_take_absent. }
    simpl in Hv'. rewrite Hv'. simpl. by repeat split.
Qed.

(** [filter] is [map] with the callback's verdict, keeping the records
    the callback accepts. *)
Lemma filter_loop_map (pred : entry → Z → bool) (n : nat) : ∀ (i : Z) (s : collection),
  filter_loop pred n i s =
  (((λ x, x.1) <$> List.filter (λ x : entry * bool, x.2)
                     (map_loop (λ r j, (r, pred r j)) n i s).1),
   (map_loop (λ r j, (r, pred r j)) n i s).2).
Proof.
  induction n as [|n IH]; intros i s; simpl; [done|].
  destruct (at_ i s) as [r s1]. destruct (present r); [|done].
  rewrite IH. destruct (map_loop _ n (i + 1) s1) as [xs s']. simpl.
  by destruct (pred r i).
Qed.

Lemma visited_until_absent (l : list entry) : ∀ k,
  l !! k = Some Absent → (List.length (visited l) ≤ k)%nat.
Proof.
  induction l as [|e l IH]; intros k Hk; [done|].
  destruct k as [|k]; simpl in Hk.
  - inversion Hk; subst. simpl. lia.
  - apply IH in Hk. destruct e; simpl; lia.
Qed.

(** C10. [map] and [filter] go through the slots in index order, as [at]
    resolves them, and stop at the first absent slot among those the
    cached length counts: the result of [map] has one element per slot
    before that one, the result of [filter] keeps some of them, and when
    the slot at an index [k] below [length] is absent both results hold
    at most [k] elements, fewer than [length]. *)
Theorem iteration_stops_at_first_absent_slot {B} (fn : entry → Z → B)
    (pred : entry → Z → bool) (s : collection) :
  let live := visited (take (Z.to_nat (length s)) (records s)) in
  let fs := (map fn s).1 in
  List.length fs = List.length live ∧
  fs = imap (λ j r, fn r (Z.of_nat j))
            (take (List.length live) (records (map fn s).2)) ∧
  (filter pred s).1
    = (λ x, x.1) <$> List.filter (λ x : entry * bool, x.2)
                       (map (λ r j, (r, pred r j)) s).1 ∧
  (List.length (filter pred s).1 ≤ List.length live)%nat ∧
  ∀ k : nat, Z.of_nat k < length s → records s !! k = Some Absent →
    len fs ≤ Z.of_nat k < length s ∧
    len (filter pred s).1 ≤ Z.of_nat k < length s.
Proof.
  simpl. unfold map, filter.
  pose proof (map_loop_spec fn (Z.to_nat (length s)) 0 s) as (Hlen & _ & _ & Hfs).
  pose proof (map_loop_spec (λ r j, (r, pred r j)) (Z.to_nat (length s)) 0 s)
    as (Hlen' & _).
  simpl in *. change (Z.of_nat 0) with 0 in *. rewrite drop_0 in *.
  assert ((List.length (filter_loop pred (Z.to_nat (length s)) 0 s).1
           ≤ List.length (visited (take (Z.to_nat (length s)) (records s))))%nat)
    as Hfl.
  { rewrite filter_loop_map. simpl. rewrite length_fmap, <- Hlen'.
    apply List.filter_length_le. }
  split; [done|]. split; [by rewrite Hfs at 1|].
  split; [by rewrite filter_loop_map|]. split; [done|].
  intros k Hk Habs.
  assert ((List.length (visited (take (Z.to_nat (length s)) (records s))) ≤ k)%nat)
    as Hstop.
  { apply visited_until_absent. rewrite lookup_take_lt by lia. done. }
  unfold len. lia.
Qed.

Lemma iteration_stops_at_first_absent_slot_witness :
  let fs := (map (λ r j, j) holey).1 in
  let kept := (filter (λ r j, true) holey).1 in
  len fs ≤ 1 < length holey ∧ len kept ≤ 1 < length holey.
Proof.
  destruct (iteration_stops_at_first_absent_slot (λ r j, j) (λ r j, true) holey)
    as (_ & _ & _ & _ & H).
  apply (H 1%nat); [reflexivity|reflexivity].
Defined.

(** A null entry added in a batch hides the records behind it from [map],
    although [length] counts them. *)
Lemma map_shorter_than_length :
  ∃ s', add [recB; Absent; recC] None only_a = Done [1] s' ∧
        length s' = 4 ∧
        (map (λ r j, j) s').1 = [0; 1] ∧
        (filter (λ r j, true) s').1 = [Rec 10%nat; Rec 11%nat].
Proof. eexists. repeat split. Qed.

(** ** The state between public calls *)

Lemma create_boundary data eager pk mk h n :
  at_boundary (create data eager pk mk h n).
Proof. by repeat split. Qed.

Lemma boundary_ext s s' :
  at_boundary s →
  records s' = records s → length s' = length s →
  filtered s' = filtered s → filtering s' = filtering s →
  silenced s' = silenced s → _uRecords s' = _uRecords s →
  at_boundary s'.
Proof.
  intros Hb Er El Ef Eg Es Eu. unfold at_boundary.
  by rewrite Er, El, Ef, Eg, Es, Eu.
Qed.

Lemma boundary_view s s' : same_view s s' → at_boundary s → at_boundary s'.
Proof.
  intros (Er & El & Ef & Eg & Es & Eu & _) Hb. by eapply boundary_ext.
Qed.

Lemma reset_boundary arg s : at_boundary s → at_boundary (state_of (reset arg s)).
Proof.
  intros Hb. by destruct (reset_contract arg s Hb) as (s' & -> & Hb' & _).
Qed.

Lemma add_boundary batch i s : at_boundary s → at_boundary (state_of (add batch i s)).
Proof.
  intros Hb. by destruct (add_outcome batch i s Hb) as (s1 & _ & Hb' & _).
Qed.

Lemma remove_boundary rec s : at_boundary s → at_boundary (state_of (remove rec s)).
Proof.
  intros Hb.
  by destruct (remove_spec rec s Hb) as (s1 & _ & s' & -> & _ & Hb' & _).
Qed.

Lemma at_keeps_boundary i s : at_boundary s → at_boundary (at_ i s).2.
Proof.
  intros (Hl & Hs & Hg & Hu).
  destruct (at_in_place i s) as (Hm & El & Ef & Eg & Es & Eu & _).
  unfold at_boundary. rewrite El, Ef, Eg, Es, Eu, (materialized_len _ _ Hm).
  by repeat split.
Qed.

Lemma map_loop_boundary {B} (fn : entry → Z → B) n : ∀ i s,
  at_boundary s → at_boundary (map_loop fn n i s).2.
Proof.
  induction n as [|n IH]; intros i s Hb; simpl; [done|].
  pose proof (at_keeps_boundary i s Hb) as Hat.
  destruct (at_ i s) as [r s1]. simpl in Hat.
  destruct (present r); [|done].
  specialize (IH (i + 1) s1 Hat). by destruct (map_loop fn n (i + 1) s1).
Qed.

Lemma filter_boundary fn s : at_boundary s → at_boundary (filter fn s).2.
Proof.
  intros Hb. unfold filter. rewrite filter_loop_map. simpl.
  by apply map_loop_boundary.
Qed.

Lemma merge_boundary batch s : at_boundary s → at_boundary (state_of (merge batch s)).
Proof.
  intros Hb. unfold merge. destruct batch as [batch|]; [|done].
  destruct (merge_loop _ _ _ _ _ _) as [h toadd].
  assert (at_boundary (set_heap h s)) as Hb'.
  { eapply boundary_view; [|exact Hb]. by repeat split. }
  destruct toadd as [|e toadd]; [done|].
  pose proof (add_boundary (e :: toadd) None (set_heap h s) Hb') as Ha.
  by destruct (add _ _ _).
Qed.

Lemma destroy_each_boundary l : ∀ s,
  at_boundary s → at_boundary (state_of (destroy_each l s)).
Proof.
  induction l as [|e l IH]; intros s Hb; simpl; [done|].
  destruct e as [|a|a]; simpl; [by apply IH|done|].
  apply IH. by eapply boundary_ext.
Qed.

Lemma destroyAll_boundary s : at_boundary s → at_boundary (state_of (destroyAll s)).
Proof.
  intros Hb. unfold destroyAll, removeAll.
  pose proof (remove_boundary (records s) s Hb) as Hr.
  destruct (remove (records s) s) as [dm s1|err s1]; simpl in *; [|done].
  assert (at_boundary (set_destroyAll true s1)) as Hb1 by (by eapply boundary_ext).
  pose proof (destroy_each_boundary (in_key_order dm) _ Hb1) as Hd.
  destruct (destroy_each _ _) as [[] s2|err s2]; simpl in *; [|done].
  by eapply boundary_ext.
Qed.

Lemma createRecord_boundary attrs i s :
  at_boundary s → at_boundary (state_of (createRecord attrs i s)).
Proof.
  intros Hb. unfold createRecord.
  assert (at_boundary (store_createRecord attrs s).2) as Hb'.
  { eapply boundary_view; [apply store_createRecord_view|done]. }
  destruct (store_createRecord attrs s) as [r s1]. simpl in Hb'.
  match goal with
  | |- context [add ?b ?j s1] =>
      pose proof (add_boundary b j s1 Hb') as Ha; by destruct (add b j s1)
  end.
Qed.

(** Whatever a filter method calls, its calls return, and they keep the
    cached length current and a filtered collection with its buffer. *)
Lemma run_calls_returns cs : ∀ s,
  length s = len (records s) →
  (filtered s = true → is_Some (_uRecords s)) →
  ∃ s', run_calls cs s = Done tt s' ∧
    length s' = len (records s') ∧
    (filtered s' = true → is_Some (_uRecords s')) ∧
    filtering s' = filtering s.
Proof.
  induction cs as [|[i|arg] cs IH]; intros s Hl Hu; cbn [run_calls].
  - by exists s.
  - destruct (at_in_place i s) as (Hm & El & Ef & Eg & _ & Eu & _).
    destruct (IH (at_ i s).2) as (s' & Hrun & Hl' & Hu' & Hg').
    { by rewrite El, (materialized_len _ _ Hm). }
    { by rewrite Ef, Eu. }
    exists s'. by rewrite <- Eg.
  - assert (∃ s1, reset arg s = Done tt s1 ∧ length s1 = len (records s1) ∧
              (filtered s1 = true → is_Some (_uRecords s1)) ∧
              filtering s1 = filtering s) as (s1 & -> & Hl1 & Hu1 & Hg1).
    { destruct arg as [rs|].
      - destruct (filtering s && negb (filtered s)) eqn:E.
        + apply andb_prop in E as (Eg & Ef%negb_true_iff).
          rewrite reset_array_snapshot by done. eexists. split; [reflexivity|].
          simpl. by rewrite Ef.
        + rewrite reset_array_plain by done. by eexists.
      - destruct (filtered s) eqn:Ef.
        + destruct (Hu eq_refl) as [u Hbuf]. rewrite (reset_restore u) by done.
          by eexists.
        + rewrite reset_idle by done. exists s. by rewrite Ef. }
    simpl. destruct (IH s1 Hl1 Hu1) as (s' & Hrun & Hl' & Hu' & Hg').
    exists s'. by rewrite <- Hg1.
Qed.

Opaque reset.

(** Every filter pass whose method returns, whatever the calls it makes,
    returns and leaves a state between public calls. *)
Lemma filterContent_boundary fm s :
  at_boundary s →
  ∃ s', _filterContent fm s = Done tt s' ∧ at_boundary s'.
Proof.
  intros Hb. pose proof Hb as (Hl & Hs & Hg & Hu).
  unfold _filterContent. rewrite Hg. cbn [negb andb].
  destruct (negb (length s =? 0) || buffer_nonempty s); [|by exists s].
  destruct fm as [f|]; [|by exists s]. cbv zeta.
  set (s0 := set_silenced true (set_filtering true s)).
  destruct (run_calls_returns (calls (f s0)) s0) as (s1 & Hrun & Hl1 & Hu1 & Hg1);
    [done|done|].
  unfold run_filter_method. rewrite Hrun. simpl. clear Hrun.
  destruct s1 as [rec1 n1 fl1 fg1 si1 ub1 da1 ia1 pk1 mk1 h1 nx1 dd1 pe1 lg1].
  simpl in Hl1, Hu1, Hg1. subst n1 fg1.
  destruct ub1 as [[|e u]|]; destruct fl1;
    try (by destruct (Hu1 eq_refl) as [? ?]);
    destruct (returned (f s0)) as [| |l]; simpl; run_resets.
  all: eexists; (split; [reflexivity|]).
  all: unfold buffer_nonempty; simpl.
  all: try match goal with
           | |- context [match ?x with [] => _ | _ :: _ => _ end] => destruct x
           end.
  all: unfold at_boundary; simpl; repeat split; try done; intros; by eexists.
Qed.

Transparent reset.

Lemma fetch_boundary o s : at_boundary s → at_boundary (state_of (fetch o s)).
Proof.
  intros Hb. unfold fetch.
  destruct (unfilter_contract s Hb) as (s1 & -> & Hb1 & _). simpl.
  assert (at_boundary (set_pending (pending s1 ++ [o]) s1)) as Hb2
    by (by eapply boundary_ext).
  destruct (replace o && negb (destroy o)); [|destruct (destroy o)].
  - pose proof (remove_boundary (records s1) _ Hb2) as Hr.
    unfold removeAll. simpl in *. by destruct (remove _ _).
  - by apply destroyAll_boundary.
  - done.
Qed.

Lemma didFetch_boundary o res s :
  at_boundary s → at_boundary (state_of (didFetch o res s)).
Proof.
  intros Hb. unfold didFetch. destruct res as [rr|]; [|done].
  destruct (strategy_of o).
  - pose proof (add_boundary rr None s Hb) as Ha. by destruct (add _ _ _).
  - by apply merge_boundary.
Qed.

(** * Further properties of the collection *)

(** Proves that a given collection is in a state between public calls. *)
Ltac concrete_boundary :=
  split; [reflexivity|]; split; [reflexivity|]; split; [reflexivity|];
  simpl; first [discriminate | intros _; eexists; reflexivity].

(** ** Lazy resolution *)

Lemma nth_z_insert_ne {A} (l : list A) (i j : Z) (x : A) :
  0 ≤ i → j ≠ i → nth_z (<[Z.to_nat i := x]> l) j = nth_z l j.
Proof.
  intros Hi Hj. unfold nth_z. destruct (j <? 0) eqn:Ej; [done|].
  apply Z.ltb_ge in Ej. apply list_lookup_insert_ne. lia.
Qed.

(** [at] on a slot that holds an instance, and on one that holds nothing. *)
Lemma at_of_instance i s a : nth_z (records s) i = Some (Rec a) → at_ i s = (Rec a, s).
Proof. intros H. unfold at_. by rewrite H. Qed.

Lemma at_of_nothing i s :
  nth_z (records s) i = None ∨ nth_z (records s) i = Some Absent →
  at_ i s = (Absent, s).
Proof. intros [H|H]; unfold at_; by rewrite H. Qed.

Lemma at_result i s :
  ((at_ i s).1 = Absent ∧ (at_ i s).2 = s) ∨
  (∃ a, (at_ i s).1 = Rec a ∧ nth_z (records (at_ i s).2) i = Some (Rec a)).
Proof.
  unfold at_. destruct (nth_z (records s) i) as [[|a|a]|] eqn:Hn; simpl.
  - by left.
  - right. exists (next s). split; [done|]. unfold nth_z in *.
    destruct (i <? 0); [done|].
    by rewrite list_lookup_insert_eq by (by eapply lookup_lt_Some).
  - right. by exists a.
  - by left.
Qed.

Lemma at_other_slots i s j :
  j ≠ i → nth_z (records (at_ i s).2) j = nth_z (records s) j.
Proof.
  intros Hj. unfold at_. destruct (nth_z (records s) i) as [[|a|a]|] eqn:Hn; simpl;
    try done.
  apply nth_z_insert_ne; [|done]. unfold nth_z in Hn.
  destruct (i <? 0) eqn:Ei; [done|]. by apply Z.ltb_ge in Ei.
Qed.

Lemma at_again i s : at_ i (at_ i s).2 = at_ i s.
Proof.
  destruct (at_result i s) as [(Hr & Hs)|(a & Hr & Hn)].
  - by rewrite Hs.
  - rewrite (at_of_instance _ _ _ Hn). rewrite <- Hr. by destruct (at_ i s).
Qed.

(** X1. [at] resolves a slot once: what it returns is an instance or
    absent, never a data hash, and asking for the same index again
    returns the same record and leaves the collection as the first call
    left it. *)
Theorem at_resolves_once (i : Z) (s : collection) :
  ((at_ i s).1 = Absent ∨ is_model (at_ i s).1 = true) ∧
  at_ i (at_ i s).2 = at_ i s.
Proof.
  split; [|apply at_again].
  destruct (at_result i s) as [(Hr & _)|(a & Hr & _)]; [by left|].
  right. by rewrite Hr.
Qed.

(** X2. [at] touches one slot only: every other slot, the number of
    slots, the cached length and the notifications stay as they are; for
    an index below zero or past the end, and for a slot that holds
    nothing, it returns absent and changes nothing at all. *)
Theorem at_touches_one_slot (i : Z) (s : collection) :
  (∀ j, j ≠ i → nth_z (records (at_ i s).2) j = nth_z (records s) j) ∧
  len (records (at_ i s).2) = len (records s) ∧
  length (at_ i s).2 = length s ∧ log (at_ i s).2 = log s ∧
  (i < 0 ∨ len (records s) ≤ i ∨ nth_z (records s) i = Some Absent →
   at_ i s = (Absent, s)).
Proof.
  destruct (at_in_place i s) as (Hm & Hl & _ & _ & _ & _ & Hlog).
  split; [intros j Hj; by apply at_other_slots|].
  split; [by apply materialized_len|]. split; [done|]. split; [done|].
  intros H. apply at_of_nothing.
  destruct H as [H|[H|H]]; [left|left|by right]; unfold nth_z.
  - by rewrite (proj2 (Z.ltb_lt _ _)) by lia.
  - destruct (i <? 0); [done|]. apply lookup_ge_None. unfold len in H. lia.
Qed.

(** ** Iteration over a collection without absent slots *)

Lemma map_loop_resolves {B} (fn : entry → Z → B) (n : nat) :
  ∀ (p : nat) (s : collection),
  (p + n = List.length (records s))%nat →
  Forall (λ e, present e = true) (drop p (records s)) →
  let s' := (map_loop fn n (Z.of_nat p) s).2 in
  take p (records s') = take p (records s) ∧
  Forall (λ e, is_model e = true) (drop p (records s')) ∧
  Forall2 materialized (records s) (records s') ∧ log s' = log s.
Proof.
  induction n as [|n IH]; intros p s Hn Hall; simpl.
  { split; [done|]. split; [by rewrite drop_ge by lia|].
    split; [apply materialized_refl|done]. }
  destruct (records s !! p) as [e|] eqn:He.
  2:{ apply lookup_ge_None in He. lia. }
  rewrite (drop_S _ _ _ He) in Hall. apply Forall_cons in Hall as (Hpe & Hall).
  pose proof (at_spec p s) as (_ & Ht1 & Hd1 & Hcase).
  destruct (at_in_place (Z.of_nat p) s) as (Hm1 & _ & _ & _ & _ & _ & Hlog1).
  rewrite He in Hcase.
  assert (is_model (at_ (Z.of_nat p) s).1 = true ∧
          records (at_ (Z.of_nat p) s).2 !! p = Some (at_ (Z.of_nat p) s).1)
    as (Hr & Hp1).
  { destruct e as [|a|a]; [done| |]; destruct Hcase as (-> & Hc); [done|].
    by rewrite Hc. }
  destruct (at_ (Z.of_nat p) s) as [r s1]. simpl in *.
  assert (present r = true) as -> by (by destruct r).
  replace (Z.of_nat p + 1) with (Z.of_nat (S p)) by lia.
  destruct (IH (S p) s1) as (Ht & Hmod & Hm & Hlog).
  { rewrite <- (Forall2_length _ _ _ Hm1). lia. }
  { by rewrite Hd1. }
  destruct (map_loop fn n (Z.of_nat (S p)) s1) as [fs s']. simpl in *.
  assert (records s' !! p = Some r) as Hp'.
  { rewrite <- Hp1. rewrite <- (lookup_take_lt _ (S p)) by lia.
    rewrite Ht. by rewrite lookup_take_lt by lia. }
  split.
  { rewrite <- Ht1.
    assert (take p (take (S p) (records s')) = take p (take (S p) (records s1)))
      as Hpp by (by rewrite Ht).
    rewrite !take_take in Hpp. by rewrite Nat.min_l in Hpp by lia. }
  split; [rewrite (drop_S _ _ _ Hp'); by constructor|].
  split; [by eapply materialized_trans|congruence].
Qed.

(** X3. On a collection without absent slots, [map] visits every record:
    it returns one result per slot, computed from the resolved record
    and its index, and leaves every slot holding an instance (the slots
    that held a data hash now hold the instance made from it), without
    any notification. *)
Theorem map_resolves_every_record {B} (fn : entry → Z → B) (s : collection) :
  at_boundary s →
  Forall (λ e, present e = true) (records s) →
  (map fn s).1 = imap (λ j r, fn r (Z.of_nat j)) (records (map fn s).2) ∧
  Forall (λ e, is_model e = true) (records (map fn s).2) ∧
  Forall2 materialized (records s) (records (map fn s).2) ∧
  length (map fn s).2 = length s ∧ log (map fn s).2 = log s.
Proof.
  intros (Hl & _) Hall. unfold map.
  assert (Z.to_nat (length s) = List.length (records s)) as Hn.
  { rewrite Hl. unfold len. lia. }
  rewrite Hn.
  destruct (map_loop_resolves fn (List.length (records s)) 0 s)
    as (_ & Hmod & Hm & Hlog); [done|done|].
  pose proof (map_loop_spec fn (List.length (records s)) 0 s) as (_ & Hlen & _ & Hfs).
  change (Z.of_nat 0) with 0 in *. simpl in *.
  set (m := map_loop fn (List.length (records s)) 0 s) in *.
  split; [|done].
  rewrite Hfs. rewrite (take_ge (records s)) by lia.
  rewrite (visited_all _ Hall), (Forall2_length _ _ _ Hm).
  rewrite take_ge by (rewrite length_drop; lia). done.
Qed.

Lemma map_resolves_every_record_witness :
  at_boundary abcd ∧ Forall (λ e, present e = true) (records abcd) ∧
  Forall (λ e, is_model e = true) (records (map (λ _ j, j) abcd).2).
Proof.
  assert (at_boundary abcd) as H by concrete_boundary.
  assert (Forall (λ e, present e = true) (records abcd)) as H2
    by (repeat constructor).
  split; [exact H|]. split; [exact H2|].
  exact (proj1 (proj2 (map_resolves_every_record (λ _ j, j) abcd H H2))).
Defined.

(** ** Iterating twice *)

Lemma map_loop_frame {B} (fn : entry → Z → B) (n : nat) :
  ∀ (i : Z) (s : collection) (j : Z),
  j < i → nth_z (records (map_loop fn n i s).2) j = nth_z (records s) j.
Proof.
  induction n as [|n IH]; intros i s j Hj; simpl; [done|].
  pose proof (at_other_slots i s j) as Hat.
  destruct (at_ i s) as [r s1]. simpl in Hat.
  destruct (present r); simpl; [|apply Hat; lia].
  specialize (IH (i + 1) s1 j).
  destruct (map_loop fn n (i + 1) s1) as [fs s2]. simpl in *.
  rewrite IH by lia. apply Hat. lia.
Qed.

Lemma map_loop_length {B} (fn : entry → Z → B) (n : nat) :
  ∀ (i : Z) (s : collection), length (map_loop fn n i s).2 = length s.
Proof.
  induction n as [|n IH]; intros i s; simpl; [done|].
  destruct (at_in_place i s) as (_ & Hl & _).
  destruct (at_ i s) as [r s1]. simpl in Hl.
  destruct (present r); simpl; [|done].
  specialize (IH (i + 1) s1).
  destruct (map_loop fn n (i + 1) s1) as [fs s2]. simpl in *. congruence.
Qed.

Lemma map_loop_again {B} (fn : entry → Z → B) (n : nat) :
  ∀ (i : Z) (s : collection),
  map_loop fn n i (map_loop fn n i s).2 = map_loop fn n i s.
Proof.
  induction n as [|n IH]; intros i s; simpl; [done|].
  pose proof (at_again i s) as Hag. pose proof (at_result i s) as Hres.
  destruct (at_ i s) as [r s1]. simpl in Hag, Hres.
  destruct (present r) eqn:Hr; simpl.
  - destruct Hres as [(-> & _)|(a & -> & Hn)]; [done|].
    pose proof (map_loop_frame fn n (i + 1) s1 i) as Hfr.
    specialize (IH (i + 1) s1).
    destruct (map_loop fn n (i + 1) s1) as [fs s2]. simpl in *.
    rewrite (at_of_instance i s2 a) by (rewrite Hfr by lia; done).
    simpl. by rewrite IH.
  - by rewrite Hag, Hr.
Qed.

(** X4. Iterating again costs nothing: a second [map] with the same
    callback returns the same results and leaves the collection exactly
    as the first one left it, every record it visits being resolved
    already. *)
Theorem map_again_changes_nothing {B} (fn : entry → Z → B) (s : collection) :
  map fn (map fn s).2 = map fn s.
Proof.
  unfold map. rewrite map_loop_length. apply map_loop_again.
Qed.

(** ** What filter returns *)

Lemma filter_loop_instances (pred : entry → Z → bool) (n : nat) :
  ∀ (i : Z) (s : collection),
  Forall (λ e, is_model e = true) (filter_loop pred n i s).1.
Proof.
  induction n as [|n IH]; intros i s; simpl; [constructor|].
  pose proof (at_result i s) as Hres.
  destruct (at_ i s) as [r s1]. simpl in Hres.
  destruct (present r) eqn:Hr; [|constructor].
  destruct Hres as [(-> & _)|(a & -> & _)]; [done|].
  specialize (IH (i + 1) s1).
  destruct (filter_loop pred n (i + 1) s1) as [fs s2]. simpl in *.
  destruct (pred (Rec a) i); [by constructor|done].
Qed.

Lemma selection_sublist (l : list entry) : ∀ (h : nat → entry → bool),
  sublist ((λ x : entry * bool, x.1) <$>
             List.filter (λ x : entry * bool, x.2) (imap (λ j r, (r, h j r)) l)) l.
Proof.
  induction l as [|e l IH]; intros h; simpl; [constructor|].
  destruct (h 0%nat e); simpl.
  - apply sublist_skip. apply (IH (λ j, h (S j))).
  - apply sublist_cons. apply (IH (λ j, h (S j))).
Qed.

Lemma map_loop_log {B} (fn : entry → Z → B) (n : nat) :
  ∀ (i : Z) (s : collection), log (map_loop fn n i s).2 = log s.
Proof.
  induction n as [|n IH]; intros i s; simpl; [done|].
  destruct (at_in_place i s) as (_ & _ & _ & _ & _ & _ & Hlog).
  destruct (at_ i s) as [r s1]. simpl in Hlog.
  destruct (present r); simpl; [|done].
  specialize (IH (i + 1) s1).
  destruct (map_loop fn n (i + 1) s1) as [fs s2]. simpl in *. congruence.
Qed.

(** X21. What [filter] hands back: instances that sit in the
    collection, in the order of the collection; the call changes neither
    the length nor, but for the resolution of the slots it reads, the
    slots, and notifies nobody. *)
Theorem filter_returns_records_of_the_collection (pred : entry → Z → bool)
    (s : collection) :
  sublist (filter pred s).1 (records (filter pred s).2) ∧
  Forall (λ e, is_model e = true) (filter pred s).1 ∧
  Forall2 materialized (records s) (records (filter pred s).2) ∧
  length (filter pred s).2 = length s ∧ log (filter pred s).2 = log s.
Proof.
  split; [|split; [apply filter_loop_instances|]].
  - unfold filter. rewrite filter_loop_map. simpl.
    pose proof (map_loop_spec (λ r j, (r, pred r j)) (Z.to_nat (length s)) 0 s)
      as (_ & _ & _ & Hfs).
    change (Z.of_nat 0) with 0 in Hfs. simpl in Hfs. rewrite Hfs.
    etrans; [apply (selection_sublist _ (λ j r, pred r (Z.of_nat j)))|].
    apply sublist_take.
  - unfold filter. rewrite filter_loop_map. simpl.
    split; [|split; [apply map_loop_length|apply map_loop_log]].
    generalize (Z.to_nat (length s)). intros n. generalize 0. revert s.
    induction n as [|n IH]; intros s i; simpl; [apply materialized_refl|].
    destruct (at_in_place i s) as (Hm & _).
    destruct (at_ i s) as [r s1]. simpl in Hm.
    destruct (present r); simpl; [|done].
    specialize (IH s1 (i + 1)).
    destruct (map_loop _ n (i + 1) s1) as [fs s2]. simpl in *.
    by eapply materialized_trans.
Qed.

(** ** Adding and removing single records *)

Lemma unfilter_idle s : filtered s = false → unfilter s = Done tt s.
Proof. intros Hf. unfold unfilter. by rewrite Hf. Qed.

Lemma index_from_missing e l : ∀ i, e ∉ l → index_from e l i = -1.
Proof.
  induction l as [|y l IH]; intros i He; simpl; [done|].
  apply not_elem_of_cons in He as (Hy & He).
  rewrite bool_decide_eq_false_2 by done. by apply IH.
Qed.

Lemma splice_delete {A} (i : Z) (l : list A) :
  0 ≤ i < len l →
  splice i 1 [] l = take (Z.to_nat i) l ++ drop (S (Z.to_nat i)) l.
Proof.
  intros Hi. unfold splice. simpl.
  rewrite (proj2 (Z.ltb_ge _ _)) by lia.
  rewrite Z.min_l by lia. do 2 f_equal. lia.
Qed.

Lemma remove_at_middle (pre post : list entry) (r : entry) :
  remove_at (pre ++ r :: post) (len pre) = pre ++ post.
Proof.
  unfold remove_at. rewrite splice_delete.
  - unfold len. rewrite Nat2Z.id.
    rewrite take_app_length. f_equal.
    rewrite (cons_middle r pre post), app_assoc.
    apply drop_app_length'. rewrite length_app. simpl. lia.
  - unfold len. rewrite length_app. simpl. lia.
Qed.

(** The plan of [remove] for one record that is in the array. *)
Lemma remove_plan_single (pre post : list entry) (r : entry) :
  present r = true → r ∉ pre →
  rr (remove_plan (pre ++ r :: post) [r]) = [len pre] ∧
  d (remove_plan (pre ++ r :: post) [r]) = {[len pre := r]}.
Proof.
  intros Hr Hpre. unfold remove_plan.
  assert (visited [r] = [r]) as -> by (by destruct r).
  simpl. unfold place, enyo_indexOf. rewrite index_from_first by done.
  simpl. rewrite (proj2 (Z.ltb_lt _ _)) by (unfold len; lia).
  destruct (0 + len pre <=? 0) eqn:E; simpl.
  - apply Z.leb_le in E. by replace (0 + len pre) with (len pre) by lia.
  - rewrite (proj2 (Z.leb_le _ _)) by (unfold len; lia). simpl.
    by replace (0 + len pre) with (len pre) by lia.
Qed.

Lemma remove_single (r : entry) (pre post : list entry) (s : collection) :
  at_boundary s → filtered s = false → present r = true →
  records s = pre ++ r :: post → r ∉ pre →
  remove [r] s =
  Done {[len pre := r]}
    (set_log (log s ++ [EvLength (length s) (length s - 1);
                        EvRemove {[len pre := r]}])
       (set_length (length s - 1) (set_records (pre ++ post) s))).
Proof.
  intros (Hl & Hs & Hg & _) Hf Hr Hrec Hpre. unfold remove.
  rewrite unfilter_idle by done. simpl.
  destruct (remove_plan_single pre post r Hr Hpre) as (Hrr & Hd).
  rewrite Hrec, Hrr, Hd. unfold remove_indices. simpl.
  rewrite remove_at_middle. rewrite trigger_eq, notify_eq. simpl.
  rewrite Hs, Hl, Hrec.
  assert (len (pre ++ r :: post) - 1 = len (pre ++ post)) as Hlen.
  { unfold len. rewrite !length_app. simpl. lia. }
  rewrite bool_decide_eq_false_2 by lia.
  rewrite <- Hlen, <- app_assoc. done.
Qed.

(** X5. Adding nothing: [add([])] on an unfiltered collection returns
    the empty index list and changes nothing; on a filtered collection it
    still lifts the filter first, restoring the dataset of the undo
    buffer with a reset notification, and then adds nothing. *)
Theorem add_of_nothing (i : option Z) (s : collection) :
  at_boundary s →
  (filtered s = false → add [] i s = Done [] s) ∧
  (filtered s = true →
   ∃ base s1, _uRecords s = Some base ∧ add [] i s = Done [] s1 ∧
     records s1 = base ∧ filtered s1 = false ∧ _uRecords s1 = None ∧
     ∃ evs, log s1 = log s ++ evs ∧ reset_notifications evs = [base] ∧
            add_notifications evs = []).
Proof.
  intros (Hl & Hs & Hg & Hu). split; intros Hf; unfold add.
  - by rewrite unfilter_idle.
  - destruct (Hu Hf) as [base Hb]. exists base. unfold unfilter. rewrite Hf.
    rewrite (reset_restore base) by done. simpl.
    eexists. split; [done|]. split; [reflexivity|]. simpl. rewrite Hs.
    repeat split. case_bool_decide; events; done.
Qed.

Lemma add_of_nothing_witness :
  at_boundary abcd ∧ add [] (Some 2) abcd = Done [] abcd.
Proof.
  assert (at_boundary abcd) as H by concrete_boundary.
  split; [exact H|]. exact (proj1 (add_of_nothing (Some 2) abcd H) eq_refl).
Defined.

(** X6. Unknown records: [remove] called with records none of which is
    in the (unfiltered) collection returns the empty map and leaves the
    collection exactly as it was, without any notification. *)
Theorem remove_of_unknown_records (rec : list entry) (s : collection) :
  at_boundary s → filtered s = false →
  Forall (λ r, r ∉ records s) (visited rec) →
  remove rec s = Done ∅ s.
Proof.
  intros (Hl & Hs & Hg & _) Hf Hall. unfold remove.
  rewrite unfilter_idle by done. simpl.
  assert (remove_plan (records s) rec = Plan [] ∅ 0 0) as ->.
  { unfold remove_plan. generalize (Plan [] ∅ 0 0).
    induction Hall as [|r l Hr _ IH]; intros p; simpl; [done|].
    unfold place at 2. unfold enyo_indexOf.
    rewrite index_from_missing by done. simpl. apply IH. }
  simpl. unfold remove_indices. simpl. rewrite notify_eq. simpl.
  rewrite bool_decide_eq_true_2 by done.
  destruct s; simpl in *. subst. by rewrite app_nil_r.
Qed.

Lemma remove_of_unknown_records_witness :
  at_boundary abcd ∧ filtered abcd = false ∧
  Forall (λ r, r ∉ records abcd) (visited [Raw 9%nat]) ∧
  remove [Raw 9%nat] abcd = Done ∅ abcd.
Proof.
  assert (at_boundary abcd) as H by concrete_boundary.
  assert (Forall (λ r, r ∉ records abcd) (visited [Raw 9%nat])) as H2.
  { constructor; [|constructor]. apply (bool_decide_unpack _). vm_compute. exact I. }
  split; [exact H|]. split; [reflexivity|]. split; [exact H2|].
  exact (remove_of_unknown_records [Raw 9%nat] abcd H eq_refl H2).
Defined.

(** X7. One record: [remove(r)] on an unfiltered collection that holds
    [r] takes out its first occurrence and nothing else, returns the map
    with that one index, lowers the length by one and sends one length
    notification followed by one remove notification. *)
Theorem remove_of_one_record (r : entry) (pre post : list entry) (s : collection) :
  at_boundary s → filtered s = false → present r = true →
  records s = pre ++ r :: post → r ∉ pre →
  ∃ s', remove [r] s = Done {[len pre := r]} s' ∧
    records s' = pre ++ post ∧ length s' = length s - 1 ∧
    log s' = log s ++ [EvLength (length s) (length s - 1);
                       EvRemove {[len pre := r]}].
Proof.
  intros Hb Hf Hr Hrec Hpre. rewrite (remove_single r pre post s) by done.
  by eexists.
Qed.

Lemma remove_of_one_record_witness :
  at_boundary abcd ∧ (recB ∉ [recA]) ∧
  ∃ s', remove [recB] abcd = Done {[len [recA] := recB]} s' ∧
    records s' = [recA] ++ [recC; recD] ∧ length s' = length abcd - 1 ∧
    log s' = log abcd ++ [EvLength (length abcd) (length abcd - 1);
                          EvRemove {[len [recA] := recB]}].
Proof.
  assert (at_boundary abcd) as H by concrete_boundary.
  assert (recB ∉ [recA]) as H2.
  { apply (bool_decide_unpack _). vm_compute. exact I. }
  split; [exact H|]. split; [exact H2|].
  exact (remove_of_one_record recB [recA] [recC; recD] abcd H eq_refl eq_refl
           eq_refl H2).
Defined.

(** What [add] of one entry leaves, when the entry is stored as it is: an
    instance, or a data hash under lazy instantiation. *)
Lemma add_single (r : entry) (i : option Z) (s s1 : collection) (idx : list Z) :
  at_boundary s → filtered s = false → present r = true →
  instanceAllRecords s = false ∨ is_model r = true →
  add [r] i s = Done idx s1 →
  let i0 := Z.to_nat (normalize_index i (length s)) in
  records s1 = take i0 (records s) ++ r :: drop i0 (records s) ∧
  (i0 ≤ List.length (records s))%nat ∧
  at_boundary s1 ∧ filtered s1 = false ∧ length s1 = length s + 1.
Proof.
  intros Hb Hf Hr Hlazy Hadd.
  pose proof (add_boundary [r] i s Hb) as Hb1. rewrite Hadd in Hb1. simpl in Hb1.
  destruct Hb as (Hl & Hs & Hg & _).
  pose proof (normalize_index_range i (length s)) as Hrange.
  assert (0 ≤ length s) as Hpos by (rewrite Hl; unfold len; lia).
  specialize (Hrange Hpos).
  unfold add in Hadd. rewrite unfilter_idle in Hadd by done. cbn [bind] in Hadd.
  assert (∃ idx', add_scan 0 (normalize_index i (length s)) [r] s
                  = Done ([r], idx') s) as (idx' & Hscan).
  { destruct r as [|a|a]; [done| |]; simpl in *.
    - destruct Hlazy as [Hlazy|?]; [|done]. rewrite Hlazy in *.
      destruct (truthy _); [done|]. by eexists.
    - by eexists. }
  rewrite Hscan in Hadd. simpl in Hadd.
  rewrite splice_insert in Hadd by (rewrite <- Hl; lia).
  assert (records s1 = take (Z.to_nat (normalize_index i (length s))) (records s)
                       ++ r :: drop (Z.to_nat (normalize_index i (length s))) (records s)
          ∧ filtered s1 = false) as (Hrec & Hf1).
  { destruct idx'; inversion Hadd; subst; rewrite ?trigger_eq, ?notify_eq; by simpl. }
  cbv zeta. unfold len in Hl.
  split; [done|]. split; [lia|].
  split; [done|]. split; [done|].
  destruct Hb1 as (Hl1 & _). rewrite Hl1, Hrec. unfold len.
  rewrite length_app, length_take. simpl. rewrite length_drop. lia.
Qed.

(** X8. Adding a record and removing it again is a round trip: for a
    record that is not yet in the (unfiltered) collection and is stored
    as it is passed (an instance, or a data hash under lazy
    instantiation), [remove] after [add] at any index finds it at the
    index [add] put it, returns that index and leaves the slots and the
    length as they were before the [add]. *)
Theorem add_then_remove_restores (r : entry) (i : option Z) (s s1 : collection)
    (idx : list Z) :
  at_boundary s → filtered s = false →
  present r = true → r ∉ records s →
  instanceAllRecords s = false ∨ is_model r = true →
  add [r] i s = Done idx s1 →
  ∃ s2, remove [r] s1 = Done {[normalize_index i (length s) := r]} s2 ∧
        records s2 = records s ∧ length s2 = length s.
Proof.
  intros Hb Hf Hr Hnew Hlazy Hadd.
  destruct (add_single r i s s1 idx Hb Hf Hr Hlazy Hadd)
    as (Hrec & Hi0 & Hb1 & Hf1 & Hl1).
  pose proof (normalize_index_range i (length s)) as Hrange.
  destruct Hb as (Hl & _).
  assert (0 ≤ length s) as Hpos by (rewrite Hl; unfold len; lia).
  specialize (Hrange Hpos).
  assert (r ∉ take (Z.to_nat (normalize_index i (length s))) (records s)) as Hpre.
  { intros Hin. apply Hnew. apply elem_of_take in Hin as (j & Hj & _).
    by eapply list_elem_of_lookup_2. }
  rewrite (remove_single r _ _ s1 Hb1 Hf1 Hr Hrec Hpre).
  assert (len (take (Z.to_nat (normalize_index i (length s))) (records s))
          = normalize_index i (length s)) as ->.
  { unfold len. rewrite length_take. lia. }
  eexists. split; [reflexivity|]. simpl.
  split; [apply take_drop|lia].
Qed.

Lemma add_then_remove_restores_witness :
  at_boundary only_a ∧ (recB ∉ records only_a) ∧
  ∃ s2, remove [recB] (state_of (add [recB] (Some 1) only_a))
        = Done {[normalize_index (Some 1) (length only_a) := recB]} s2 ∧
        records s2 = records only_a ∧ length s2 = length only_a.
Proof.
  assert (at_boundary only_a) as H by concrete_boundary.
  assert (recB ∉ records only_a) as H2.
  { apply (bool_decide_unpack _). vm_compute. exact I. }
  split; [exact H|]. split; [exact H2|].
  exact (add_then_remove_restores recB (Some 1) only_a _ [1] H eq_refl eq_refl H2
           (or_introl eq_refl) eq_refl).
Defined.

(** ** Removing records in the order of the collection *)

Lemma index_from_bound e l : ∀ i, index_from e l i < i + len l ∨ index_from e l i = -1.
Proof.
  induction l as [|y l IH]; intros i; simpl; [by right|].
  case_bool_decide; [left; unfold len; simpl; lia|].
  destruct (IH (i + 1)) as [H'|H']; [left|by right].
  unfold len in *. simpl. lia.
Qed.

Lemma ascending_from_snoc l : ∀ b i,
  ascending_from b (l ++ [i]) = true →
  ascending_from b l = true ∧ Forall (λ k, b < k < i) l ∧ b < i.
Proof.
  induction l as [|k l IH]; intros b i H; simpl in *.
  - apply andb_prop in H as (H%Z.ltb_lt & _). by repeat split.
  - apply andb_prop in H as (Hk%Z.ltb_lt & H).
    destruct (IH _ _ H) as (Hasc & Hall & Hki).
    split; [by rewrite Hasc, (proj2 (Z.ltb_lt _ _))|]. split; [|lia].
    constructor; [lia|]. eapply Forall_impl; [exact Hall|]. simpl. lia.
Qed.

(** The first loop of [remove] on found indices that come in ascending
    order: each one is put at the end of the list. *)
Lemma plan_ascending recs l : ∀ p b,
  m p = 0 → x p = Z.max 0 b → (b = -1 → rr p = []) → -1 ≤ b →
  ascending_from b (List.filter (λ i, -1 <? i) ((λ r, enyo_indexOf r recs) <$> l))
    = true →
  rr (foldl (place recs) p l)
  = rr p ++ List.filter (λ i, -1 <? i) ((λ r, enyo_indexOf r recs) <$> l).
Proof.
  induction l as [|r l IH]; intros p b Hm Hx Hnil Hb Hasc; simpl in *.
  { by rewrite app_nil_r. }
  unfold place at 2. cbv zeta.
  destruct (-1 <? enyo_indexOf r recs) eqn:Hi; [|by eapply IH].
  simpl in Hasc. apply andb_prop in Hasc as (Hbi%Z.ltb_lt & Hasc).
  apply Z.ltb_lt in Hi. rewrite Hm.
  destruct (enyo_indexOf r recs <=? 0) eqn:H0.
  - apply Z.leb_le in H0. assert (enyo_indexOf r recs = 0) as E0 by lia.
    assert (b = -1) as Eb by lia. rewrite (Hnil Eb).
    rewrite (IH _ (enyo_indexOf r recs)); simpl; try done; lia.
  - apply Z.leb_gt in H0.
    rewrite (proj2 (Z.leb_le (x p) (enyo_indexOf r recs))) by lia.
    rewrite (IH _ (enyo_indexOf r recs)); simpl; try done; try lia.
    by rewrite <- app_assoc.
Qed.

Lemma without_from_app idxs a : ∀ j b,
  without_from j idxs (a ++ b)
  = without_from j idxs a ++ without_from (j + len a) idxs b.
Proof.
  induction a as [|e a IH]; intros j b; simpl.
  { unfold len. simpl. by rewrite Z.add_0_r. }
  rewrite IH. replace (j + 1 + len a) with (j + len (e :: a))
    by (unfold len; simpl; lia).
  by case_bool_decide.
Qed.

Lemma without_from_kept idxs l : ∀ j,
  Forall (λ k, k < j) idxs → without_from j idxs l = l.
Proof.
  induction l as [|e l IH]; intros j Hall; simpl; [done|].
  rewrite bool_decide_eq_false_2.
  - rewrite IH; [done|]. eapply Forall_impl; [exact Hall|]. simpl. lia.
  - intros Hin. rewrite Forall_forall in Hall. specialize (Hall _ Hin). lia.
Qed.

Lemma without_from_ext idxs idxs' l : ∀ j,
  (∀ k, j ≤ k < j + len l → k ∈ idxs ↔ k ∈ idxs') →
  without_from j idxs l = without_from j idxs' l.
Proof.
  induction l as [|e l IH]; intros j Hext; simpl; [done|].
  rewrite (IH (j + 1)).
  - assert (j ∈ idxs ↔ j ∈ idxs') as Hj.
    { apply Hext. unfold len. simpl. lia. }
    do 2 case_bool_decide; tauto.
  - intros k Hk. apply Hext. unfold len in *. simpl. lia.
Qed.

Lemma without_last idxs (i : Z) (l : list entry) :
  Forall (λ k, k < i) idxs → 0 ≤ i < len l →
  without (idxs ++ [i]) l = without idxs (remove_at l i).
Proof.
  intros Hall Hi. unfold remove_at. rewrite splice_delete by done.
  destruct (l !! Z.to_nat i) as [e|] eqn:He.
  2:{ apply lookup_ge_None in He. unfold len in Hi. lia. }
  rewrite <- (take_drop_middle l (Z.to_nat i) e He) at 1.
  unfold without. rewrite !without_from_app.
  assert (len (take (Z.to_nat i) l) = i) as Hlen.
  { unfold len in *. rewrite length_take. lia. }
  rewrite Hlen. rewrite Z.add_0_l. simpl.
  rewrite bool_decide_eq_true_2 by (apply elem_of_app; right; by left).
  rewrite (without_from_kept (idxs ++ [i]) _ (i + 1)).
  2:{ apply Forall_app. split.
      - eapply Forall_impl; [exact Hall|]. simpl. intros. lia.
      - repeat constructor. lia. }
  rewrite (without_from_kept idxs _ i) by done.
  f_equal. apply without_from_ext. intros k Hk. rewrite elem_of_app.
  split; [|by left]. intros [H|H]; [done|].
  apply list_elem_of_singleton in H. lia.
Qed.

(** The second loop of [remove] on an ascending list of indices of the
    array takes out exactly the elements at these indices. *)
Lemma remove_indices_ascending idxs : ∀ l,
  ascending idxs = true → Forall (λ k, k < len l) idxs →
  remove_indices idxs l = without idxs l ∧
  len (remove_indices idxs l) = len l - len idxs.
Proof.
  induction idxs as [|i idxs IH] using rev_ind; intros l Hasc Hall.
  { unfold remove_indices, without. simpl.
    rewrite without_from_kept by done. split; [done|]. unfold len. simpl. lia. }
  apply ascending_from_snoc in Hasc as (Hasc & Hlt & Hi).
  apply Forall_app in Hall as (Hall & Hil).
  rewrite Forall_singleton in Hil.
  assert (remove_indices (idxs ++ [i]) l = remove_indices idxs (remove_at l i)) as ->.
  { unfold remove_indices. by rewrite rev_unit. }
  assert (len (remove_at l i) = len l - 1) as Hlen.
  { unfold remove_at. rewrite splice_delete by lia. unfold len in *.
    rewrite length_app, length_take, length_drop. lia. }
  destruct (IH (remove_at l i)) as (Hrec & Hl'); [done| |].
  { rewrite Hlen. eapply Forall_impl; [exact Hlt|]. simpl. lia. }
  split.
  - rewrite Hrec. symmetry. apply without_last; [|lia].
    eapply Forall_impl; [exact Hlt|]. simpl. lia.
  - rewrite Hl', Hlen. unfold len. rewrite length_app. simpl. lia.
Qed.

Lemma found_indices_in_range recs rec :
  Forall (λ k, k < len recs) (found_indices recs rec).
Proof.
  unfold found_indices. apply Forall_forall. intros k Hk.
  apply list_elem_of_In, filter_In in Hk as (Hk & _).
  apply list_elem_of_In, list_elem_of_fmap in Hk as (r & -> & _).
  unfold enyo_indexOf. destruct (index_from_bound r recs 0) as [H|H]; [lia|].
  rewrite H. unfold len. lia.
Qed.

(** X9. Records removed in the order in which they sit in the
    collection: when the indices at which [remove] finds the records of
    the batch come in ascending order (records that are not found do not
    count), it takes out exactly the elements at these indices, the
    length goes down by their number, and the returned map has exactly
    these indices as keys, each with the record found there. *)
Theorem remove_in_collection_order (rec : list entry) (s : collection) :
  at_boundary s → filtered s = false →
  ascending (found_indices (records s) rec) = true →
  ∃ dm s', remove rec s = Done dm s' ∧
    records s' = without (found_indices (records s) rec) (records s) ∧
    length s' = length s - len (found_indices (records s) rec) ∧
    (∀ i, is_Some (dm !! i) ↔ i ∈ found_indices (records s) rec) ∧
    (∀ i r, dm !! i = Some r → nth_z (records s) i = Some r).
Proof.
  intros Hb Hf Hasc.
  destruct (remove_spec rec s Hb) as (s1 & Hu & s' & Hrem & Hrec & Hb' & _).
  rewrite unfilter_idle in Hu by done. inversion Hu; subst s1. clear Hu.
  assert (rr (remove_plan (records s) rec) = found_indices (records s) rec) as Hrr.
  { unfold remove_plan.
    rewrite (plan_ascending (records s) (visited rec) _ (-1)); try done. }
  rewrite Hrr in Hrec.
  destruct (remove_indices_ascending _ (records s) Hasc
              (found_indices_in_range _ _)) as (Hw & Hlen).
  eexists _, s'. split; [exact Hrem|]. split; [by rewrite Hrec|].
  split.
  { destruct Hb as (Hl & _), Hb' as (Hl' & _). by rewrite Hl', Hrec, Hlen, Hl. }
  split.
  - intros i. rewrite remove_plan_keys. unfold found_indices. split.
    + intros (r & Hr & Hi & Hpos). apply list_elem_of_In, filter_In.
      split; [|by apply Z.ltb_lt].
      apply list_elem_of_In, list_elem_of_fmap. by exists r.
    + intros Hi. apply list_elem_of_In, filter_In in Hi as (Hi & Hpos).
      apply list_elem_of_In, list_elem_of_fmap in Hi as (r & -> & Hr).
      exists r. split; [done|]. split; [done|]. by apply Z.ltb_lt.
  - intros i r. apply remove_plan_values.
Qed.

Lemma remove_in_collection_order_witness :
  at_boundary abcd ∧
  ascending (found_indices (records abcd) [recB; recD]) = true ∧
  ∃ dm s', remove [recB; recD] abcd = Done dm s' ∧
    records s' = without (found_indices (records abcd) [recB; recD]) (records abcd) ∧
    length s' = length abcd - len (found_indices (records abcd) [recB; recD]) ∧
    (∀ i, is_Some (dm !! i) ↔ i ∈ found_indices (records abcd) [recB; recD]) ∧
    (∀ i r, dm !! i = Some r → nth_z (records abcd) i = Some r).
Proof.
  assert (at_boundary abcd) as H by concrete_boundary.
  split; [exact H|]. split; [reflexivity|].
  exact (remove_in_collection_order [recB; recD] abcd H eq_refl eq_refl).
Defined.

(** ** Resets under a filter *)

(** X10. [reset(array)] on a filtered collection replaces the filtered
    view only: the collection stays filtered and the undo buffer keeps the
    unfiltered dataset, so that a following [reset()] brings that dataset
    back and the array is gone. *)
Theorem reset_to_array_keeps_the_filter (base l : list entry) (s : collection) :
  at_boundary s → filtered s = true → _uRecords s = Some base →
  ∃ s1 s2, reset (Some l) s = Done tt s1 ∧
    records s1 = l ∧ length s1 = len l ∧
    filtered s1 = true ∧ _uRecords s1 = Some base ∧
    reset None s1 = Done tt s2 ∧
    records s2 = base ∧ length s2 = len base ∧
    filtered s2 = false ∧ _uRecords s2 = None.
Proof.
  intros (Hl & Hs & Hg & _) Hf Hu.
  rewrite reset_array_plain by (by rewrite Hg).
  eexists _, _. split; [reflexivity|]. simpl.
  do 4 (split; [done|]).
  erewrite reset_restore by done. by repeat split.
Qed.

Lemma reset_to_array_keeps_the_filter_witness :
  at_boundary abcd_filtered ∧ filtered abcd_filtered = true ∧
  _uRecords abcd_filtered = Some (records abcd) ∧
  ∃ s1 s2, reset (Some [recC]) abcd_filtered = Done tt s1 ∧
    records s1 = [recC] ∧ length s1 = len [recC] ∧
    filtered s1 = true ∧ _uRecords s1 = Some (records abcd) ∧
    reset None s1 = Done tt s2 ∧
    records s2 = records abcd ∧ length s2 = len (records abcd) ∧
    filtered s2 = false ∧ _uRecords s2 = None.
Proof.
  assert (at_boundary abcd_filtered) as H by concrete_boundary.
  split; [exact H|]. split; [reflexivity|]. split; [reflexivity|].
  exact (reset_to_array_keeps_the_filter (records abcd) [recC] abcd_filtered H
           eq_refl eq_refl).
Defined.

(** ** What a filter pass notifies *)

Lemma reset_silent arg s :
  silenced s = true → log (state_of (reset arg s)) = log s.
Proof.
  intros Hs. unfold reset. destruct arg as [rs|].
  - rewrite notify_eq, trigger_eq. destruct (_ && _); simpl; rewrite Hs;
      case_bool_decide; simpl; by rewrite ?app_nil_r.
  - destruct (filtered s); [|done]. destruct (_uRecords s); [|done].
    rewrite notify_eq, trigger_eq. simpl. rewrite Hs.
    case_bool_decide; simpl; by rewrite ?app_nil_r.
Qed.

(** While the collection is silenced, the calls of a filter method reach
    no observer and no listener. *)
Lemma run_calls_silent cs : ∀ s,
  silenced s = true → log (state_of (run_calls cs s)) = log s.
Proof.
  induction cs as [|[i|arg] cs IH]; intros s Hs; cbn [run_calls]; [done| |].
  - destruct (at_in_place i s) as (_ & _ & _ & _ & Hs' & _ & Hlog).
    rewrite IH by congruence. done.
  - pose proof (reset_silent arg s Hs) as Hlog.
    destruct (reset_flags arg s) as (Hs' & _).
    destruct (reset arg s) as [[] s1|e s1]; simpl in *; [|done].
    rewrite IH by congruence. done.
Qed.

Opaque reset.

(** X11. A filter pass notifies only through the reset made for the value
    its method returns: the resets the method makes itself stay
    unreported, the collection being silenced while it runs, so that the
    pass sends nothing when the method returns a falsy value, and
    otherwise at most one length notification followed by one reset
    notification carrying the records left visible. *)
Theorem filter_pass_reports_only_its_last_reset (f : collection → filter_run)
    (s : collection) :
  at_boundary s →
  ∃ s', _filterContent (Some f) s = Done tt s' ∧
    (log s' = log s ∨
     log s' = log s ++ [EvReset (records s')] ∨
     ∃ o, log s' = log s ++ [EvLength o (length s'); EvReset (records s')]) ∧
    ((∀ s0, returned (f s0) = ReturnsFalsy) → log s' = log s).
Proof.
  intros Hb. pose proof Hb as (Hl & Hs & Hg & Hu).
  unfold _filterContent. rewrite Hg. cbn [negb andb].
  destruct (negb (length s =? 0) || buffer_nonempty s).
  2:{ exists s. split; [done|]. split; [by left|done]. }
  cbv zeta. set (s0 := set_silenced true (set_filtering true s)).
  destruct (run_calls_returns (calls (f s0)) s0) as (s1 & Hrun & Hl1 & Hu1 & Hg1);
    [done|done|].
  pose proof (run_calls_silent (calls (f s0)) s0 eq_refl) as Hlog.
  rewrite Hrun in Hlog. unfold s0 in Hlog. simpl in Hlog.
  unfold run_filter_method. rewrite Hrun. simpl. clear Hrun.
  destruct s1 as [rec1 n1 fl1 fg1 si1 ub1 da1 ia1 pk1 mk1 h1 nx1 dd1 pe1 lg1].
  simpl in Hl1, Hu1, Hg1, Hlog. subst n1 fg1 lg1.
  destruct ub1 as [[|e u]|]; destruct fl1;
    try (by destruct (Hu1 eq_refl) as [? ?]);
    destruct (returned (f s0)) as [| |l] eqn:Hret; simpl; run_resets.
  all: eexists; (split; [reflexivity|]).
  all: unfold buffer_nonempty; simpl.
  all: try match goal with
           | |- context [match ?x with [] => _ | _ :: _ => _ end] => destruct x
           end.
  all: simpl; split;
    [|intros Hall; specialize (Hall s0); rewrite Hret in Hall; by try done].
  all: try (by left).
  all: case_bool_decide; simpl; [right; left|right; right; eexists]; done.
Qed.

Lemma filter_pass_reports_only_its_last_reset_witness :
  at_boundary abcd ∧
  ∃ s', _filterContent (Some keep_b) abcd = Done tt s' ∧
    (log s' = log abcd ∨
     log s' = log abcd ++ [EvReset (records s')] ∨
     ∃ o, log s' = log abcd ++ [EvLength o (length s'); EvReset (records s')]) ∧
    ((∀ s0, returned (keep_b s0) = ReturnsFalsy) → log s' = log abcd).
Proof.
  assert (at_boundary abcd) as H by concrete_boundary.
  split; [exact H|]. exact (filter_pass_reports_only_its_last_reset keep_b abcd H).
Defined.

Transparent reset.

(** ** What merge adds *)

Lemma visited_cons_present r l : present r = true → visited (r :: l) = r :: visited l.
Proof. by destruct r. Qed.


Lemma merge_loop_cons pk mk r rest h local toadd :
  present r = true →
  merge_loop pk mk (r :: rest) h local toadd =
  if bool_decide (is_Some mk) || defined (get h r pk) then
    match candidates_loop h pk mk r (get h r pk) [] local with
    | Some (c, local') => merge_loop pk mk rest (apply_attrs c r h) local' toadd
    | None => merge_loop pk mk rest h local (toadd ++ [r])
    end
  else merge_loop pk mk rest h local (toadd ++ [r]).
Proof. by destruct r. Qed.




(** The array [add] of [merge] collects entries of the batch, in order. *)
Lemma merge_loop_collects pk mk batch : ∀ h local toadd,
  ∃ kept, (merge_loop pk mk batch h local toadd).2 = toadd ++ kept ∧
          sublist kept (visited batch).
Proof.
  induction batch as [|r batch IH]; intros h local toadd.
  { exists []. simpl. by rewrite app_nil_r. }
  destruct (present r) eqn:Hr.
  2:{ destruct r; [|done|done]. exists []. simpl. by rewrite app_nil_r. }
  rewrite merge_loop_cons, visited_cons_present by done.
  assert (∃ kept, (merge_loop pk mk batch h local (toadd ++ [r])).2 = toadd ++ kept
                  ∧ sublist kept (r :: visited batch)) as Hadd.
  { destruct (IH h local (toadd ++ [r])) as (kept & -> & Hsub).
    exists (r :: kept). split; [by rewrite <- app_assoc|by constructor]. }
  destruct (_ || _); [|done].
  destruct (candidates_loop _ _ _ _ _ _ _) as [[c local']|]; [|done].
  destruct (IH (apply_attrs c r h) local' toadd) as (kept & -> & Hsub).
  exists kept. split; [done|by constructor].
Qed.

(** The slots [add] leaves on an unfiltered collection. *)
Lemma add_records (batch : list entry) (i : option Z) (s : collection) :
  at_boundary s → filtered s = false →
  match add batch i s with
  | Done _ s' =>
      ∃ inserted, Forall2 materialized batch inserted ∧
        (instanceAllRecords s = false → inserted = batch) ∧
        records s' = take (Z.to_nat (normalize_index i (length s))) (records s)
                     ++ inserted
                     ++ drop (Z.to_nat (normalize_index i (length s))) (records s)
  | Thrown _ s' => records s' = records s
  end.
Proof.
  intros (Hl & Hs & Hg & _) Hf.
  pose proof (normalize_index_range i (length s)) as Hrange.
  assert (0 ≤ length s) as Hpos by (rewrite Hl; unfold len; lia).
  specialize (Hrange Hpos).
  unfold add. rewrite unfilter_idle by done. cbn [bind].
  destruct batch as [|e batch].
  { exists []. split; [constructor|]. split; [done|]. simpl. by rewrite take_drop. }
  pose proof (add_scan_view (e :: batch) 0 (normalize_index i (length s)) s) as Hv.
  pose proof (add_scan_entries (e :: batch) 0 (normalize_index i (length s)) s) as He.
  destruct (add_scan 0 (normalize_index i (length s)) (e :: batch) s) as [p s2|err s2].
  - destruct (He p s2 eq_refl) as (Hm & Hlazy). simpl in Hv.
    destruct Hv as (Hrec & _). cbn [bind].
    exists p.1. split; [done|]. split; [done|].
    assert (∀ s3 : collection, records (match p.2 with
                        | [] => s3
                        | _ :: _ => triggerEvent (EvAdd p.2) s3
                        end) = records s3) as Hm'.
    { intros s3. destruct p.2; [done|]. by rewrite trigger_eq. }
    rewrite Hm', notify_eq. simpl. rewrite Hrec.
    apply splice_insert. rewrite <- Hl. lia.
  - simpl in *. by destruct Hv as (Hrec & _).
Qed.

(** X13. [merge] never takes anything away: on an unfiltered collection
    every slot stays in its place, and what is new comes behind them: the
    items of the batch that matched no record, in the order of the batch
    (as instances, where the collection instantiates at once). *)
Theorem merge_keeps_the_slots (batch : list entry) (s : collection) :
  at_boundary s → filtered s = false →
  ∃ kept added,
    sublist kept (visited batch) ∧ Forall2 materialized kept added ∧
    records (state_of (merge (Some batch) s)) = records s ++ added.
Proof.
  intros Hb Hf. unfold merge.
  destruct (merge_loop_collects (primaryKey s) (mergeKeys s) batch (heap s)
              (records s) []) as (kept & Hkept & Hsub).
  destruct (merge_loop _ _ _ _ _ _) as [h toadd]. simpl in Hkept. subst toadd.
  assert (at_boundary (set_heap h s)) as Hb'.
  { eapply boundary_view; [|exact Hb]. by repeat split. }
  destruct kept as [|e kept].
  { exists [], []. simpl. split; [done|]. split; [constructor|].
    by rewrite app_nil_r. }
  pose proof (add_records (e :: kept) None (set_heap h s) Hb' Hf) as Hadd.
  destruct (add (e :: kept) None (set_heap h s)) as [idx s'|err s']; simpl in *.
  - destruct Hadd as (inserted & Hm & _ & Hrec).
    exists (e :: kept), inserted. split; [done|]. split; [done|].
    rewrite Hrec. destruct Hb as (Hl & _). rewrite Hl. unfold len.
    rewrite Nat2Z.id. by rewrite take_ge, drop_ge, app_nil_r by lia.
  - exists [], []. split; [apply sublist_nil_l|]. split; [constructor|].
    by rewrite app_nil_r.
Qed.

Lemma merge_keeps_the_slots_witness :
  at_boundary two ∧
  ∃ kept added,
    sublist kept (visited [Raw 21%nat; Raw 9%nat]) ∧
    Forall2 materialized kept added ∧
    records (state_of (merge (Some [Raw 21%nat; Raw 9%nat]) two))
    = records two ++ added.
Proof.
  assert (at_boundary two) as H by concrete_boundary.
  split; [exact H|].
  exact (merge_keeps_the_slots [Raw 21%nat; Raw 9%nat] two H eq_refl).
Defined.

(** ** Records made by the collection *)

Lemma unfilter_with_store h n s s1 :
  unfilter s = Done tt s1 →
  unfilter (set_next n (set_heap h s)) = Done tt (set_next n (set_heap h s1)).
Proof.
  destruct s as [rec0 n0 fl fg si ub da ia pk mk h0 nx dd pe lg].
  unfold unfilter. simpl. destruct fl; [|by intros [= <-]].
  unfold reset. simpl. destruct ub; [|done].
  rewrite !notify_eq, !trigger_eq. simpl. by intros [= <-].
Qed.

(** X14. [createRecord] makes the instance, inserts it and returns it,
    and never raises. It reports the new length but sends no add
    notification, the record it hands to [add] being an instance already.
    The record goes to the index asked for as [add] normalises it, by
    default the length the collection shows when [createRecord] is called:
    the end of an unfiltered collection, but, on a filtered one, the
    length of the filtered view counted in the restored dataset. *)
Theorem createRecord_inserts_without_add_event (attrs : gmap string value)
    (i : option Z) (s : collection) :
  at_boundary s →
  ∃ s1 s', unfilter s = Done tt s1 ∧
    createRecord attrs i s = Done (Rec (next s)) s' ∧
    let wanted := match i with
                  | Some i => if 0 <=? i then i else length s
                  | None => length s
                  end in
    let pos := Z.to_nat (normalize_index (Some wanted) (length s1)) in
    records s' = take pos (records s1) ++ Rec (next s) :: drop pos (records s1) ∧
    length s' = length s1 + 1 ∧
    log s' = log s1 ++ [EvLength (length s1) (length s1 + 1)] ∧
    heap s' !! next s = Some attrs ∧ next s' = S (next s) ∧
    (filtered s = false → i = None → records s' = records s ++ [Rec (next s)]).
Proof.
  intros Hb.
  destruct (unfilter_contract s Hb) as (s1 & Hu & Hb1 & _ & _ & Hheap & _).
  exists s1. destruct Hb1 as (Hl1 & Hs1 & _).
  set (wanted := match i with
                 | Some i => if 0 <=? i then i else length s
                 | None => length s
                 end).
  pose proof (normalize_index_range (Some wanted) (length s1)) as Hrange.
  assert (0 ≤ length s1) as Hpos by (rewrite Hl1; unfold len; lia).
  specialize (Hrange Hpos).
  unfold createRecord, store_createRecord. cbv beta iota zeta.
  change (length (set_next (S (next s)) (set_heap (<[next s:=attrs]> (heap s)) s)))
    with (length s).
  fold wanted. unfold add.
  rewrite (unfilter_with_store _ _ _ _ Hu). cbn [bind add_scan].
  change (length (set_next (S (next s)) (set_heap (<[next s:=attrs]> (heap s)) s1)))
    with (length s1).
  set (i0 := normalize_index (Some wanted) (length s1)) in *.
  rewrite notify_eq. cbn [bind]. simpl.
  rewrite splice_insert by (rewrite <- Hl1; lia).
  rewrite Hs1, Hl1.
  assert (len (take (Z.to_nat i0) (records s1) ++ [Rec (next s)]
               ++ drop (Z.to_nat i0) (records s1)) = len (records s1) + 1) as Hlen.
  { rewrite Hl1 in Hrange. unfold len in *.
    rewrite !length_app, length_take, length_drop. simpl. lia. }
  rewrite Hlen. rewrite bool_decide_eq_false_2 by lia.
  eexists. split; [exact Hu|]. split; [reflexivity|]. simpl.
  split; [done|]. split; [done|]. split; [done|].
  split; [by rewrite lookup_insert_eq|]. split; [done|].
  intros Hf ->. rewrite unfilter_idle in Hu by done. inversion Hu; subst s1.
  subst i0 wanted. destruct Hb as (Hl & _). rewrite Hl in *.
  assert (normalize_index (Some (len (records s))) (len (records s))
          = len (records s)) as ->.
  { unfold normalize_index. repeat case_match; lia. }
  unfold len. rewrite Nat2Z.id. by rewrite take_ge, drop_ge by lia.
Qed.

Lemma createRecord_inserts_without_add_event_witness :
  at_boundary abcd ∧
  ∃ s', createRecord ∅ None abcd = Done (Rec (next abcd)) s' ∧
        records s' = records abcd ++ [Rec (next abcd)].
Proof.
  assert (at_boundary abcd) as H by concrete_boundary.
  split; [exact H|].
  destruct (createRecord_inserts_without_add_event ∅ None abcd H)
    as (s1 & s' & _ & Hc & _ & _ & _ & _ & _ & Hend).
  exists s'. split; [exact Hc|]. exact (Hend eq_refl eq_refl).
Defined.

(** ** A fetch that replaces the records *)







(** ** What can go wrong *)

Lemma add_scan_thrown_lazy batch : ∀ j i s e s',
  add_scan j i batch s = Thrown e s' → instanceAllRecords s = false.
Proof.
  induction batch as [|r batch IH]; intros j i s e s' H; simpl in H; [done|].
  destruct r as [|a|a]; [done| |].
  - destruct (instanceAllRecords s) eqn:Hia; [|done].
    destruct (add_scan (j + 1) i batch _) as [p s2|e2 s2] eqn:Hscan; [done|].
    apply IH in Hscan. by simpl in Hscan.
  - destruct (add_scan (j + 1) i batch s) as [p s2|e2 s2] eqn:Hscan; [done|].
    by eapply IH.
Qed.

Lemma add_thrown batch i s e s' :
  at_boundary s → add batch i s = Thrown e s' →
  e = InvalidRecordState ∧ instanceAllRecords s = false.
Proof.
  intros Hb Hadd.
  destruct (unfilter_contract s Hb) as (s1 & Hu & _ & _ & _ & _ & Hia & _).
  unfold add in Hadd. rewrite Hu in Hadd. cbn [bind] in Hadd.
  destruct batch as [|r batch]; [done|].
  destruct (add_scan 0 _ (r :: batch) s1) as [p s2|e2 s2] eqn:Hscan; [done|].
  cbn [bind] in Hadd. inversion Hadd; subst.
  split; [by eapply add_scan_error|].
  rewrite <- Hia. by eapply add_scan_thrown_lazy.
Qed.

Lemma destroy_each_thrown l : ∀ s e s',
  destroy_each l s = Thrown e s' → e = TypeError.
Proof.
  induction l as [|r l IH]; intros s e s' H; simpl in H; [done|].
  destruct r as [|a|a]; simpl in H.
  - by eapply IH.
  - by inversion H.
  - by eapply IH.
Qed.

Lemma createRecord_returns attrs i s :
  at_boundary s → ∃ r s', createRecord attrs i s = Done r s'.
Proof.
  intros Hb. unfold createRecord, store_createRecord. cbv beta iota zeta.
  unfold add.
  destruct (unfilter_contract s Hb) as (s1 & Hu & _).
  rewrite (unfilter_with_store _ _ _ _ Hu). cbn [bind add_scan]. by eexists _, _.
Qed.

Lemma add_scan_raises batch : ∀ j i s,
  instanceAllRecords s = false →
  (∃ e s', add_scan j i batch s = Thrown e s') ↔
  ∃ a, Raw a ∈ visited batch ∧ truthy (prop (heap s) a "destroyed") = true.
Proof.
  induction batch as [|r batch IH]; intros j i s Hl.
  - simpl. split; [by intros (e & s' & H)|].
    intros (a & Ha & _). by apply elem_of_nil in Ha.
  - destruct r as [|a|a]; cbn [add_scan visited].
    + split; [by intros (e & s' & H)|].
      intros (a & Ha & _). by apply elem_of_nil in Ha.
    + rewrite Hl. destruct (truthy (prop (heap s) a "destroyed")) eqn:Ht.
      { split; [|intros _; by eexists _, _].
        intros _. exists a. split; [by left|done]. }
      specialize (IH (j + 1) i s Hl).
      destruct (add_scan (j + 1) i batch s) as [p s2|e2 s2]; cbn [bind].
      * split; [by intros (e & s' & H)|].
        intros (a' & Ha' & Ht'). apply elem_of_cons in Ha' as [Heq|Hin].
        { inversion Heq; subst. congruence. }
        destruct (proj2 IH) as (e & s' & H); [by exists a'|done].
      * split; [intros _|intros _; by eexists _, _].
        destruct (proj1 IH) as (a' & Ha' & Ht'); [by eexists _, _|].
        exists a'. split; [by right|done].
    + specialize (IH (j + 1) i s Hl).
      destruct (add_scan (j + 1) i batch s) as [p s2|e2 s2]; cbn [bind].
      * split; [by intros (e & s' & H)|].
        intros (a' & Ha' & Ht'). apply elem_of_cons in Ha' as [Heq|Hin]; [done|].
        destruct (proj2 IH) as (e & s' & H); [by exists a'|done].
      * split; [intros _|intros _; by eexists _, _].
        destruct (proj1 IH) as (a' & Ha' & Ht'); [by eexists _, _|].
        exists a'. split; [by right|done].
Qed.

Lemma add_raises batch i s :
  at_boundary s →
  (∃ e s', add batch i s = Thrown e s') ↔
  instanceAllRecords s = false ∧
  ∃ a, Raw a ∈ visited batch ∧ truthy (prop (heap s) a "destroyed") = true.
Proof.
  intros Hb.
  destruct (unfilter_contract s Hb) as (s1 & Hu & _ & _ & _ & Hh & Hia & _).
  unfold add. rewrite Hu. cbn [bind]. cbv zeta.
  destruct batch as [|r batch].
  { split; [by intros (e & s' & H)|].
    intros (_ & a & Ha & _). by apply elem_of_nil in Ha. }
  set (b := r :: batch). set (i0 := normalize_index i (length s1)).
  destruct (instanceAllRecords s) eqn:Hi.
  - split; [|by intros [? _]]. intros (e & s' & H).
    destruct (add_scan 0 i0 b s1) as [p s2|e2 s2] eqn:Hscan; [done|].
    apply add_scan_thrown_lazy in Hscan. congruence.
  - pose proof (add_scan_raises b 0 i0 s1 Hia) as Hscan. rewrite Hh in Hscan.
    destruct (add_scan 0 i0 b s1) as [p s2|e2 s2]; cbn [bind].
    + split; [by intros (e & s' & H)|]. intros (_ & Hex).
      destruct (proj2 Hscan Hex) as (e & s' & H). done.
    + split; [|intros _; by eexists _, _]. intros _. split; [done|].
      apply Hscan. by eexists _, _.
Qed.

Lemma destroy_each_raises l : ∀ s,
  (∃ e s', destroy_each l s = Thrown e s') ↔ ∃ a, Raw a ∈ l.
Proof.
  induction l as [|r l IH]; intros s; cbn [destroy_each].
  - split; [by intros (e & s' & H)|]. intros (a & Ha). by apply elem_of_nil in Ha.
  - destruct r as [|a|a]; cbn [destroy_record bind].
    + rewrite IH. split; intros (a & Ha); exists a; [by right|].
      by apply elem_of_cons in Ha as [?|?].
    + split; [|intros _; by eexists _, _]. intros _. exists a. by left.
    + rewrite IH. split; intros (a' & Ha); exists a'; [by right|].
      by apply elem_of_cons in Ha as [?|?].
Qed.

Lemma in_key_order_values (dm : gmap Z entry) (e : entry) :
  e ∈ in_key_order dm ↔ ∃ i, dm !! i = Some e.
Proof.
  unfold in_key_order. rewrite list_elem_of_omap. split.
  - intros (k & _ & Hk). by exists k.
  - intros (i & Hi). exists i. split; [|done]. rewrite merge_sort_Permutation.
    apply list_elem_of_fmap. exists (i, e). split; [done|].
    by apply elem_of_map_to_list.
Qed.

Lemma visited_elem e l : e ∈ visited l → e ∈ l.
Proof.
  induction l as [|x l IH]; [done|]. destruct x as [|a|a]; simpl.
  - intros H. by apply elem_of_nil in H.
  - intros [->|H]%elem_of_cons; [by left|right; by apply IH].
  - intros [->|H]%elem_of_cons; [by left|right; by apply IH].
Qed.

Lemma index_from_member e l : ∀ i, e ∈ l → 0 ≤ i → -1 < index_from e l i.
Proof.
  induction l as [|x l IH]; intros i He Hi; [by apply elem_of_nil in He|].
  simpl. case_bool_decide as Hx; [lia|].
  apply elem_of_cons in He as [->|He]; [done|]. apply IH; [done|lia].
Qed.

(** What [removeAll] hands to [destroyAll]: the records before the first
    absent slot. *)
Lemma removed_values recs e :
  (∃ i, d (remove_plan recs recs) !! i = Some e) ↔ e ∈ visited recs.
Proof.
  assert (∀ r i, enyo_indexOf r recs = i → -1 < i → nth_z recs i = Some r) as Hidx.
  { intros r i Hi Hpos.
    destruct (index_from_found r recs 0 i Hi Hpos) as (_ & Hl); [done|].
    unfold nth_z. rewrite (proj2 (Z.ltb_ge _ _)) by lia.
    by rewrite Z.sub_0_r in Hl. }
  split.
  - intros (i & Hi).
    destruct (proj1 (remove_plan_keys recs recs i)) as (r & Hr & Hri & Hpos);
      [by eexists|].
    apply remove_plan_values in Hi. rewrite (Hidx r i Hri Hpos) in Hi.
    by inversion Hi; subst.
  - intros He. set (i := enyo_indexOf e recs).
    assert (-1 < i) as Hpos.
    { apply index_from_member; [by apply visited_elem|done]. }
    destruct (proj2 (remove_plan_keys recs recs i)) as [e' He'];
      [by exists e|].
    exists i. rewrite He'. f_equal.
    apply remove_plan_values in He'. rewrite (Hidx e i eq_refl Hpos) in He'.
    by inversion He'.
Qed.

Lemma fetch_raises o s :
  at_boundary s →
  (∃ e s', fetch o s = Thrown e s') ↔
  destroy o = true ∧ ∃ a, Raw a ∈ visited (records (state_of (unfilter s))).
Proof.
  intros Hb.
  destruct (unfilter_contract s Hb) as (s1 & Hu & Hb1 & _ & Hf1 & _).
  unfold fetch. rewrite Hu. cbn [bind state_of].
  set (s2 := set_pending (pending s1 ++ [o]) s1).
  assert (at_boundary s2) as Hb2 by (by eapply boundary_ext).
  destruct (remove_spec (records s2) s2 Hb2) as (s2' & Hu2 & s3 & Hrem & _).
  rewrite unfilter_idle in Hu2 by done. inversion Hu2; subst s2'. clear Hu2.
  change (records s2) with (records s1) in Hrem at 2.
  destruct (replace o) eqn:Hro; destruct (destroy o) eqn:Hdo; cbn [andb negb].
  2: { unfold removeAll. rewrite Hrem. cbn [bind].
       split; [by intros (e & s' & H)|by intros [? _]]. }
  3: { split; [by intros (e & s' & H)|by intros [? _]]. }
  all: unfold destroyAll, removeAll; rewrite Hrem; cbn [bind].
  all: match goal with
       | |- context [destroy_each ?l ?s0] =>
           pose proof (destroy_each_raises l s0) as Hde;
           destruct (destroy_each l s0) as [[] s4|e4 s4]; cbn [bind]
       end.
  all: split; [intros (e & s' & H)|intros (_ & a & Ha)].
  all: try done; try (by eexists _, _).
  all: try (split; [done|]; destruct (proj1 Hde) as (a & Ha); [by eexists _, _|];
            exists a; apply removed_values; by apply in_key_order_values).
  all: destruct (proj2 Hde) as (e & s' & H); [|done].
  all: exists a; apply in_key_order_values; by apply removed_values.
Qed.

(** X16. What is raised between public calls, and when: [remove] (so
    [removeAll]), [reset] and [createRecord] always return; [add] raises
    exactly when the collection instantiates lazily and a data hash
    marked destroyed is among the entries it visits, and then the invalid
    record state; [fetch] raises exactly when the destroy option is set
    and a data hash is among the records before the first absent slot
    (once any filter is undone), and then a type error. *)
Theorem only_add_and_destroy_raise (s : collection) :
  at_boundary s →
  (∀ rec, ∃ dm s', remove rec s = Done dm s') ∧
  (∀ arg, ∃ s', reset arg s = Done tt s') ∧
  (∀ attrs i, ∃ r s', createRecord attrs i s = Done r s') ∧
  (∀ batch i,
     (∃ e s', add batch i s = Thrown e s') ↔
     instanceAllRecords s = false ∧
     ∃ a, Raw a ∈ visited batch ∧
          truthy (prop (heap s) a "destroyed") = true) ∧
  (∀ batch i e s', add batch i s = Thrown e s' → e = InvalidRecordState) ∧
  (∀ o,
     (∃ e s', fetch o s = Thrown e s') ↔
     destroy o = true ∧
     ∃ a, Raw a ∈ visited (records (state_of (unfilter s)))) ∧
  (∀ o e s', fetch o s = Thrown e s' → e = TypeError).
Proof.
  intros Hb.
  split. { intros rec. destruct (remove_spec rec s Hb) as (s1 & _ & s' & Hr & _).
           by eexists _, _. }
  split. { intros arg. destruct (reset_contract arg s Hb) as (s' & Hr & _).
           by eexists. }
  split. { intros attrs i. by apply createRecord_returns. }
  split. { intros batch i. by apply add_raises. }
  split. { intros batch i e s' H. by apply (add_thrown batch i s e s'). }
  split. { intros o. by apply fetch_raises. }
  intros o e s' H. unfold fetch in H.
  destruct (unfilter_contract s Hb) as (s1 & Hu & Hb1 & _).
  rewrite Hu in H. cbn [bind] in H.
  assert (at_boundary (set_pending (pending s1 ++ [o]) s1)) as Hb2
    by (by eapply boundary_ext).
  destruct (remove_spec (records (set_pending (pending s1 ++ [o]) s1)) _ Hb2)
    as (s2 & _ & s3 & Hrem & _).
  destruct (replace o && negb (destroy o)).
  { unfold removeAll in H. by rewrite Hrem in H. }
  destruct (destroy o); [|done].
  unfold destroyAll, removeAll in H. rewrite Hrem in H. cbn [bind] in H.
  destruct (destroy_each _ _) as [[] s4|e4 s4] eqn:Hde; [done|].
  inversion H; subst. by eapply destroy_each_thrown.
Qed.

Lemma only_add_and_destroy_raise_witness :
  at_boundary lazy_empty ∧
  ∃ e s', add [Raw 7%nat] None lazy_empty = Thrown e s'.
Proof.
  assert (at_boundary lazy_empty) as H by concrete_boundary.
  split; [exact H|].
  apply (proj1 (proj2 (proj2 (proj2 (only_add_and_destroy_raise lazy_empty H))))
           [Raw 7%nat] None).
  split; [reflexivity|]. exists 7%nat. split; [|reflexivity].
  apply (bool_decide_unpack _). vm_compute. exact I.
Defined.

(** ** A bulk destroy that meets a data hash *)

Lemma Sorted_seqZ (n : nat) : ∀ m, Sorted Z.le (seqZ m (Z.of_nat n)).
Proof.
  induction n as [|n IH]; intros m.
  { rewrite seqZ_nil by lia. constructor. }
  rewrite seqZ_cons by lia.
  replace (Z.pred (Z.of_nat (S n))) with (Z.of_nat n) by lia.
  constructor; [apply IH|].
  destruct n as [|n]; [rewrite seqZ_nil by lia; constructor|].
  rewrite seqZ_cons by lia. constructor. lia.
Qed.

Lemma omap_agree {A B} (f g : A → option B) (l : list A) :
  (∀ x, x ∈ l → f x = g x) → omap f l = omap g l.
Proof.
  induction l as [|x l IH]; intros H; csimpl; [done|].
  rewrite (H x) by (by left). rewrite IH; [done|].
  intros y Hy. apply H. by right.
Qed.

Lemma omap_nth_z (recs : list entry) :
  omap (nth_z recs) (seqZ 0 (len recs)) = recs.
Proof.
  unfold len. induction recs as [|e recs IH] using rev_ind; [done|].
  rewrite length_app. simpl.
  replace (Z.of_nat (List.length recs + 1)) with (Z.of_nat (S (List.length recs)))
    by lia.
  rewrite seqZ_S, omap_app. simpl.
  rewrite nth_z_snoc, bool_decide_eq_true_2 by done. simpl. f_equal.
  etrans; [|exact IH]. apply omap_agree. intros k Hk.
  apply elem_of_seqZ in Hk. rewrite nth_z_snoc.
  rewrite bool_decide_eq_false_2; [done|]. unfold len. lia.
Qed.

(** The keys of the map [remove] returns for the whole array, walked in
    ascending order, give the array back. *)
Lemma in_key_order_list (dm : gmap Z entry) (recs : list entry) :
  (∀ i, dm !! i = nth_z recs i) → in_key_order dm = recs.
Proof.
  intros Hd. unfold in_key_order.
  assert (merge_sort Z.le (map_to_list dm).*1 = seqZ 0 (len recs)) as ->.
  { apply (Sorted_unique Z.le).
    - apply Sorted_merge_sort. intros a b. lia.
    - apply Sorted_seqZ.
    - rewrite merge_sort_Permutation.
      apply NoDup_Permutation; [apply NoDup_fst_map_to_list|apply NoDup_seqZ|].
      intros k. rewrite elem_of_seqZ. rewrite list_elem_of_fmap. split.
      + intros ([k' e] & -> & Hk). apply elem_of_map_to_list in Hk. simpl.
        rewrite Hd in Hk. unfold nth_z in Hk.
        destruct (k' <? 0) eqn:E; [done|]. apply Z.ltb_ge in E.
        apply lookup_lt_Some in Hk. unfold len. lia.
      + intros Hk. destruct (recs !! Z.to_nat k) as [e|] eqn:He.
        2:{ apply lookup_ge_None in He. unfold len in Hk. lia. }
        exists (k, e). split; [done|]. apply elem_of_map_to_list.
        rewrite Hd. unfold nth_z. by rewrite (proj2 (Z.ltb_ge _ _)) by lia. }
  etrans; [|apply omap_nth_z]. apply omap_agree. intros k _. apply Hd.
Qed.

Lemma destroy_each_app l1 l2 s :
  destroy_each (l1 ++ l2) s = do _, s' <- destroy_each l1 s; destroy_each l2 s'.
Proof.
  revert s. induction l1 as [|e l1 IH]; intros s; simpl; [done|].
  destruct (destroy_record e s) as [[] s1|err s1]; simpl; [apply IH|done].
Qed.

(** X17. A bulk destroy that meets a data hash: on an unfiltered
    collection of distinct slots in which a data hash comes after
    instances only, [destroyAll] takes every record out of the
    collection, destroys the instances before the hash, and then raises a
    type error at the hash, which has no [destroy]; the flag that marks a
    bulk destroy in progress stays set. *)
Theorem destroyAll_stops_at_a_data_hash (s : collection) (pre post : list entry)
    (a : addr) :
  at_boundary s → filtered s = false → NoDup (records s) →
  records s = pre ++ Raw a :: post →
  Forall (λ e, is_model e = true) pre →
  Forall (λ e, present e = true) post →
  ∃ s', destroyAll s = Thrown TypeError s' ∧
    records s' = [] ∧ length s' = 0 ∧
    dead s' = list_to_set (omap address pre) ∪ dead s ∧
    _destroyAll s' = true.
Proof.
  intros Hb Hf Hnd Hrec Hpre Hpost.
  assert (Forall (λ e, present e = true) (records s)) as Hall.
  { rewrite Hrec. apply Forall_app. split.
    - eapply Forall_impl; [exact Hpre|]. by intros [].
    - by constructor. }
  destruct (removeAll_clears s Hb Hf Hnd Hall)
    as (dm & s1 & Hrem & Hrec1 & Hb1 & Hdm & _ & _ & Hdead).
  unfold destroyAll. rewrite Hrem. cbn [bind].
  rewrite (in_key_order_list dm (records s) Hdm), Hrec.
  rewrite destroy_each_app, (destroy_each_instances pre) by done.
  cbn [bind destroy_each destroy_record].
  eexists. split; [reflexivity|]. simpl.
  destruct Hb1 as (Hl1 & _). rewrite Hl1, Hrec1, Hdead. by repeat split.
Qed.

Lemma destroyAll_stops_at_a_data_hash_witness :
  at_boundary mixed ∧ NoDup (records mixed) ∧
  ∃ s', destroyAll mixed = Thrown TypeError s' ∧
    records s' = [] ∧ length s' = 0 ∧
    dead s' = list_to_set (omap address [Rec 5%nat]) ∪ dead mixed ∧
    _destroyAll s' = true.
Proof.
  assert (at_boundary mixed) as H by concrete_boundary.
  assert (NoDup (records mixed)) as H2.
  { apply (bool_decide_unpack _). vm_compute. exact I. }
  split; [exact H|]. split; [exact H2|].
  apply (destroyAll_stops_at_a_data_hash mixed [Rec 5%nat] [recB] 1%nat H eq_refl
           H2 eq_refl); repeat constructor.
Defined.

(** ** When a record of the collection is destroyed *)

(** X18. The listener for the destroy event of a record: outside a bulk
    destroy, a destroyed record that is in the (unfiltered) collection
    leaves it (its first occurrence is taken out, the length goes down by
    one, with one length and one remove notification); during a bulk
    destroy the event is ignored. *)
Theorem destroyed_record_leaves_the_collection (r : entry) (pre post : list entry)
    (s : collection) :
  at_boundary s → filtered s = false → present r = true →
  records s = pre ++ r :: post → r ∉ pre →
  (_destroyAll s = true → _recordDestroyed r s = Done tt s) ∧
  (_destroyAll s = false →
   ∃ s', _recordDestroyed r s = Done tt s' ∧
     records s' = pre ++ post ∧ length s' = length s - 1 ∧
     log s' = log s ++ [EvLength (length s) (length s - 1);
                        EvRemove {[len pre := r]}]).
Proof.
  intros Hb Hf Hr Hrec Hpre. unfold _recordDestroyed.
  split; intros ->; [done|].
  rewrite (remove_single r pre post s) by done. cbn [bind]. by eexists.
Qed.

Lemma destroyed_record_leaves_the_collection_witness :
  at_boundary instances ∧ (Rec 6%nat ∉ [Rec 5%nat]) ∧
  ∃ s', _recordDestroyed (Rec 6%nat) instances = Done tt s' ∧
    records s' = [Rec 5%nat] ++ [] ∧ length s' = length instances - 1 ∧
    log s' = log instances ++
             [EvLength (length instances) (length instances - 1);
              EvRemove {[len [Rec 5%nat] := Rec 6%nat]}].
Proof.
  assert (at_boundary instances) as H by concrete_boundary.
  assert (Rec 6%nat ∉ [Rec 5%nat]) as H2.
  { apply (bool_decide_unpack _). vm_compute. exact I. }
  split; [exact H|]. split; [exact H2|].
  exact (proj2 (destroyed_record_leaves_the_collection (Rec 6%nat) [Rec 5%nat] []
                  instances H eq_refl eq_refl eq_refl H2) eq_refl).
Defined.

(** ** Changing the active filter *)

(** X19. The observer of the active filter.  A name that is empty, or
    under which the [filters] object has nothing, own or inherited, or
    has an empty method name, lifts whatever filter is in effect, the
    records of the undo buffer coming back.  A name that [filters] only
    inherits, or that leads to a method name under which the collection
    has nothing, changes nothing, so that a filtered collection stays
    filtered by the filter it had.  A name that leads to a property of the
    collection that is not a function raises a type error, unless the
    dataset is empty, and leaves the collection silenced and marked as
    filtering. *)
Theorem active_filter_change (k : filter_setup) (base : list entry) (s : collection) :
  overlay base s →
  (activeFilter k = EmptyString ∨ filters_at k (activeFilter k) = NoEntry ∨
   filters_at k (activeFilter k) = OwnEntry EmptyString →
   ∃ s', _activeFilterChanged k s = Done tt s' ∧
     records s' = base ∧ filtered s' = false ∧ _uRecords s' = None) ∧
  (activeFilter k ≠ EmptyString →
   filters_at k (activeFilter k) = InheritedEntry ∨
   (∃ fn, filters_at k (activeFilter k) = OwnEntry fn ∧ fn ≠ EmptyString ∧
          members k !! fn = None) →
   _activeFilterChanged k s = Done tt s) ∧
  (activeFilter k ≠ EmptyString →
   (∃ fn, filters_at k (activeFilter k) = OwnEntry fn ∧ fn ≠ EmptyString ∧
          members k !! fn = Some NotCallable) →
   _activeFilterChanged k s =
     if bool_decide (base = []) then Done tt s
     else Thrown TypeError (set_silenced true (set_filtering true s))).
Proof.
  intros (Hg & Hs & Hl & Hc). unfold _activeFilterChanged.
  split; [|split].
  - intros Hno.
    assert (negb (bool_decide (activeFilter k = EmptyString)) &&
            match filters_at k (activeFilter k) with
            | OwnEntry fn => negb (bool_decide (fn = EmptyString))
            | InheritedEntry => true
            | NoEntry => false
            end = false) as ->.
    { destruct Hno as [-> | [-> | ->]]; [done| |]; by rewrite andb_false_r. }
    destruct Hc as [(Hf & Hu & Hr)|(Hf & Hu & Hne)].
    + rewrite reset_idle by done. by exists s.
    + rewrite (reset_restore base) by done. by eexists.
  - intros Hname Hnone.
    assert (negb (bool_decide (activeFilter k = EmptyString)) &&
            match filters_at k (activeFilter k) with
            | OwnEntry fn => negb (bool_decide (fn = EmptyString))
            | InheritedEntry => true
            | NoEntry => false
            end = true ∧ active_member k = None) as [-> Hm].
    { unfold active_member. rewrite bool_decide_eq_false_2 by done.
      destruct Hnone as [->|(fn & -> & Hne & Hm)]; [done|].
      by rewrite bool_decide_eq_false_2 by done. }
    unfold trigger_filter. rewrite Hs, Hm. unfold filter_pass, _filterContent.
    by destruct (_ && _).
  - intros Hname (fn & Hfn & Hne & Hm).
    rewrite Hfn. rewrite !bool_decide_eq_false_2 by done. cbn [negb andb].
    unfold trigger_filter, active_member. rewrite Hs, Hfn.
    rewrite bool_decide_eq_false_2 by done. rewrite Hm.
    unfold filter_pass, raised_pass. rewrite Hg. cbn [negb andb].
    destruct Hc as [(Hf & Hu & Hr)|(Hf & Hu & Hne')].
    + unfold buffer_nonempty. rewrite Hu, Hl, Hr, orb_false_r.
      destruct base as [|e base]; [done|].
      rewrite bool_decide_eq_false_2 by done. done.
    + rewrite bool_decide_eq_false_2 by done.
      unfold buffer_nonempty. rewrite Hu.
      destruct base as [|e base]; [done|]. by rewrite orb_true_r.
Qed.

Lemma active_filter_change_witness :
  overlay (records abcd) abcd_filtered ∧
  ∃ s', _activeFilterChanged no_filter abcd_filtered = Done tt s' ∧
    records s' = records abcd ∧ filtered s' = false ∧ _uRecords s' = None.
Proof.
  assert (overlay (records abcd) abcd_filtered) as H.
  { split; [reflexivity|]. split; [reflexivity|]. split; [reflexivity|].
    right. split; [reflexivity|]. split; [reflexivity|]. discriminate. }
  split; [exact H|].
  exact (proj1 (active_filter_change no_filter (records abcd) abcd_filtered H)
           (or_introl eq_refl)).
Defined.

(** Two names that reach no filter method: "constructor", which the
    [filters] object only inherits, leaves the filtered collection as it
    is; "big", which leads to the property [length], raises and leaves the
    collection silenced and marked as filtering. *)
Lemma names_that_reach_no_method :
  _activeFilterChanged inherited_name abcd_filtered = Done tt abcd_filtered ∧
  ∃ s', _activeFilterChanged length_as_filter abcd = Thrown TypeError s' ∧
        silenced s' = true ∧ filtering s' = true ∧
        records s' = records abcd ∧ log s' = log abcd.
Proof. split; [by vm_compute|]. eexists. split; [by vm_compute|done]. Qed.

(** ** Filter properties through kind inheritance *)

Lemma split_blank_nonempty s : split_blank s ≠ [].
Proof.
  destruct s as [|c s]; simpl; [done|].
  destruct (Ascii.eqb c blank); [done|]. by destruct (split_blank s).
Qed.

Lemma split_blank_app a b :
  split_blank (a +:+ String blank b) = split_blank a ++ split_blank b.
Proof.
  induction a as [|c a IH]; simpl; [done|].
  destruct (Ascii.eqb c blank); [by rewrite IH|].
  rewrite IH. pose proof (split_blank_nonempty a).
  by destruct (split_blank a).
Qed.

Lemma split_blank_name n : blankless n = true → split_blank n = [n].
Proof.
  induction n as [|c n IH]; simpl; [done|].
  intros (Hc%negb_true_iff & Hn)%andb_prop. rewrite Hc. by rewrite IH.
Qed.

Lemma proper_names_cons n l :
  forallb proper_name (n :: l) = true →
  n ≠ EmptyString ∧ blankless n = true ∧ forallb proper_name l = true.
Proof.
  simpl. intros (Hn & Hl)%andb_prop. unfold proper_name in Hn.
  apply andb_prop in Hn as (Hne%negb_true_iff & Hb).
  by apply bool_decide_eq_false in Hne.
Qed.

Lemma split_join_blank l :
  forallb proper_name l = true → l ≠ [] → split_blank (join_blank l) = l.
Proof.
  induction l as [|n l IH]; intros Hl Hne; [done|].
  apply proper_names_cons in Hl as (_ & Hn & Hl).
  destruct l as [|n' l]; [by apply split_blank_name|].
  change (join_blank (n :: n' :: l))
    with (n +:+ String blank (join_blank (n' :: l))).
  rewrite split_blank_app, split_blank_name, IH by done. done.
Qed.

Lemma until_empty_app l k :
  forallb proper_name l = true → until_empty (l ++ k) = l ++ until_empty k.
Proof.
  induction l as [|n l IH]; intros Hl; [done|].
  apply proper_names_cons in Hl as (Hne & _ & Hl). simpl.
  rewrite bool_decide_eq_false_2 by done. by rewrite IH.
Qed.

Lemma join_blank_nonempty l :
  forallb proper_name l = true → l ≠ [] → join_blank l ≠ EmptyString.
Proof.
  destruct l as [|n l]; intros Hl Hne; [done|].
  apply proper_names_cons in Hl as (Hn & _ & _).
  destruct l; [done|]. simpl. by destruct n.
Qed.

Lemma observed_join l :
  forallb proper_name l = true → observed_props (join_blank l) = l.
Proof.
  intros Hl. destruct l as [|n l]; [done|].
  unfold observed_props.
  rewrite bool_decide_eq_false_2 by (by apply join_blank_nonempty).
  rewrite split_join_blank by done.
  rewrite <- (app_nil_r (n :: l)) at 1. rewrite until_empty_app by done.
  by rewrite app_nil_r.
Qed.

(** X20. Filter properties of a kind and of the kind it derives from:
    with names that are not empty and hold no blank, the properties the
    constructor observes are those of the base kind followed by those the
    derived kind declares as an array. [concat] appends them to the
    string of a base kind that has some and removes them from the
    incoming properties; for a base kind without any it leaves them there,
    turned into a string that the constructor reads back into the same
    names. A doubled blank in the string hides every name behind it. *)
Theorem inherited_filter_props_are_observed
    (mixin : gmap string string → gmap string string → gmap string string)
    (pf kf : option (gmap string string)) (base names : list string) :
  forallb proper_name base = true → forallb proper_name names = true →
  (base ≠ [] →
   let r := concat mixin (Proto pf (join_blank base))
              (KindProps kf (Some (NamesArray names))) in
   observed_props (p_filterProps r.1) = base ++ names ∧
   k_filterProps r.2 = None) ∧
  (let r := concat mixin (Proto pf EmptyString)
              (KindProps kf (Some (NamesArray names))) in
   p_filterProps r.1 = EmptyString ∧
   k_filterProps r.2 = Some (NamesString (join_blank names)) ∧
   observed_props (join_blank names) = names) ∧
  (∀ rest, observed_props (join_blank base +:+ String blank (String blank rest))
           = base).
Proof.
  intros Hbase Hnames. split; [|split].
  - intros Hne. pose proof (join_blank_nonempty base Hbase Hne) as Hj.
    unfold concat. destruct kf as [fs|], pf as [pfs|]; simpl.
    all: rewrite bool_decide_eq_false_2 by done; simpl; (split; [|done]).
    all: unfold observed_props.
    all: rewrite bool_decide_eq_false_2
           by (intros E; apply Hj; by destruct (join_blank base)).
    all: change (join_blank base +:+ " " +:+ join_blank names)
           with (join_blank base +:+ String blank (join_blank names)).
    all: rewrite split_blank_app, split_join_blank by done.
    all: rewrite until_empty_app by done; f_equal.
    all: destruct names as [|n names]; [done|].
    all: rewrite split_join_blank by done.
    all: rewrite <- (app_nil_r (n :: names)) at 1.
    all: rewrite until_empty_app by done; by rewrite app_nil_r.
  - unfold concat. destruct kf as [fs|], pf as [pfs|]; simpl.
    all: by rewrite observed_join.
  - intros rest. unfold observed_props.
    destruct base as [|n base].
    { reflexivity. }
    rewrite bool_decide_eq_false_2.
    2:{ intros E. apply (join_blank_nonempty (n :: base)); [done|done|].
        by destruct (join_blank (n :: base)). }
    rewrite split_blank_app, split_join_blank by done.
    rewrite until_empty_app by done. simpl. by rewrite app_nil_r.
Qed.

Lemma inherited_filter_props_are_observed_witness :
  let r := concat (λ a b, b ∪ a) (Proto None "name")
             (KindProps None (Some (NamesArray ["age"; "city"]))) in
  observed_props (p_filterProps r.1) = ["name"] ++ ["age"; "city"] ∧
  k_filterProps r.2 = None.
Proof.
  assert (["name"] ≠ ([] : list string)) as H by discriminate.
  exact (proj1 (inherited_filter_props_are_observed (λ a b, b ∪ a) None None
                  ["name"] ["age"; "city"] eq_refl eq_refl) H).
Defined.

(** ** The filter round trip, on an example *)

Lemma single_reset_filters_keep_dataset_witness :
  at_boundary abcd ∧
  (∀ f s, f ∈ [keep_b; keep_second] → (array_resets (f s) ≤ 1)%nat) ∧
  ∃ s, apply_filters [keep_b; keep_second] abcd = Done tt s ∧
    (filtered s = true →
     ∃ u, _uRecords s = Some u ∧ Forall2 materialized (records abcd) u ∧
       ∃ s', reset None s = Done tt s' ∧
         records s' = u ∧ _uRecords s' = None ∧
         filtered s' = false ∧ length s' = len (records s') ∧
         ∃ evs, log s' = log s ++ evs ∧ reset_notifications evs = [u]).
Proof.
  assert (at_boundary abcd) as H by concrete_boundary.
  assert (∀ f s, f ∈ [keep_b; keep_second] → (array_resets (f s) ≤ 1)%nat) as H2.
  { intros f s Hf. apply elem_of_cons in Hf as [->|Hf]; [vm_compute; lia|].
    apply elem_of_cons in Hf as [->|Hf]; [vm_compute; lia|].
    by apply elem_of_nil in Hf. }
  split; [exact H|]. split; [exact H2|].
  exact (single_reset_filters_keep_dataset abcd [keep_b; keep_second] H eq_refl
           eq_refl H2).
Defined.

(** ** The states a collection goes through *)

Lemma keeps_flags_refl s : sound s → keeps_flags s s.
Proof. intros Hs. split; [done|]. by repeat split. Qed.

Lemma keeps_flags_trans s1 s2 s3 :
  keeps_flags s1 s2 → keeps_flags s2 s3 → keeps_flags s1 s3.
Proof.
  intros (_ & Es & Eg & El) (Hs & Es' & Eg' & El').
  split; [done|]. split; [congruence|]. split; [congruence|].
  intros H. rewrite El' by congruence. by apply El.
Qed.

Lemma keeps_flags_ext s s' :
  sound s →
  records s' = records s → length s' = length s →
  filtered s' = filtered s → _uRecords s' = _uRecords s →
  silenced s' = silenced s → filtering s' = filtering s → log s' = log s →
  keeps_flags s s'.
Proof.
  intros Hs Er El Ef Eu Es Eg Elog. unfold keeps_flags, sound.
  by rewrite Er, El, Ef, Eu, Es, Eg, Elog.
Qed.

Lemma keeps_flags_view s s' : same_view s s' → sound s → keeps_flags s s'.
Proof.
  intros (Er & El & Ef & Eg & Es & Eu & _ & Elog & _) Hs.
  by apply keeps_flags_ext.
Qed.

Lemma reset_keeps_flags arg s :
  sound s → ∃ s', reset arg s = Done tt s' ∧ keeps_flags s s'.
Proof.
  intros [Hl Hu]. destruct arg as [rs|].
  - destruct (filtering s && negb (filtered s)) eqn:E.
    + apply andb_prop in E as (Eg & Ef%negb_true_iff).
      rewrite reset_array_snapshot by done. eexists. split; [reflexivity|].
      unfold keeps_flags, sound. simpl. rewrite Ef.
      repeat split; try done. intros ->. case_bool_decide; by rewrite ?app_nil_r.
    + rewrite reset_array_plain by done. eexists. split; [reflexivity|].
      unfold keeps_flags, sound. simpl.
      repeat split; try done. intros ->. case_bool_decide; by rewrite ?app_nil_r.
  - destruct (filtered s) eqn:Ef.
    + destruct (Hu eq_refl) as [u Hbuf]. rewrite (reset_restore u) by done.
      eexists. split; [reflexivity|].
      unfold keeps_flags, sound. simpl.
      repeat split; try done. intros ->. case_bool_decide; by rewrite ?app_nil_r.
    + rewrite reset_idle by done. exists s. split; [done|].
      apply keeps_flags_refl. split; [done|]. by rewrite Ef.
Qed.

Lemma unfilter_keeps_flags s :
  sound s → ∃ s', unfilter s = Done tt s' ∧ keeps_flags s s'.
Proof.
  intros Hs. unfold unfilter. destruct (filtered s).
  - by apply reset_keeps_flags.
  - exists s. split; [done|]. by apply keeps_flags_refl.
Qed.

Lemma add_keeps_flags batch i s :
  sound s → keeps_flags s (state_of (add batch i s)).
Proof.
  intros Hs. unfold add.
  destruct (unfilter_keeps_flags s Hs) as (s1 & -> & Hk1). cbn [bind]. cbv zeta.
  destruct batch as [|r batch]; [done|].
  eapply keeps_flags_trans; [exact Hk1|]. destruct Hk1 as (Hs1 & _).
  set (b := r :: batch). set (i0 := normalize_index i (length s1)).
  pose proof (add_scan_view b 0 i0 s1) as Hv.
  destruct (add_scan 0 i0 b s1) as [p s2|e s2]; cbn [bind state_of] in *.
  - destruct Hv as (Er & El & Ef & Eg & Es & Eu & _ & Elog & _).
    destruct Hs1 as [Hl1 Hu1].
    destruct (p.2) as [|j js]; unfold keeps_flags, sound.
    all: rewrite ?notify_eq, ?trigger_eq; simpl.
    all: rewrite Ef, Eu, Es, Eg, Elog.
    all: repeat split; try done.
    all: intros ->; case_bool_decide; simpl; by rewrite ?app_nil_r.
  - by apply keeps_flags_view.
Qed.

Lemma remove_keeps_flags rec s :
  sound s → keeps_flags s (state_of (remove rec s)).
Proof.
  intros Hs. unfold remove.
  destruct (unfilter_keeps_flags s Hs) as (s1 & -> & Hk1). cbn [bind]. cbv zeta.
  eapply keeps_flags_trans; [exact Hk1|]. destruct Hk1 as ([Hl1 Hu1] & _).
  destruct (rr (remove_plan (records s1) rec)) as [|j js];
    unfold keeps_flags, sound, state_of.
  all: rewrite ?notify_eq, ?trigger_eq; simpl.
  all: repeat split; try done.
  all: intros ->; case_bool_decide; simpl; by rewrite ?app_nil_r.
Qed.

Lemma at_keeps_flags i s : sound s → keeps_flags s (at_ i s).2.
Proof.
  intros [Hl Hu].
  destruct (at_in_place i s) as (Hm & El & Ef & Eg & Es & Eu & Elog).
  unfold keeps_flags, sound.
  rewrite El, Ef, Eg, Es, Eu, Elog, (materialized_len _ _ Hm).
  by repeat split.
Qed.

Lemma map_loop_keeps_flags {B} (fn : entry → Z → B) n : ∀ i s,
  sound s → keeps_flags s (map_loop fn n i s).2.
Proof.
  induction n as [|n IH]; intros i s Hs; simpl; [by apply keeps_flags_refl|].
  pose proof (at_keeps_flags i s Hs) as Hat.
  destruct (at_ i s) as [r s1]. simpl in Hat.
  destruct (present r); [|done].
  specialize (IH (i + 1) s1 (proj1 Hat)).
  destruct (map_loop fn n (i + 1) s1). simpl in *.
  by eapply keeps_flags_trans.
Qed.

Lemma merge_keeps_flags batch s :
  sound s → keeps_flags s (state_of (merge batch s)).
Proof.
  intros Hs. unfold merge. destruct batch as [batch|];
    [|by apply keeps_flags_refl].
  destruct (merge_loop _ _ _ _ _ _) as [h toadd].
  assert (keeps_flags s (set_heap h s)) as Hk by (by apply keeps_flags_ext).
  destruct toadd as [|e toadd]; [done|].
  pose proof (add_keeps_flags (e :: toadd) None (set_heap h s) (proj1 Hk)) as Ha.
  destruct (add (e :: toadd) None (set_heap h s)); cbn [bind state_of] in *;
    (eapply keeps_flags_trans; [exact Hk|exact Ha]).
Qed.

Lemma destroy_each_keeps_flags l : ∀ s,
  sound s → keeps_flags s (state_of (destroy_each l s)).
Proof.
  induction l as [|e l IH]; intros s Hs; simpl; [by apply keeps_flags_refl|].
  destruct e as [|a|a]; simpl; [by apply IH|by apply keeps_flags_refl|].
  eapply keeps_flags_trans; [|apply IH].
  - by apply keeps_flags_ext.
  - done.
Qed.

Lemma destroyAll_keeps_flags s :
  sound s → keeps_flags s (state_of (destroyAll s)).
Proof.
  intros Hs. unfold destroyAll, removeAll.
  pose proof (remove_keeps_flags (records s) s Hs) as Hr.
  destruct (remove (records s) s) as [dm s1|err s1]; simpl in *; [|done].
  eapply keeps_flags_trans; [exact Hr|].
  assert (keeps_flags s1 (set_destroyAll true s1)) as H1
    by (apply keeps_flags_ext; by destruct Hr).
  eapply keeps_flags_trans; [exact H1|].
  pose proof (destroy_each_keeps_flags (in_key_order dm) _ (proj1 H1)) as Hd.
  destruct (destroy_each _ _) as [[] s2|err s2]; simpl in *; [|done].
  eapply keeps_flags_trans; [exact Hd|]. apply keeps_flags_ext; by destruct Hd.
Qed.

Lemma createRecord_keeps_flags attrs i s :
  sound s → keeps_flags s (state_of (createRecord attrs i s)).
Proof.
  intros Hs. unfold createRecord.
  assert (keeps_flags s (store_createRecord attrs s).2) as Hk.
  { apply keeps_flags_view; [apply store_createRecord_view|done]. }
  destruct (store_createRecord attrs s) as [r s1]. simpl in Hk.
  match goal with
  | |- context [add ?b ?j s1] =>
      pose proof (add_keeps_flags b j s1 (proj1 Hk)) as Ha;
      destruct (add b j s1); cbn [bind state_of] in *;
        (eapply keeps_flags_trans; [exact Hk|exact Ha])
  end.
Qed.

Lemma fetch_keeps_flags o s :
  sound s → keeps_flags s (state_of (fetch o s)).
Proof.
  intros Hs. unfold fetch.
  destruct (unfilter_keeps_flags s Hs) as (s1 & -> & Hk1). cbn [bind].
  eapply keeps_flags_trans; [exact Hk1|].
  assert (keeps_flags s1 (set_pending (pending s1 ++ [o]) s1)) as Hk2
    by (apply keeps_flags_ext; by destruct Hk1).
  eapply keeps_flags_trans; [exact Hk2|].
  destruct (replace o && negb (destroy o)); [|destruct (destroy o)].
  - pose proof (remove_keeps_flags (records s1) _ (proj1 Hk2)) as Hr.
    unfold removeAll. simpl in *. by destruct (remove _ _).
  - apply destroyAll_keeps_flags, Hk2.
  - apply keeps_flags_refl, Hk2.
Qed.

Lemma didFetch_keeps_flags o res s :
  sound s → keeps_flags s (state_of (didFetch o res s)).
Proof.
  intros Hs. unfold didFetch. destruct res as [rr|];
    [|by apply keeps_flags_refl].
  destruct (strategy_of o).
  - pose proof (add_keeps_flags rr None s Hs) as Ha. by destruct (add _ _ _).
  - by apply merge_keeps_flags.
Qed.

Lemma recordDestroyed_keeps_flags rec s :
  sound s → keeps_flags s (state_of (_recordDestroyed rec s)).
Proof.
  intros Hs. unfold _recordDestroyed.
  destruct (_destroyAll s); [by apply keeps_flags_refl|].
  pose proof (remove_keeps_flags [rec] s Hs) as Hr. by destruct (remove _ _).
Qed.

Lemma run_calls_keeps_flags cs : ∀ s,
  sound s → ∃ s', run_calls cs s = Done tt s' ∧ keeps_flags s s'.
Proof.
  induction cs as [|[i|arg] cs IH]; intros s Hs; cbn [run_calls].
  - exists s. split; [done|]. by apply keeps_flags_refl.
  - pose proof (at_keeps_flags i s Hs) as Hat.
    destruct (IH (at_ i s).2 (proj1 Hat)) as (s' & Hrun & Hk).
    exists s'. split; [done|]. by eapply keeps_flags_trans.
  - destruct (reset_keeps_flags arg s Hs) as (s1 & -> & Hk1). cbn [bind].
    destruct (IH s1 (proj1 Hk1)) as (s' & Hrun & Hk).
    exists s'. split; [done|]. by eapply keeps_flags_trans.
Qed.

(** A pass does nothing while the collection is marked as filtering. *)
Lemma filter_pass_idle m s : filtering s = true → filter_pass m s = Done tt s.
Proof.
  intros Hg. destruct m as [[f|g e|]|]; unfold filter_pass, _filterContent,
    raised_pass; by rewrite Hg.
Qed.

Lemma raised_pass_outcome g e s :
  at_boundary s →
  if pass_runs s
  then stuck (state_of (raised_pass g e s)) ∧
       log (state_of (raised_pass g e s)) = log s
  else raised_pass g e s = Done tt s.
Proof.
  intros (Hl & Hs & Hg & Hu). unfold raised_pass, pass_runs.
  destruct (negb (filtering s) && _); [|done]. cbv zeta.
  set (s0 := set_silenced true (set_filtering true s)).
  destruct (run_calls_keeps_flags (g s0) s0) as (s1 & -> & Hs1 & Es & Eg & Elog);
    [done|].
  cbn [bind state_of]. split; [by split|]. by rewrite Elog.
Qed.

Lemma filter_pass_boundary m s :
  at_boundary s →
  at_boundary (state_of (filter_pass m s)) ∨
  raises m = true ∧ pass_runs s = true ∧
  stuck (state_of (filter_pass m s)) ∧ log (state_of (filter_pass m s)) = log s.
Proof.
  intros Hb. destruct m as [[f|g e|]|]; cbn [filter_pass raises].
  - left. by destruct (filterContent_boundary (Some f) s Hb) as (s' & -> & Hb').
  - pose proof (raised_pass_outcome g e s Hb) as H.
    destruct (pass_runs s); [by right|]. left. by rewrite H.
  - pose proof (raised_pass_outcome (λ _, []) TypeError s Hb) as H.
    destruct (pass_runs s); [by right|]. left. by rewrite H.
  - left. by destruct (filterContent_boundary None s Hb) as (s' & -> & Hb').
Qed.

(** A step from a state between public calls leads to such a state again,
    unless it is a filter pass whose method raises. *)
Lemma step_from_boundary s s' :
  at_boundary s → step s s' →
  at_boundary s' ∨
  stuck s' ∧ log s' = log s ∧
  ∃ m, raises m = true ∧ pass_runs s = true ∧ s' = state_of (filter_pass m s).
Proof.
  intros Hb Hstep.
  destruct Hstep as [batch i s|rec s|s|s|arg s|batch s|i s|fn s|fn s|attrs i s
                    |mm s|k s|k s|rec s|o s|o res s|h s].
  - left. by apply add_boundary.
  - left. by apply remove_boundary.
  - left. by apply remove_boundary.
  - left. by apply destroyAll_boundary.
  - left. by apply reset_boundary.
  - left. by apply merge_boundary.
  - left. by apply at_keeps_boundary.
  - left. by apply map_loop_boundary.
  - left. by apply filter_boundary.
  - left. by apply createRecord_boundary.
  - destruct (filter_pass_boundary mm s Hb) as [?|(Hr & Hp & Hst & Hlog)];
      [by left|right]. split; [done|]. split; [done|]. by exists mm.
  - unfold trigger_filter. rewrite (proj1 (proj2 Hb)).
    destruct (filter_pass_boundary (active_member k) s Hb)
      as [?|(Hr & Hp & Hst & Hlog)]; [by left|right].
    split; [done|]. split; [done|]. by exists (active_member k).
  - unfold _activeFilterChanged. destruct (_ && _).
    + unfold trigger_filter. rewrite (proj1 (proj2 Hb)).
      destruct (filter_pass_boundary (active_member k) s Hb)
        as [?|(Hr & Hp & Hst & Hlog)]; [by left|right].
      split; [done|]. split; [done|]. by exists (active_member k).
    + left. by apply reset_boundary.
  - left. unfold _recordDestroyed. destruct (_destroyAll s); [done|].
    pose proof (remove_boundary [rec] s Hb) as Hr. by destruct (remove _ _).
  - left. by apply fetch_boundary.
  - left. by apply didFetch_boundary.
  - left. by eapply boundary_ext.
Qed.

(** Nothing leads out of a stuck state, and nothing is notified there. *)
Lemma step_from_stuck s s' :
  stuck s → step s s' → stuck s' ∧ log s' = log s.
Proof.
  intros (Hs & Hsil & Hg) Hstep.
  assert (∀ s2, keeps_flags s s2 → stuck s2 ∧ log s2 = log s) as Hkeep.
  { intros s2 (Hs2 & Es & Eg & Elog). split; [|by apply Elog].
    split; [done|]. split; congruence. }
  assert (stuck s ∧ log s = log s) as Hsame.
  { split; [|done]. split; [done|]. by split. }
  destruct Hstep as [batch i s|rec s|s|s|arg s|batch s|i s|fn s|fn s|attrs i s
                    |mm s|k s|k s|rec s|o s|o res s|h s].
  - by apply Hkeep, add_keeps_flags.
  - by apply Hkeep, remove_keeps_flags.
  - by apply Hkeep, remove_keeps_flags.
  - by apply Hkeep, destroyAll_keeps_flags.
  - apply Hkeep. by destruct (reset_keeps_flags arg s Hs) as (s2 & -> & Hk).
  - by apply Hkeep, merge_keeps_flags.
  - by apply Hkeep, at_keeps_flags.
  - by apply Hkeep, map_loop_keeps_flags.
  - apply Hkeep. unfold filter. rewrite filter_loop_map. simpl.
    by apply map_loop_keeps_flags.
  - by apply Hkeep, createRecord_keeps_flags.
  - by rewrite filter_pass_idle by done.
  - unfold trigger_filter. by rewrite Hsil.
  - unfold _activeFilterChanged. destruct (_ && _).
    + unfold trigger_filter. by rewrite Hsil.
    + apply Hkeep. by destruct (reset_keeps_flags None s Hs) as (s2 & -> & Hk).
  - by apply Hkeep, recordDestroyed_keeps_flags.
  - by apply Hkeep, fetch_keeps_flags.
  - by apply Hkeep, didFetch_keeps_flags.
  - apply Hkeep. by apply keeps_flags_ext.
Qed.

(** X23. Every state a constructed collection goes through, with filter
    methods that read and reset the collection and then return or raise
    and whether its own calls return or raise, is sound, with the cached
    length equal to the number of slots and a filtered collection holding
    its undo buffer; and it is either a state between public calls,
    neither silenced nor marked as filtering, or the stuck state, silenced
    and marked as filtering.  From a state between public calls only a
    filter pass that runs and whose method raises leads to the stuck
    state. *)
Theorem reachable_at_boundary_or_stuck (s : collection) :
  reachable s →
  (at_boundary s ∨ stuck s) ∧
  ∀ s', step s s' → at_boundary s →
    at_boundary s' ∨
    stuck s' ∧ ∃ m, raises m = true ∧ pass_runs s = true ∧
                    s' = state_of (filter_pass m s).
Proof.
  intros Hr. split.
  - induction Hr as [|s s' _ IH Hstep]; [left; apply create_boundary|].
    destruct IH as [Hb|Hst].
    + destruct (step_from_boundary s s' Hb Hstep) as [?|(? & _)]; [by left|by right].
    + right. by destruct (step_from_stuck s s' Hst Hstep).
  - intros s' Hstep Hb.
    destruct (step_from_boundary s s' Hb Hstep) as [?|(? & _ & ?)];
      [by left|by right].
Qed.

Lemma reachable_at_boundary_or_stuck_witness :
  reachable (state_of (filter_pass (Some NotCallable) abcd)) ∧
  (at_boundary (state_of (filter_pass (Some NotCallable) abcd)) ∨
   stuck (state_of (filter_pass (Some NotCallable) abcd))).
Proof.
  assert (reachable (state_of (filter_pass (Some NotCallable) abcd))) as H.
  { eapply reachable_step; [apply reachable_create|apply step_pass]. }
  split; [exact H|]. exact (proj1 (reachable_at_boundary_or_stuck _ H)).
Defined.

(** X25. A filter method that raises silences the collection for good.
    When a filter pass runs between public calls (the collection or its
    undo buffer is not empty) and the member it calls raises, the
    collection is left sound but silenced and marked as filtering; and in
    every state it goes through from there it still is, no notification
    has gone out, and a filter pass changes nothing, so that no filter is
    applied any more. *)
Theorem raising_filter_method_silences_for_good (m : option member)
    (s s' : collection) :
  at_boundary s → pass_runs s = true → raises m = true →
  rtc step (state_of (filter_pass m s)) s' →
  stuck s' ∧ log s' = log s ∧ ∀ m', filter_pass m' s' = Done tt s'.
Proof.
  intros Hb Hp Hr Hrtc.
  assert (stuck (state_of (filter_pass m s)) ∧
          log (state_of (filter_pass m s)) = log s) as [Hst Hlog].
  { destruct m as [[f|g e|]|]; try done; cbn [filter_pass].
    - pose proof (raised_pass_outcome g e s Hb) as H. by rewrite Hp in H.
    - pose proof (raised_pass_outcome (λ _, []) TypeError s Hb) as H.
      by rewrite Hp in H. }
  remember (state_of (filter_pass m s)) as s1 eqn:Es1. clear Es1 Hb Hp Hr.
  revert Hst Hlog. induction Hrtc as [x|x y z Hstep _ IH]; intros Hst Hlog.
  - split; [done|]. split; [done|]. intros m'. apply filter_pass_idle, Hst.
  - destruct (step_from_stuck x y Hst Hstep) as [Hst2 Hlog2].
    apply IH; [done|congruence].
Qed.

Lemma raising_filter_method_silences_for_good_witness :
  at_boundary abcd ∧
  stuck (state_of (add [Rec 5%nat] None
                     (state_of (filter_pass (Some NotCallable) abcd)))) ∧
  log (state_of (add [Rec 5%nat] None
                   (state_of (filter_pass (Some NotCallable) abcd)))) = log abcd.
Proof.
  assert (at_boundary abcd) as H by concrete_boundary.
  split; [exact H|].
  destruct (raising_filter_method_silences_for_good (Some NotCallable) abcd
              (state_of (add [Rec 5%nat] None
                           (state_of (filter_pass (Some NotCallable) abcd))))
              H eq_refl eq_refl) as (Hst & Hlog & _).
  { eapply rtc_l; [apply step_add|apply rtc_refl]. }
  by split.
Defined.
